(** * Lotus cluster fork: raft consensus component, remote sector store and
    local sealing worker.

    A shallow embedding of
      - lib/consensus/raft/consensus.go          (Module [consensus]),
      - extern/sector-storage/stores/remote.go   (Module [stores]),
      - extern/sector-storage/worker_local.go    (Module [sectorstorage]),
    together with the properties of these files that the specification
    states.  Calls that leave the three files (the raft engine, the message
    pool, the sector index, the local store, HTTP, the file system) are
    represented by the answers they give, passed in as arguments, and by the
    trace of calls that the modelled function emits. *)

From Stdlib Require Import ZArith Lia Sorting.Sorted.
From stdpp Require Import base gmap strings list.

Set Warnings "-register-all".

(** ** Go errors *)

Module goerr.

(** Package-level error values.  Go compares them by identity, so each one
    is a constructor of its own and never equal to a freshly built error. *)
Inductive sentinel : Type :=
| ErrSectorNotFound   (* storiface.ErrSectorNotFound *)
| errPathNotFound     (* stores.errPathNotFound *)
| ErrNoState          (* libp2praft.ErrNoState *)
| Canceled.           (* context.Canceled *)

(** [New] is errors.New / xerrors.New / an error coming out of a callee,
    [Errorf msg inner] is xerrors.Errorf with a trailing [%w] verb (the
    wrapped value may be nil), [Multi] is a *multierror.Error. *)
Inductive error : Type :=
| Sentinel (s : sentinel)
| New (msg : string)
| Errorf (msg : string) (inner : option error)
| Multi (errs : list error).

#[global] Instance sentinel_eq_dec : EqDecision sentinel.
Proof. solve_decision. Defined.

(** xerrors.Is for a sentinel target: walk the Unwrap chain; a multierror
    is searched element by element. *)
Fixpoint Is (e : error) (target : sentinel) : bool :=
  match e with
  | Sentinel s => bool_decide (s = target)
  | New _ => false
  | Errorf _ None => false
  | Errorf _ (Some e') => Is e' target
  | Multi es => (fix any (l : list error) : bool :=
                   match l with
                   | [] => false
                   | x :: l' => Is x target || any l'
                   end) es
  end.

(** multierror.Append(err, e) as the three files use it: [err] is either
    nil or the multierror built so far. *)
Definition Append (err : option error) (e : error) : option error :=
  match err with
  | None => Some (Multi [e])
  | Some (Multi es) => Some (Multi (es ++ [e]))
  | Some other => Some (Multi [other; e])
  end.

(** What running a call yields: it returns, or the goroutine panics. *)
Inductive outcome (A : Type) : Type :=
| Return (a : A)
| Panic (msg : string).
Arguments Return {A} a.
Arguments Panic {A} msg.

End goerr.
Export goerr.

(** ** lib/consensus/raft/consensus.go *)

Module consensus.

Definition Address := string.
Definition UUID := N.
(** A [*types.SignedMessage], identified by its serialized body. *)
Definition SignedMessage := string.
(** A [*messagepool.MessagePool]; the pool itself lives outside the file. *)
Definition MessagePool := positive.

(** The two maps are allocated maps, as [newRaftState] makes them; [Mpool]
    is a pointer and may be nil. *)
Record RaftState : Type := mkRaftState {
  NonceMap : gmap string N;           (* map[addr.Address]uint64 *)
  MsgUuids : gmap N SignedMessage;    (* map[uuid.UUID]*types.SignedMessage *)
  Mpool : option MessagePool          (* may be nil *)
}.

Definition newRaftState (mpool : option MessagePool) : RaftState :=
  {| NonceMap := ∅; MsgUuids := ∅; Mpool := mpool |}.

Record ConsensusOp : Type := mkOp {
  Nonce : N;
  Uuid : UUID;
  Addr : Address;
  SignedMsg : SignedMessage
}.

(** A call [mp.Add(ctx, m)] made on the message pool. *)
Inductive mpool_call : Type :=
| MpoolAdd (mp : option MessagePool) (m : SignedMessage).

(** [ApplyTo] writes both maps, calls [s.Mpool.Add] and drops what that
    call returns.  The result is the state, the error and the calls made. *)
Definition ApplyTo (c : ConsensusOp) (s : RaftState)
  : RaftState * option error * list mpool_call :=
  let s1 := {| NonceMap := <[Addr c := Nonce c]> (NonceMap s);
               MsgUuids := MsgUuids s; Mpool := Mpool s |} in
  let s2 := {| NonceMap := NonceMap s1;
               MsgUuids := <[Uuid c := SignedMsg c]> (MsgUuids s1);
               Mpool := Mpool s1 |} in
  (s2, None, [MpoolAdd (Mpool s2) (SignedMsg c)]).

(** The [consensus.State] interface value handed back by the op log: nil,
    a [*RaftState], or a value of some other dynamic type. *)
Inductive consensus_State : Type :=
| StNil
| StRaft (s : RaftState)
| StOther.

(** [State] takes the answer of [cc.consensus.GetLogHead()]. *)
Definition State (head : consensus_State * option error)
  : option RaftState * option error :=
  let '(st, err) := head in
  match err with
  | Some (Sentinel ErrNoState) => (Some (newRaftState None), None)
  | Some e => (None, Some e)
  | None =>
      match st with
      | StRaft state => (Some state, None)
      | _ => (None, Some (New "wrong state type"))
      end
  end.

Record ClusterRaftConfig : Type := mkConfig {
  CommitRetries : Z;        (* int *)
  CommitRetryDelay : Z;     (* time.Duration, nanoseconds *)
  HostShutdown : bool
}.

Inductive event : Type :=
| EvCommitOp (op : ConsensusOp)   (* cc.consensus.CommitOp(op) *)
| EvSleep (d : Z).                (* time.Sleep(d) *)

Definition max_int : Z := 2 ^ 63 - 1.

(** The body of the [for] loop of [Commit], run [n] more times.  [answers k]
    is the error the engine gives to the [k]-th [CommitOp] of this call
    ([None] is nil).  Both arms of [if finalErr != nil { goto RETRY }] reach
    the [RETRY] label, which is the last statement of the body. *)
Fixpoint Commit_loop (cfg : ClusterRaftConfig) (answers : nat → option error)
    (op : ConsensusOp) (n k : nat) (finalErr : option error) (tr : list event)
  : option error * list event :=
  match n with
  | O => (finalErr, tr)
  | S n' =>
      let finalErr' := answers k in
      let tr1 := tr ++ [EvCommitOp op] in
      let RETRY := tr1 ++ [EvSleep (CommitRetryDelay cfg)] in
      match finalErr' with
      | Some _ => Commit_loop cfg answers op n' (S k) finalErr' RETRY
      | None => Commit_loop cfg answers op n' (S k) finalErr' RETRY
      end
  end.

(** [for i := 0; i <= CommitRetries; i++]: no iteration for a negative
    bound, [CommitRetries + 1] iterations otherwise, and no exit at all when
    the bound is the largest int ([i <= max_int] holds for every int), in
    which case [Commit] does not return. *)
Definition Commit (cfg : ClusterRaftConfig) (answers : nat → option error)
    (op : ConsensusOp) : option (option error * list event) :=
  if (CommitRetries cfg =? max_int)%Z then None
  else Some (Commit_loop cfg answers op
               (Z.to_nat (CommitRetries cfg + 1)) 0 None []).

Definition is_commit_op (e : event) : bool :=
  match e with EvCommitOp _ => true | EvSleep _ => false end.

(** How many times a trace invokes [CommitOp]. *)
Definition commit_ops (tr : list event) : nat :=
  length (List.filter is_commit_op tr).

(** A Go channel of [struct{}]: how many values are buffered and whether it
    has been closed. *)
Record chan : Type := mkChan { buffered : nat; closed : bool }.

(** The fields of [Consensus] that [Shutdown] touches, with the raft
    wrapper, the host and the context each reduced to a count of the calls
    that [Shutdown] has made on it. *)
Record Consensus : Type := mkConsensus {
  config : ClusterRaftConfig;
  raft_shutdowns : nat;     (* calls of cc.raft.Shutdown so far *)
  host_closes : nat;        (* calls of cc.host.Close so far *)
  cancels : nat;            (* calls of cc.cancel so far *)
  rpcReady : chan
}.

(** [close(ch)]: closing a closed channel panics. *)
Definition close (ch : chan) : outcome chan :=
  if closed ch then Panic "close of closed channel"
  else Return {| buffered := buffered ch; closed := true |}.

(** [Shutdown]; [raft_err] is what [cc.raft.Shutdown(ctx)] returns, which
    is only logged.  The component is returned as the call leaves it. *)
Definition Shutdown (cc : Consensus) (raft_err : option error)
  : Consensus * outcome (option error) :=
  let cc1 := {| config := config cc; raft_shutdowns := S (raft_shutdowns cc);
                host_closes := host_closes cc;
                cancels := cancels cc; rpcReady := rpcReady cc |} in
  let cc2 := if HostShutdown (config cc1)
             then {| config := config cc1; raft_shutdowns := raft_shutdowns cc1;
                     host_closes := S (host_closes cc1);
                     cancels := cancels cc1;
                     rpcReady := rpcReady cc1 |}
             else cc1 in
  let cc3 := {| config := config cc2; raft_shutdowns := raft_shutdowns cc2;
                host_closes := host_closes cc2;
                cancels := S (cancels cc2); rpcReady := rpcReady cc2 |} in
  match close (rpcReady cc3) with
  | Panic msg => (cc3, Panic msg)
  | Return ch =>
      ({| config := config cc3; raft_shutdowns := raft_shutdowns cc3;
          host_closes := host_closes cc3;
          cancels := cancels cc3; rpcReady := ch |}, Return None)
  end.

(** The component as [NewConsensus] builds it: nothing shut down, and
    [rpcReady] a fresh channel of capacity one. *)
Definition NewConsensus (cfg : ClusterRaftConfig) : Consensus :=
  {| config := cfg; raft_shutdowns := 0; host_closes := 0;
     cancels := 0; rpcReady := {| buffered := 0; closed := false |} |}.

(** What "shut down" means for the fields above: raft stopped, the context
    cancelled, the rpc-ready channel closed, and the host closed when the
    configuration asks for it. *)
Definition is_shut_down (cc : Consensus) : Prop :=
  0 < raft_shutdowns cc ∧ 0 < cancels cc ∧ closed (rpcReady cc) = true
  ∧ (HostShutdown (config cc) = true → 0 < host_closes cc).

End consensus.

(** ** extern/sector-storage/stores/remote.go *)

Module stores.

#[local] Open Scope Z_scope.

(** [storiface.SectorFileType] is a Go [int] used as a bit mask. *)
Definition SectorFileType := Z.

(** Modelled from the spec: the file-type constants of package storiface,
    which is not among the sources; one bit per file type. *)
Definition FTNone : SectorFileType := 0.
Definition FTUnsealed : SectorFileType := 1.
Definition FTSealed : SectorFileType := 2.
Definition FTCache : SectorFileType := 4.
Definition PathTypes : list SectorFileType := [FTUnsealed; FTSealed; FTCache].

(** [abi.SectorID]: miner and sector number. *)
Definition SectorID : Type := N * N.

(** Modelled from the spec: [storiface.SectorPaths], a path per file type,
    the empty string standing for an absent one, with its accessors
    [PathByType] and [SetPathByType]. *)
Record SectorPaths : Type := mkPaths {
  Unsealed : string;
  Sealed : string;
  Cache : string
}.

Definition no_paths : SectorPaths :=
  {| Unsealed := ""; Sealed := ""; Cache := "" |}.

(** [remote.go] calls the two accessors on the members of [PathTypes] only;
    the last arm, for any other value, is never reached from it. *)
Definition PathByType (sps : SectorPaths) (ft : SectorFileType) : string :=
  if (ft =? FTUnsealed)%Z then Unsealed sps
  else if (ft =? FTSealed)%Z then Sealed sps
  else if (ft =? FTCache)%Z then Cache sps
  else "".

Definition SetPathByType (sps : SectorPaths) (ft : SectorFileType) (p : string)
  : SectorPaths :=
  if (ft =? FTUnsealed)%Z
  then {| Unsealed := p; Sealed := Sealed sps; Cache := Cache sps |}
  else if (ft =? FTSealed)%Z
  then {| Unsealed := Unsealed sps; Sealed := p; Cache := Cache sps |}
  else if (ft =? FTCache)%Z
  then {| Unsealed := Unsealed sps; Sealed := Sealed sps; Cache := p |}
  else sps.

Inductive PathType : Type := PathStorage | PathSealing | PathStoragePrefer.
Inductive AcquireMode : Type := AcquireMove | AcquireCopy.
Inductive OverheadTable : Type := FSOverheadSeal | FsOverheadFinalized.

#[global] Instance PathType_eq_dec : EqDecision PathType.
Proof. solve_decision. Defined.
#[global] Instance AcquireMode_eq_dec : EqDecision AcquireMode.
Proof. solve_decision. Defined.

(** One entry of what [StorageFindSector] returns. *)
Record SectorStorageInfo : Type := mkInfo {
  ID : string;
  URLs : list string;
  Weight : Z
}.

(** Modelled from the spec: [fsutil.FsStat], of which the spec names the
    fields Capacity and Available. *)
Record FsStat_t : Type := mkFsStat { Capacity : Z; Available : Z }.
Definition zero_FsStat : FsStat_t := {| Capacity := 0; Available := 0 |}.

Inductive http_answer : Type :=
| HttpFail (e : error)                       (* Do returned an error *)
| HttpResp (StatusCode : Z) (Body : string).

(** The answers of everything [Remote] calls outside the file during one
    call: the local store, the sector index, HTTP, the file system and the
    library functions on paths, URLs and JSON.  [sort_ties] is the only
    freedom that [sort.Slice] has, see [sort_Slice] below. *)
Record world : Type := mkWorld {
  local_AcquireSector :
    SectorID → SectorFileType → SectorFileType → PathType → AcquireMode →
    SectorPaths * SectorPaths * option error;
  local_Reserve : SectorID → SectorFileType → option error;
  local_Remove : SectorID → SectorFileType → bool → option error;
  local_FsStat : string → FsStat_t * option error;
  index_StorageFindSector :
    SectorID → SectorFileType → list SectorStorageInfo * option error;
  index_StorageDeclareSector :
    string → SectorID → SectorFileType → bool → option error;
  index_StorageInfo : string → list string * option error;
  sort_ties : list SectorStorageInfo → list SectorStorageInfo;
  filepath_Split : string → string * string;
  filepath_Join : string → string → string;
  os_MkdirAll : string → option error;
  os_RemoveAll : string → option error;
  fetch_answer : string → string → option error;   (* r.fetch(ctx, url, out) *)
  move_answer : string → string → option error;    (* move(from, to) *)
  http_NewRequest : string → string → option error;
  http_Do : string → string → http_answer;
  url_Parse : string → string * option error;      (* the Path of the URL *)
  url_String : string → string → string;           (* URL with a new Path *)
  gopath_Join3 : string → string → string → string;
  ioutil_ReadAll : string → string * option error;
  json_Decode : string → FsStat_t * option error
}.

Inductive event : Type :=
| EvClaim (s : SectorID)               (* r.fetching[s] = make(chan) *)
| EvRelease (s : SectorID)             (* close + delete of r.fetching[s] *)
| EvLocalAcquire (s : SectorID) (existing allocate : SectorFileType)
| EvReserve (s : SectorID) (ft : SectorFileType) (odt : OverheadTable)
| EvReleaseStorage
| EvFindSector (s : SectorID) (ft : SectorFileType)
| EvMkdirAll (dir : string)
| EvRemoveAll (p : string)
| EvFetch (url out : string)
| EvMove (from to : string)
| EvDeclare (storageID : string) (s : SectorID) (ft : SectorFileType)
    (primary : bool)
| EvLocalRemove (s : SectorID) (ft : SectorFileType) (force : bool)
| EvHttp (method url : string)         (* http.DefaultClient.Do *)
| EvWarn (msg : string).

(** The mutable part of [Remote]: the keys of the [fetching] map. *)
Record Remote : Type := mkRemote { fetching : gset SectorID }.

Definition FetchTempSubdir : string := "fetching".

Definition tempFetchDest (w : world) (spath : string) (create : bool)
  : list event * (string * option error) :=
  let '(st, b) := filepath_Split w spath in
  let tempdir := filepath_Join w st FetchTempSubdir in
  if create then
    match os_MkdirAll w tempdir with
    | Some err =>
        ([EvMkdirAll tempdir],
         ("", Some (Errorf "creating temp fetch dir" (Some err))))
    | None => ([EvMkdirAll tempdir], (filepath_Join w tempdir b, None))
    end
  else ([], (filepath_Join w tempdir b, None)).

(** [deleteFromRemote]: a DELETE request, any status but 200 is an error. *)
Definition deleteFromRemote (w : world) (url : string)
  : list event * option error :=
  match http_NewRequest w "DELETE" url with
  | Some err => ([], Some (Errorf "request" (Some err)))
  | None =>
      match http_Do w "DELETE" url with
      | HttpFail err => ([EvHttp "DELETE" url], Some (Errorf "do request" (Some err)))
      | HttpResp code _ =>
          if (code =? 200)%Z then ([EvHttp "DELETE" url], None)
          else ([EvHttp "DELETE" url], Some (New "non-200 code"))
      end
  end.

(** The loop of [acquireFromRemote] over the URLs of one location.  The
    third component is [Some] of what the function returns when the loop
    returns, and [None] when the URLs are used up and the next location is
    tried. *)
Fixpoint fetch_from_urls (w : world) (dest id : string) (urls : list string)
    (merr : option error)
  : list event * option error * option (string * option error) :=
  match urls with
  | [] => ([], merr, None)
  | url :: rest =>
      let '(ev1, (tempDest, terr)) := tempFetchDest w dest true in
      match terr with
      | Some err => (ev1, merr, Some ("", Some err))
      | None =>
          match os_RemoveAll w dest with
          | Some err =>
              (ev1 ++ [EvRemoveAll dest], merr,
               Some ("", Some (Errorf "removing dest" (Some err))))
          | None =>
              let ev2 := ev1 ++ [EvRemoveAll dest; EvFetch url tempDest] in
              match fetch_answer w url tempDest with
              | Some err =>
                  let merr' :=
                    Append merr
                      (Errorf ("fetch error " +:+ url +:+ " (storage " +:+ id
                               +:+ ") -> " +:+ tempDest) (Some err)) in
                  let '(ev, m, r) := fetch_from_urls w dest id rest merr' in
                  (ev2 ++ ev, m, r)
              | None =>
                  match move_answer w tempDest dest with
                  | Some err =>
                      (ev2 ++ [EvMove tempDest dest], merr,
                       Some ("", Some (Errorf ("fetch move error (storage "
                                               +:+ id +:+ ")") (Some err))))
                  | None =>
                      (ev2 ++ [EvMove tempDest dest]
                         ++ match merr with
                            | Some _ => [EvWarn "acquireFromRemote encountered errors when fetching sector from remote"]
                            | None => []
                            end,
                       merr, Some (url, None))
                  end
              end
          end
      end
  end.

(** The outer loop, over the storage locations. *)
Fixpoint fetch_from_infos (w : world) (dest : string)
    (si : list SectorStorageInfo) (merr : option error)
  : list event * option error * option (string * option error) :=
  match si with
  | [] => ([], merr, None)
  | info :: rest =>
      let '(ev, m, r) := fetch_from_urls w dest (ID info) (URLs info) merr in
      match r with
      | Some x => (ev, m, Some x)
      | None =>
          let '(ev', m', r') := fetch_from_infos w dest rest m in
          (ev ++ ev', m', r')
      end
  end.

(** The closure that the three calls of [sort.Slice] in the file pass:
    [func(i, j int) bool { return si[i].Weight < si[j].Weight }]. *)
Definition by_weight (a b : SectorStorageInfo) : bool := Weight a <? Weight b.

(** Insertion of [x] behind the entries that [less] puts before it. *)
Fixpoint insert_less (less : SectorStorageInfo → SectorStorageInfo → bool)
    (x : SectorStorageInfo) (l : list SectorStorageInfo)
  : list SectorStorageInfo :=
  match l with
  | [] => [x]
  | y :: l' => if less y x then y :: insert_less less x l' else x :: l
  end.

(** [sort.Slice(si, by_weight)]: the entries in ascending order of
    [Weight].  [sort.Slice] is not stable, so the order in which it leaves
    entries of equal weight is the library's choice; that choice is the
    arrangement [sort_ties w si] of the slice, on which a sort by insertion
    that keeps equal entries in place is run. *)
Definition sort_Slice (w : world) (si : list SectorStorageInfo)
  : list SectorStorageInfo :=
  foldr (insert_less by_weight) [] (sort_ties w si).

Definition acquireFromRemote (w : world) (s : SectorID)
    (fileType : SectorFileType) (dest : string)
  : list event * (string * option error) :=
  let '(si, err) := index_StorageFindSector w s fileType in
  match err with
  | Some e => ([EvFindSector s fileType], ("", Some e))
  | None =>
      if (length si =? 0)%nat then
        ([EvFindSector s fileType],
         ("", Some (Errorf "failed to acquire sector from remote"
                      (Some (Sentinel ErrSectorNotFound)))))
      else
        let si' := sort_Slice w si in
        let '(ev, merr, r) := fetch_from_infos w dest si' None in
        match r with
        | Some x => (EvFindSector s fileType :: ev, x)
        | None =>
            (EvFindSector s fileType :: ev,
             ("", Some (Errorf "failed to acquire sector from remote (tried)"
                          merr)))
        end
  end.

(** [existing|allocate != existing^allocate] *)
Definition both_find_and_allocate (existing allocate : SectorFileType) : bool :=
  negb (Z.lor existing allocate =? Z.lxor existing allocate).

(** The first loop of [AcquireSector]: the types asked for as existing
    that the local store did not find. *)
Definition toFetch_of (existing : SectorFileType) (paths : SectorPaths)
  : SectorFileType :=
  fold_left
    (λ toFetch fileType,
       if Z.land fileType existing =? 0 then toFetch
       else if String.eqb (PathByType paths fileType) ""
            then Z.lor toFetch fileType else toFetch)
    PathTypes 0.

(** The second loop of [AcquireSector], over the file types left. *)
Fixpoint fetch_types (w : world) (s : SectorID) (existing : SectorFileType)
    (op : AcquireMode) (apaths ids : SectorPaths) (fts : list SectorFileType)
    (paths stores : SectorPaths)
  : list event * (SectorPaths * SectorPaths * option error) :=
  match fts with
  | [] => ([], (paths, stores, None))
  | fileType :: rest =>
      if Z.land fileType existing =? 0
      then fetch_types w s existing op apaths ids rest paths stores
      else if negb (String.eqb (PathByType paths fileType) "")
      then fetch_types w s existing op apaths ids rest paths stores
      else
        let dest := PathByType apaths fileType in
        let storageID := PathByType ids fileType in
        let '(ev1, (url, err)) := acquireFromRemote w s fileType dest in
        match err with
        | Some e => (ev1, (no_paths, no_paths, Some e))
        | None =>
            let paths' := SetPathByType paths fileType dest in
            let stores' := SetPathByType stores fileType storageID in
            let primary := bool_decide (op = AcquireMove) in
            let ev2 := ev1 ++ [EvDeclare storageID s fileType primary] in
            let ev3 :=
              match index_StorageDeclareSector w storageID s fileType primary with
              | Some _ => ev2 ++ [EvWarn "declaring sector failed"]
              | None =>
                  if primary then
                    let '(evd, derr) := deleteFromRemote w url in
                    match derr with
                    | Some _ => ev2 ++ evd ++ [EvWarn "deleting sector failed"]
                    | None => ev2 ++ evd
                    end
                  else ev2
              end in
            let '(ev, res) :=
              fetch_types w s existing op apaths ids rest paths' stores' in
            (ev3 ++ ev, res)
        end
  end.

(** What a call of [AcquireSector] comes to: it returns, or it is parked in
    the [select] on the channel of the acquire in flight. *)
Inductive acquire_result : Type :=
| Returned (paths stores : SectorPaths) (err : option error)
| Waiting.

(** [AcquireSector], for one goroutine.  [ctx_err] is [ctx.Err()] at the
    [select]: [None] while the context is live.  The [Remote] given back is
    the one the call leaves behind. *)
Definition AcquireSector (w : world) (r : Remote) (ctx_err : option error)
    (s : SectorID) (existing allocate : SectorFileType) (pathType : PathType)
    (op : AcquireMode)
  : Remote * list event * acquire_result :=
  if both_find_and_allocate existing allocate then
    (r, [],
     Returned no_paths no_paths
       (Some (New "can't both find and allocate a sector")))
  else if bool_decide (s ∈ fetching r) then
    match ctx_err with
    | Some e => (r, [], Returned no_paths no_paths (Some e))
    | None => (r, [], Waiting)
    end
  else
    let claimed := {| fetching := {[s]} ∪ fetching r |} in
    let released := {| fetching := fetching claimed ∖ {[s]} |} in
    let ev0 := [EvClaim s; EvLocalAcquire s existing allocate] in
    let '(paths, stores, err) :=
      local_AcquireSector w s existing allocate pathType op in
    match err with
    | Some e =>
        (released, ev0 ++ [EvRelease s],
         Returned no_paths no_paths (Some (Errorf "local acquire error" (Some e))))
    | None =>
        let toFetch := toFetch_of existing paths in
        let ev1 := ev0 ++ [EvLocalAcquire s FTNone toFetch] in
        let '(apaths, ids, err) :=
          local_AcquireSector w s FTNone toFetch pathType op in
        match err with
        | Some e =>
            (released, ev1 ++ [EvRelease s],
             Returned no_paths no_paths
               (Some (Errorf "allocate local sector for fetching" (Some e))))
        | None =>
            let odt :=
              if bool_decide (pathType = PathStorage)
                 || bool_decide (pathType = PathStoragePrefer)
              then FsOverheadFinalized else FSOverheadSeal in
            let ev2 := ev1 ++ [EvReserve s toFetch odt] in
            match local_Reserve w s toFetch with
            | Some e =>
                (released, ev2 ++ [EvRelease s],
                 Returned no_paths no_paths
                   (Some (Errorf "reserving storage space" (Some e))))
            | None =>
                let '(ev3, (paths', stores', err)) :=
                  fetch_types w s existing op apaths ids PathTypes paths stores in
                (released, ev2 ++ ev3 ++ [EvReleaseStorage; EvRelease s],
                 Returned paths' stores' err)
            end
        end
    end.

Fixpoint Pos_ones (p : positive) : nat :=
  match p with
  | xH => 1
  | xO q => Pos_ones q
  | xI q => S (Pos_ones q)
  end.

(** [bits.OnesCount(uint(typ))]: the conversion to [uint] keeps the low 64
    bits of the two's complement representation. *)
Definition OnesCount (typ : Z) : nat :=
  match Z.modulo typ (2 ^ 64) with
  | Zpos p => Pos_ones p
  | _ => 0%nat
  end.

(** The inner loop of [Remove]: DELETE the URLs of one location in turn,
    go to the next one when a DELETE fails, stop at the first that works. *)
Fixpoint delete_urls (w : world) (urls : list string) : list event :=
  match urls with
  | [] => []
  | url :: rest =>
      let '(ev, err) := deleteFromRemote w url in
      match err with
      | Some _ => ev ++ [EvWarn ("remove " +:+ url)] ++ delete_urls w rest
      | None => ev
      end
  end.

Definition Remove (w : world) (sid : SectorID) (typ : SectorFileType)
    (force : bool) : list event * option error :=
  if negb (OnesCount typ =? 1)%nat then
    ([], Some (New "delete expects one file type"))
  else
    match local_Remove w sid typ force with
    | Some err =>
        ([EvLocalRemove sid typ force],
         Some (Errorf "remove from local" (Some err)))
    | None =>
        let '(si, err) := index_StorageFindSector w sid typ in
        match err with
        | Some e =>
            ([EvLocalRemove sid typ force; EvFindSector sid typ],
             Some (Errorf "finding existing sector failed" (Some e)))
        | None =>
            ([EvLocalRemove sid typ force; EvFindSector sid typ]
               ++ flat_map (λ info, delete_urls w (URLs info)) si,
             None)
        end
    end.

(** The tail of [FsStat]: decode the body of the response. *)
Definition decode_fsstat (w : world) (body : string) : FsStat_t * option error :=
  let '(out, err) := json_Decode w body in
  match err with
  | Some e => (zero_FsStat, Some (Errorf "decoding fsstat" (Some e)))
  | None => (out, None)
  end.

Definition FsStat (w : world) (id : string)
  : list event * (FsStat_t * option error) :=
  let '(st, err) := local_FsStat w id in
  match err with
  | None => ([], (st, None))
  | Some (Sentinel errPathNotFound) =>
      let '(urls, err) := index_StorageInfo w id in
      match err with
      | Some e =>
          ([], (zero_FsStat, Some (Errorf "getting remote storage info" (Some e))))
      | None =>
          match urls with
          | [] => ([], (zero_FsStat, Some (New "no known URLs for remote storage")))
          | url0 :: _ =>
              let '(path, err) := url_Parse w url0 in
              match err with
              | Some e =>
                  ([], (zero_FsStat, Some (Errorf "failed to parse url" (Some e))))
              | None =>
                  let rl := url_String w url0 (gopath_Join3 w path "stat" id) in
                  match http_NewRequest w "GET" rl with
                  | Some e => ([], (zero_FsStat, Some (Errorf "request" (Some e))))
                  | None =>
                      match http_Do w "GET" rl with
                      | HttpFail e =>
                          ([EvHttp "GET" rl],
                           (zero_FsStat, Some (Errorf "do request" (Some e))))
                      | HttpResp code body =>
                          ([EvHttp "GET" rl],
                           if code =? 200 then decode_fsstat w body
                           else if code =? 404
                           then (zero_FsStat, Some (Sentinel errPathNotFound))
                           else if code =? 500 then
                             let '(b, err) := ioutil_ReadAll w body in
                             match err with
                             | Some e =>
                                 (zero_FsStat,
                                  Some (Errorf "fsstat: got http 500, then failed to read the error" (Some e)))
                             | None =>
                                 (zero_FsStat,
                                  Some (New ("fsstat: got http 500: " +:+ b)))
                             end
                           else decode_fsstat w body)
                      end
                  end
              end
          end
      end
  | Some e => ([], (zero_FsStat, Some (Errorf "local stat" (Some e))))
  end.

End stores.

(** ** extern/sector-storage/worker_local.go *)

Module sectorstorage.

Import stores.

Inductive ReturnType : Type :=
| AddPiece | SealPreCommit1 | SealPreCommit2 | SealCommit1 | SealCommit2
| FinalizeSector | ReleaseUnsealed | MoveStorage | UnsealPiece | Fetch.

(** [storiface.CallID]: the sector and a fresh UUID. *)
Definition CallID : Type := SectorID * N.

(** *** The call tracker *)

(** Modelled from the spec: the record type and the methods of
    [workerCallTracker] (worker_calltracker.go is not among the sources).
    [onStart] persists the record with done=false, [onDone] sets done=true
    and stores the serialized result, [onReturned] deletes the record,
    [unfinished] lists the records that are left. *)
Record CallRecord : Type := mkCall {
  RetType : ReturnType;
  Done : bool;
  Result : option string
}.

Definition onStart (ci : CallID) (rt : ReturnType)
    (st : gmap CallID CallRecord) : gmap CallID CallRecord :=
  <[ci := {| RetType := rt; Done := false; Result := None |}]> st.

Definition onDone (ci : CallID) (ret : string)
    (st : gmap CallID CallRecord) : gmap CallID CallRecord :=
  alter (λ c, {| RetType := RetType c; Done := true; Result := Some ret |}) ci st.

Definition onReturned (ci : CallID)
    (st : gmap CallID CallRecord) : gmap CallID CallRecord :=
  delete ci st.

Definition unfinished (st : gmap CallID CallRecord)
  : list (CallID * CallRecord) :=
  map_to_list st.

(** *** asyncCall and doReturn *)

(** What a work function hands back as its [interface{}] result: nil, a
    value with its JSON encoding, or a value [json.Marshal] rejects. *)
Inductive work_result : Type :=
| ResNil
| ResValue (json : string)
| ResNoJSON (why : string).

Definition json_Marshal (res : work_result) : string * option error :=
  match res with
  | ResNil => ("null", None)
  | ResValue j => (j, None)
  | ResNoJSON why => ("", Some (New why))
  end.

(** The codes of [storiface.CallError] that the file names. *)
Inductive ErrorCode : Type :=
| ErrUnknown
| ErrTempWorkerRestart
| ErrOtherCode (n : nat).

(** The error of a work function: one that carries a [*storiface.CallError]
    in its chain (with its code), or any other error. *)
Inductive work_error : Type :=
| WithCallError (code : ErrorCode) (e : error)
| Plain (e : error).

Definition toCallError (err : option work_error) : option (ErrorCode * error) :=
  match err with
  | None => None
  | Some (WithCallError code e) => Some (code, e)
  | Some (Plain e) => Some (ErrUnknown, e)
  end.

(** One turn of the loop of [doReturn]: the return function answers nil, or
    it answers an error and the [select] then takes the 5 s timer, or it
    answers an error and the [select] then takes [ctx.Done()]. *)
Inductive attempt : Type :=
| Delivered
| FailedThenTimer
| FailedThenCtxDone.

Inductive event : Type :=
| EvReturn (rt : ReturnType) (ci : CallID) (res : work_result)
    (rerr : option (ErrorCode * error))           (* returnFunc[rt](...) *)
| EvLogError (msg : string).

(** [doReturn] along a script of turns.  [None]: the script ends while the
    loop is still retrying. *)
Fixpoint doReturn (script : list attempt) (rt : ReturnType) (ci : CallID)
    (res : work_result) (rerr : option (ErrorCode * error))
  : list event * option bool :=
  match script with
  | [] => ([], None)
  | Delivered :: _ => ([EvReturn rt ci res rerr], Some true)
  | FailedThenCtxDone :: _ =>
      ([EvReturn rt ci res rerr;
        EvLogError "return error, will retry in 5s";
        EvLogError "failed to return results"], Some false)
  | FailedThenTimer :: rest =>
      let '(ev, b) := doReturn rest rt ci res rerr in
      (EvReturn rt ci res rerr
         :: EvLogError "return error, will retry in 5s" :: ev, b)
  end.

(** The goroutine that [asyncCall] starts, once [work] has answered
    [(res, err)].  The tracker's own errors are only logged by the source
    and the modelled tracker has none. *)
Definition asyncCall_go (st : gmap CallID CallRecord) (ci : CallID)
    (rt : ReturnType) (res : work_result) (err : option work_error)
    (script : list attempt)
  : gmap CallID CallRecord * list event * option bool :=
  let '(st1, ev1) :=
    match err with
    | Some _ =>
        let '(rb, merr) := json_Marshal res in
        match merr with
        | Some _ => (st, [EvLogError "tracking call (marshaling results)"])
        | None => (onDone ci rb st, [])
        end
    | None => (st, [])
    end in
  let '(ev2, ok) := doReturn script rt ci res (toCallError err) in
  match ok with
  | Some true => (onReturned ci st1, ev1 ++ ev2, ok)
  | _ => (st1, ev1 ++ ev2, ok)
  end.

(** [asyncCall]: track the start of the call, then run the goroutine. *)
Definition asyncCall (st : gmap CallID CallRecord) (ci : CallID)
    (rt : ReturnType) (res : work_result) (err : option work_error)
    (script : list attempt)
  : gmap CallID CallRecord * list event * option bool :=
  asyncCall_go (onStart ci rt st) ci rt res err script.

(** *** Task counters and the per-stage mutexes *)

(** [sealtasks.TaskType] is a string type.  Package sealtasks is not among
    the sources; of its constants only their being distinct is used. *)
Definition TTAddPiece : string := "seal/v0/addpiece".
Definition TTPreCommit1 : string := "seal/v0/precommit/1".
Definition TTPreCommit2 : string := "seal/v0/precommit/2".
Definition TTCommit1 : string := "seal/v0/commit/1".
Definition TTCommit2 : string := "seal/v0/commit/2".
Definition TTFinalize : string := "seal/v0/finalize".

Definition parallelConfig : gmap string Z :=
  list_to_map [(TTAddPiece, 1%Z); (TTCommit1, 8%Z); (TTCommit2, 1%Z);
               (TTPreCommit1, 1%Z); (TTPreCommit2, 1%Z); (TTFinalize, 1%Z)].

Inductive stage : Type := P1 | P2 | C2.

#[global] Instance stage_eq_dec : EqDecision stage.
Proof. solve_decision. Defined.

Definition task_of (s : stage) : string :=
  match s with P1 => TTPreCommit1 | P2 => TTPreCommit2 | C2 => TTCommit2 end.

(** The fields of [LocalWorker] the three serialized stages share: the
    counters and, for each mutex, whether it is held. *)
Record LocalWorker : Type := mkWorker {
  runningTasks : gmap string Z;
  p1Mutex : bool;
  p2Mutex : bool;
  c2Mutex : bool
}.

Definition counterTask (tasktype : string) (c : Z) (l : LocalWorker)
  : LocalWorker :=
  let m := match runningTasks l !! tasktype with
           | None => <[tasktype := c]> (runningTasks l)
           | Some count => <[tasktype := (count + c)%Z]> (runningTasks l)
           end in
  {| runningTasks := m; p1Mutex := p1Mutex l; p2Mutex := p2Mutex l;
     c2Mutex := c2Mutex l |}.

Definition HasResourceForNewTask (tasktype : string) (l : LocalWorker) : bool :=
  match runningTasks l !! tasktype with
  | None => true
  | Some count =>
      (count <? default 0%Z (parallelConfig !! tasktype))%Z
  end.

Definition held (s : stage) (l : LocalWorker) : bool :=
  match s with P1 => p1Mutex l | P2 => p2Mutex l | C2 => c2Mutex l end.

Definition set_mutex (s : stage) (b : bool) (l : LocalWorker) : LocalWorker :=
  match s with
  | P1 => {| runningTasks := runningTasks l; p1Mutex := b;
             p2Mutex := p2Mutex l; c2Mutex := c2Mutex l |}
  | P2 => {| runningTasks := runningTasks l; p1Mutex := p1Mutex l;
             p2Mutex := b; c2Mutex := c2Mutex l |}
  | C2 => {| runningTasks := runningTasks l; p1Mutex := p1Mutex l;
             p2Mutex := p2Mutex l; c2Mutex := b |}
  end.

(** Where a goroutine stands in the work function of [SealPreCommit1],
    [SealPreCommit2] or [SealCommit2]. *)
Inductive pc : Type :=
| AtCleanup    (* SealPreCommit1 only: the two Remove calls and l.executor() *)
| AtLock       (* about to call Lock on the stage's mutex *)
| AtCount      (* holds the mutex; about to call counterTask(tt, 1) *)
| AtSeal       (* inside the call into the proof library *)
| AtUnlock     (* in the deferred function, about to call Unlock *)
| AtUncount    (* in the deferred function, about to call counterTask(tt, -1) *)
| Exited.

#[global] Instance pc_eq_dec : EqDecision pc.
Proof. solve_decision. Defined.

(** The work function of a stage starts at the cleanup for PreCommit1 and
    at the lock for the two others. *)
Definition entry (s : stage) : pc :=
  match s with P1 => AtCleanup | _ => AtLock end.

Record machine : Type := mkMachine {
  worker : LocalWorker;
  tasks : list (stage * pc)
}.

(** One step of goroutine [i].  [ok] tells whether the cleanup of
    PreCommit1 went through (its failure returns before the lock is taken
    and before the deferred function is registered); the proof-library call
    reaches the deferred function whether it returns a value, returns an
    error or panics.  [None]: the goroutine cannot move (it waits for the
    mutex, or it has exited, or there is no goroutine [i]). *)
Definition fire (i : nat) (ok : bool) (σ : machine) : option machine :=
  match tasks σ !! i with
  | None => None
  | Some (s, p) =>
      let move p' l := Some {| worker := l; tasks := <[i := (s, p')]> (tasks σ) |} in
      match p with
      | AtCleanup => move (if ok then AtLock else Exited) (worker σ)
      | AtLock => if held s (worker σ) then None
                  else move AtCount (set_mutex s true (worker σ))
      | AtCount => move AtSeal (counterTask (task_of s) 1 (worker σ))
      | AtSeal => move AtUnlock (worker σ)
      | AtUnlock => move AtUncount (set_mutex s false (worker σ))
      | AtUncount => move Exited (counterTask (task_of s) (-1) (worker σ))
      | Exited => None
      end
  end.

(** A schedule is the list of goroutines that move, in order. *)
Fixpoint run (sched : list (nat * bool)) (σ : machine) : option machine :=
  match sched with
  | [] => Some σ
  | (i, ok) :: rest =>
      match fire i ok σ with
      | None => None
      | Some σ' => run rest σ'
      end
  end.

(** A worker that has just been built ([runningTasks] empty, no mutex held)
    with one goroutine per submitted call, each at the entry of its work
    function. *)
Definition start (calls : list stage) : machine :=
  {| worker := {| runningTasks := ∅; p1Mutex := false; p2Mutex := false;
                  c2Mutex := false |};
     tasks := map (λ s, (s, entry s)) calls |}.

Definition running (tasktype : string) (σ : machine) : Z :=
  default 0%Z (runningTasks (worker σ) !! tasktype).

(** The goroutines of stage [s] that are inside the proof-library call. *)
Definition sealing (s : stage) (σ : machine) : nat :=
  length (List.filter (λ t, bool_decide (t = (s, AtSeal))) (tasks σ)).

End sectorstorage.

(** * Properties *)

(** ** The consensus component *)

Section consensus_properties.

Import consensus.

Lemma Commit_loop_trace cfg answers op n : ∀ k finalErr tr,
  snd (Commit_loop cfg answers op n k finalErr tr)
  = tr ++ concat (replicate n [EvCommitOp op; EvSleep (CommitRetryDelay cfg)]).
Proof.
  induction n as [|n IH]; intros k finalErr tr; simpl.
  - by rewrite app_nil_r.
  - destruct (answers k); rewrite IH, <- !app_assoc; reflexivity.
Qed.

Lemma Commit_loop_error cfg answers op n : ∀ k finalErr tr,
  fst (Commit_loop cfg answers op n k finalErr tr)
  = match n with O => finalErr | S m => answers (k + m) end.
Proof.
  induction n as [|n IH]; intros k finalErr tr; simpl; [done|].
  destruct (answers k) eqn:E; rewrite IH; destruct n; simpl;
    rewrite ?Nat.add_0_r, ?Nat.add_succ_r; auto.
Qed.

Lemma commit_ops_replicate op d n :
  commit_ops (concat (replicate n [EvCommitOp op; EvSleep d])) = n.
Proof.
  unfold commit_ops. induction n as [|n IH]; simpl; [done|]. by rewrite IH.
Qed.

(** Whatever the engine answers, a call of [Commit] with a retry bound
    [0 <= CommitRetries < max_int] invokes [CommitOp] [CommitRetries + 1]
    times and returns the answer to the last invocation. *)
Lemma Commit_runs_every_attempt cfg answers op :
  (0 ≤ CommitRetries cfg < max_int)%Z →
  ∃ tr, Commit cfg answers op
        = Some (answers (Z.to_nat (CommitRetries cfg)), tr)
        ∧ commit_ops tr = Z.to_nat (CommitRetries cfg + 1).
Proof.
  intros [H0 H1]. unfold Commit.
  destruct (Z.eqb_spec (CommitRetries cfg) max_int) as [E|_]; [lia|].
  set (n := Z.to_nat (CommitRetries cfg + 1)).
  exists (snd (Commit_loop cfg answers op n 0 None [])). split.
  - f_equal. rewrite (surjective_pairing (Commit_loop _ _ _ _ _ _ _)).
    f_equal. rewrite Commit_loop_error. subst n.
    replace (Z.to_nat (CommitRetries cfg + 1)) with (S (Z.to_nat (CommitRetries cfg))) by lia.
    reflexivity.
  - rewrite Commit_loop_trace. simpl. apply commit_ops_replicate.
Qed.

Definition op7 : ConsensusOp :=
  {| Nonce := 7%N; Uuid := 42%N; Addr := "f01234"; SignedMsg := "msg" |}.

(** C1. The claim says that [Commit] stops invoking [CommitOp] at the first
    success and then returns nil.  With [CommitRetries = 2] and an engine
    that accepts the first [CommitOp] and rejects the later ones, the loop
    has no exit after the success: [CommitOp] is invoked three times, each
    followed by a sleep, and [Commit] returns the error of the third. *)
Theorem Commit_goes_on_after_success :
  let cfg := {| CommitRetries := 2%Z; CommitRetryDelay := 1000%Z;
               HostShutdown := false |} in
  let answers := λ k : nat, match k with O => None | _ => Some (New "leadership lost") end in
  Commit cfg answers op7
  = Some (Some (New "leadership lost"),
          [EvCommitOp op7; EvSleep 1000%Z; EvCommitOp op7; EvSleep 1000%Z;
           EvCommitOp op7; EvSleep 1000%Z]).
Proof. reflexivity. Qed.

(** C6. [ApplyTo] returns the state with [NonceMap[op.Addr] = op.Nonce] and
    [MsgUuids[op.Uuid] = op.SignedMsg], every other entry of the two maps
    as before, a nil error, and it makes exactly one call to the message
    pool of the state, [Add(op.SignedMsg)]. *)
Theorem ApplyTo_updates_maps_and_adds_once (op : ConsensusOp) (s : RaftState) :
  ∃ s' : RaftState,
    ApplyTo op s = (s', None, [MpoolAdd (Mpool s) (SignedMsg op)])
    ∧ NonceMap s' !! Addr op = Some (Nonce op)
    ∧ MsgUuids s' !! Uuid op = Some (SignedMsg op)
    ∧ (∀ a, NonceMap s' !! a
            = if decide (Addr op = a) then Some (Nonce op) else NonceMap s !! a)
    ∧ (∀ u, MsgUuids s' !! u
            = if decide (Uuid op = u) then Some (SignedMsg op) else MsgUuids s !! u)
    ∧ Mpool s' = Mpool s.
Proof.
  eexists. split; [reflexivity|]. simpl.
  split; [apply lookup_insert_eq|].
  split; [apply lookup_insert_eq|].
  split; [intros a; apply lookup_insert|].
  split; [intros u; apply lookup_insert|reflexivity].
Qed.

(** C8. When [GetLogHead] reports [ErrNoState], [State] returns a state
    with an empty [NonceMap] and an empty [MsgUuids], and a nil error. *)
Theorem State_of_empty_log (st : consensus_State) :
  ∃ s : RaftState,
    State (st, Some (Sentinel ErrNoState)) = (Some s, None)
    ∧ NonceMap s = ∅ ∧ MsgUuids s = ∅.
Proof. exists (newRaftState None). repeat split. Qed.

(** The three calls that [Shutdown] makes before [close(cc.rpcReady)]:
    [cc.raft.Shutdown], [cc.host.Close] when [HostShutdown] is set, and
    [cc.cancel]. *)
Definition stop_steps (cc : Consensus) : Consensus :=
  {| config := config cc;
     raft_shutdowns := S (raft_shutdowns cc);
     host_closes := if HostShutdown (config cc) then S (host_closes cc)
                    else host_closes cc;
     cancels := S (cancels cc);
     rpcReady := rpcReady cc |}.

Definition with_ready_closed (cc : Consensus) : Consensus :=
  {| config := config cc; raft_shutdowns := raft_shutdowns cc;
     host_closes := host_closes cc; cancels := cancels cc;
     rpcReady := {| buffered := buffered (rpcReady cc); closed := true |} |}.

Lemma Shutdown_open cc e :
  closed (rpcReady cc) = false →
  Shutdown cc e = (with_ready_closed (stop_steps cc), Return None).
Proof.
  destruct cc as [cfg n h c [b cl]]; simpl; intros ->.
  unfold Shutdown, close, with_ready_closed, stop_steps; simpl.
  by destruct (HostShutdown cfg).
Qed.

Lemma Shutdown_closed cc e :
  closed (rpcReady cc) = true →
  Shutdown cc e = (stop_steps cc, Panic "close of closed channel").
Proof.
  destruct cc as [cfg n h c [b cl]]; simpl; intros ->.
  unfold Shutdown, close, stop_steps; simpl. by destruct (HostShutdown cfg).
Qed.

(** C4, as stated, fails: a second [Shutdown] of a component built by
    [NewConsensus] does not return; it panics in [close(cc.rpcReady)]. *)
Lemma Shutdown_twice_panics :
  let cfg := {| CommitRetries := 1%Z; CommitRetryDelay := 1000%Z;
               HostShutdown := true |} in
  let cc1 := fst (Shutdown (NewConsensus cfg) None) in
  snd (Shutdown (NewConsensus cfg) None) = Return None
  ∧ snd (Shutdown cc1 None) = Panic "close of closed channel".
Proof. split; reflexivity. Qed.

(** C4, amended.  On a component whose rpc-ready channel is open,
    [Shutdown] returns nil whatever the raft engine answers, having stopped
    raft once, closed the host once when [HostShutdown] is set (and not
    otherwise), cancelled the context once and closed the rpc-ready
    channel; the component is then shut down.  A second call makes the
    same three calls once more (raft is stopped a second time, the host
    closed a second time when [HostShutdown] is set, the context cancelled
    a second time), leaves the channel as it was, and only then panics on
    the closed channel; the component is still shut down after it. *)
Theorem Shutdown_once_then_panics (cc : Consensus) (e1 e2 : option error) :
  closed (rpcReady cc) = false →
  ∃ cc1 cc2,
    Shutdown cc e1 = (cc1, Return None)
    ∧ is_shut_down cc1
    ∧ Shutdown cc1 e2 = (cc2, Panic "close of closed channel")
    ∧ is_shut_down cc2
    ∧ cc1 = with_ready_closed (stop_steps cc)
    ∧ cc2 = stop_steps cc1
    ∧ raft_shutdowns cc1 = S (raft_shutdowns cc)
    ∧ raft_shutdowns cc2 = S (S (raft_shutdowns cc))
    ∧ cancels cc1 = S (cancels cc)
    ∧ cancels cc2 = S (S (cancels cc))
    ∧ host_closes cc1
      = (if HostShutdown (config cc) then S (host_closes cc)
         else host_closes cc)
    ∧ host_closes cc2
      = (if HostShutdown (config cc) then S (S (host_closes cc))
         else host_closes cc)
    ∧ rpcReady cc1 = {| buffered := buffered (rpcReady cc); closed := true |}
    ∧ rpcReady cc2 = rpcReady cc1
    ∧ config cc1 = config cc ∧ config cc2 = config cc.
Proof.
  intros Hopen.
  rewrite (Shutdown_open cc e1 Hopen).
  exists (with_ready_closed (stop_steps cc)),
         (stop_steps (with_ready_closed (stop_steps cc))).
  split; [reflexivity|].
  rewrite Shutdown_closed by reflexivity.
  unfold is_shut_down, stop_steps, with_ready_closed; simpl.
  destruct (HostShutdown (config cc));
    repeat split; simpl; intros; try lia; try discriminate.
Qed.

Lemma Shutdown_once_then_panics_witness :
  let cc := NewConsensus (mkConfig 3%Z 1000%Z true) in
  ∃ cc1 cc2,
    Shutdown cc None = (cc1, Return None)
    ∧ is_shut_down cc1
    ∧ Shutdown cc1 (Some (New "raft is already shutdown"))
      = (cc2, Panic "close of closed channel")
    ∧ is_shut_down cc2
    ∧ cc1 = with_ready_closed (stop_steps cc)
    ∧ cc2 = stop_steps cc1
    ∧ raft_shutdowns cc1 = S (raft_shutdowns cc)
    ∧ raft_shutdowns cc2 = S (S (raft_shutdowns cc))
    ∧ cancels cc1 = S (cancels cc)
    ∧ cancels cc2 = S (S (cancels cc))
    ∧ host_closes cc1
      = (if HostShutdown (config cc) then S (host_closes cc)
         else host_closes cc)
    ∧ host_closes cc2
      = (if HostShutdown (config cc) then S (S (host_closes cc))
         else host_closes cc)
    ∧ rpcReady cc1 = {| buffered := buffered (rpcReady cc); closed := true |}
    ∧ rpcReady cc2 = rpcReady cc1
    ∧ config cc1 = config cc ∧ config cc2 = config cc.
Proof.
  apply (Shutdown_once_then_panics (NewConsensus (mkConfig 3%Z 1000%Z true))).
  reflexivity.
Defined.

End consensus_properties.

(** ** The remote store *)

Section stores_properties.

Import stores.
#[local] Open Scope Z_scope.

(** *** Worlds used to run the functions on concrete inputs *)

(** A world in which the local store holds nothing and never fails, paths
    are split at a fixed directory, and the given answers are used for the
    local removal, the index, the fetches and HTTP. *)
Definition sample_world
    (local_rm : option error)
    (find : list SectorStorageInfo * option error)
    (fetch : string → option error)
    (do : string → string → http_answer) : world :=
  {| local_AcquireSector := λ _ _ _ _ _, (no_paths, no_paths, None);
     local_Reserve := λ _ _, None;
     local_Remove := λ _ _ _, local_rm;
     local_FsStat := λ _, (zero_FsStat, Some (Sentinel errPathNotFound));
     index_StorageFindSector := λ _ _, find;
     index_StorageDeclareSector := λ _ _ _ _, None;
     index_StorageInfo := λ _, (["http://peer-1:2345/remote"], None);
     sort_ties := λ l, l;
     filepath_Split := λ p, ("/data/sealed/", "s-t01000-1");
     filepath_Join := λ a b, a +:+ "/" +:+ b;
     os_MkdirAll := λ _, None;
     os_RemoveAll := λ _, None;
     fetch_answer := λ url _, fetch url;
     move_answer := λ _ _, None;
     http_NewRequest := λ _ _, None;
     http_Do := do;
     url_Parse := λ _, ("/remote", None);
     url_String := λ u p, "http://peer-1:2345" +:+ p;
     gopath_Join3 := λ a b c, a +:+ "/" +:+ b +:+ "/" +:+ c;
     ioutil_ReadAll := λ b, (b, None);
     json_Decode := λ b, (zero_FsStat, Some (New "invalid character '<' looking for beginning of value")) |}.

Definition sid1 : SectorID := (1000%N, 1%N).
Definition peer1 : SectorStorageInfo :=
  {| ID := "store-1"; URLs := ["http://peer-1:2345/remote/sealed/s-t01000-1"];
     Weight := 20 |}.
Definition peer2 : SectorStorageInfo :=
  {| ID := "store-2";
     URLs := ["http://peer-2:2345/remote/sealed/s-t01000-1";
              "http://mirror-2:2345/remote/sealed/s-t01000-1"];
     Weight := 10 |}.

Definition all_404 : string → string → http_answer :=
  λ _ _, HttpResp 404 "".

(** *** AcquireSector: the guard *)

Lemma lor_eq_lxor_iff (a b : Z) : Z.lor a b = Z.lxor a b ↔ Z.land a b = 0.
Proof.
  split; intros H.
  - apply Z.bits_inj'. intros n Hn.
    assert (Hb := f_equal (λ x, Z.testbit x n) H). simpl in Hb.
    rewrite Z.lor_spec, Z.lxor_spec in Hb.
    rewrite Z.land_spec, Z.bits_0.
    by destruct (Z.testbit a n), (Z.testbit b n).
  - apply Z.bits_inj'. intros n Hn.
    assert (Hb := f_equal (λ x, Z.testbit x n) H). simpl in Hb.
    rewrite Z.land_spec, Z.bits_0 in Hb.
    rewrite Z.lor_spec, Z.lxor_spec.
    by destruct (Z.testbit a n), (Z.testbit b n).
Qed.

Lemma both_find_and_allocate_iff (existing allocate : SectorFileType) :
  both_find_and_allocate existing allocate = true ↔ Z.land existing allocate ≠ 0.
Proof.
  unfold both_find_and_allocate. rewrite <- lor_eq_lxor_iff.
  destruct (Z.eqb_spec (Z.lor existing allocate) (Z.lxor existing allocate));
    simpl; split; intros; congruence.
Qed.

(** C7. When the sets of existing and of allocated file types overlap,
    [AcquireSector] returns the error "can't both find and allocate a
    sector" and nothing else happens: the [fetching] map is as before (no
    slot claimed) and no call leaves the function (no local acquire, no
    fetch). *)
Theorem AcquireSector_rejects_overlap (w : world) (r : Remote)
    (ctx_err : option error) (s : SectorID)
    (existing allocate : SectorFileType) (pathType : PathType)
    (op : AcquireMode) :
  Z.land existing allocate ≠ 0 →
  AcquireSector w r ctx_err s existing allocate pathType op
  = (r, [], Returned no_paths no_paths
              (Some (New "can't both find and allocate a sector"))).
Proof.
  intros H. apply both_find_and_allocate_iff in H.
  unfold AcquireSector. by rewrite H.
Qed.

Lemma AcquireSector_rejects_overlap_witness :
  AcquireSector (sample_world None ([peer1], None) (λ _, None) all_404)
    {| fetching := ∅ |} None sid1 (Z.lor FTSealed FTCache) FTSealed
    PathSealing AcquireMove
  = ({| fetching := ∅ |}, [],
     Returned no_paths no_paths
       (Some (New "can't both find and allocate a sector"))).
Proof.
  apply (AcquireSector_rejects_overlap
           (sample_world None ([peer1], None) (λ _, None) all_404)
           {| fetching := ∅ |} None sid1 (Z.lor FTSealed FTCache) FTSealed
           PathSealing AcquireMove).
  vm_compute. discriminate.
Defined.

(** *** acquireFromRemote: every fetch fails *)

(** The temporary directory and file that [tempFetchDest] computes. *)
Definition tempdir (w : world) (dest : string) : string :=
  filepath_Join w (fst (filepath_Split w dest)) FetchTempSubdir.

Definition tempdest (w : world) (dest : string) : string :=
  filepath_Join w (tempdir w dest) (snd (filepath_Split w dest)).













(** *** sort.Slice by weight *)


Lemma insert_less_perm x l : insert_less by_weight x l ≡ₚ x :: l.
Proof.
  induction l as [|y l IH]; simpl; [done|].
  destruct (by_weight y x); [|done].
  rewrite IH. apply perm_swap.
Qed.

Lemma sort_Slice_perm w si : sort_Slice w si ≡ₚ sort_ties w si.
Proof.
  unfold sort_Slice. induction (sort_ties w si) as [|x l IH]; simpl; [done|].
  by rewrite insert_less_perm, IH.
Qed.




(** *** Which sentinel the error of the failed fetches wraps *)







(** *** Remove *)

(** The URLs a trace sends a DELETE request to, in order. *)
Definition requested (tr : list event) : list string :=
  omap (λ e, match e with
             | EvHttp method url =>
                 if String.eqb method "DELETE" then Some url else None
             | _ => None
             end) tr.

(** Whether [deleteFromRemote] succeeds on a URL. *)
Definition delete_ok (w : world) (url : string) : bool :=
  match snd (deleteFromRemote w url) with None => true | Some _ => false end.

Lemma requested_app tr1 tr2 :
  requested (tr1 ++ tr2) = requested tr1 ++ requested tr2.
Proof. apply omap_app. Qed.

Lemma deleteFromRemote_cases w url :
  (∃ e, deleteFromRemote w url = ([], Some e))
  ∨ (∃ r, deleteFromRemote w url = ([EvHttp "DELETE" url], r)).
Proof.
  unfold deleteFromRemote.
  destruct (http_NewRequest w "DELETE" url); [left; eauto|right].
  destruct (http_Do w "DELETE" url) as [e|code body]; [eauto|].
  destruct (code =? 200); eauto.
Qed.

Lemma requested_warn msg tr : requested (EvWarn msg :: tr) = requested tr.
Proof. reflexivity. Qed.

Lemma requested_delete url tr :
  requested (EvHttp "DELETE" url :: tr) = url :: requested tr.
Proof. reflexivity. Qed.

(** Within one location the DELETE requests follow the order of the URLs,
    and at most one of them succeeds. *)
Lemma delete_urls_one_success w urls :
  sublist (requested (delete_urls w urls)) urls
  ∧ (length (List.filter (delete_ok w) (requested (delete_urls w urls))) ≤ 1)%nat.
Proof.
  induction urls as [|url rest [IHs IHl]].
  - split; [constructor|simpl; lia].
  - cbn [delete_urls].
    destruct (deleteFromRemote_cases w url) as [[e He]|[[e|] He]]; rewrite He.
    + rewrite app_nil_l. cbn [app]. rewrite requested_warn.
      split; [by apply sublist_cons|exact IHl].
    + cbn [app]. rewrite requested_delete, requested_warn.
      split; [by apply sublist_skip|].
      cbn [List.filter]. unfold delete_ok at 1. rewrite He. exact IHl.
    + rewrite requested_delete. split; [apply sublist_skip, sublist_nil_l|].
      cbn [List.filter requested omap list_omap].
      destruct (delete_ok w url); simpl; lia.
Qed.

(** C5, as stated, fails: a failure of the local removal is returned to the
    caller. *)
Lemma Remove_local_failure_is_returned :
  let w := sample_world (Some (New "permission denied")) ([peer1], None)
             (λ _, None) all_404 in
  OnesCount FTSealed = 1%nat
  ∧ Remove w sid1 FTSealed true
    = ([EvLocalRemove sid1 FTSealed true],
       Some (Errorf "remove from local" (Some (New "permission denied")))).
Proof. split; reflexivity. Qed.

(** What a DELETE that fails leaves in the trace: the request, unless it
    could not even be built, and the warning that [Remove] logs. *)
Definition failed_delete (w : world) (url : string) : list event :=
  match http_NewRequest w "DELETE" url with
  | None => [EvHttp "DELETE" url]
  | Some _ => []
  end ++ [EvWarn ("remove " +:+ url)].

Lemma delete_ok_iff w url :
  delete_ok w url = true
  ↔ http_NewRequest w "DELETE" url = None
    ∧ ∃ body, http_Do w "DELETE" url = HttpResp 200 body.
Proof.
  unfold delete_ok, deleteFromRemote.
  destruct (http_NewRequest w "DELETE" url) as [e|]; simpl.
  { split; [done|]. by intros [? _]. }
  destruct (http_Do w "DELETE" url) as [e|code body]; simpl.
  { split; [done|]. by intros [_ [? ?]]. }
  destruct (Z.eqb_spec code 200) as [->|Hne]; simpl.
  - split; [|done]. intros _. split; [done|]. by exists body.
  - split; [done|]. intros [_ [b' Hb]]. by injection Hb as -> _.
Qed.

Lemma deleteFromRemote_ok w url :
  delete_ok w url = true →
  deleteFromRemote w url = ([EvHttp "DELETE" url], None).
Proof.
  unfold delete_ok.
  destruct (deleteFromRemote_cases w url) as [[e He]|[[e|] He]]; rewrite He;
    simpl; done.
Qed.

Lemma deleteFromRemote_failed w url :
  delete_ok w url = false →
  ∃ ev e, deleteFromRemote w url = (ev, Some e)
          ∧ ev ++ [EvWarn ("remove " +:+ url)] = failed_delete w url.
Proof.
  unfold delete_ok, failed_delete, deleteFromRemote.
  destruct (http_NewRequest w "DELETE" url) as [e|]; simpl.
  { intros _. by eexists _, _. }
  destruct (http_Do w "DELETE" url) as [e|code body]; simpl.
  { intros _. by eexists _, _. }
  destruct (code =? 200); simpl; [done|].
  intros _. by eexists _, _.
Qed.

Lemma delete_urls_failed_step w url rest :
  delete_ok w url = false →
  delete_urls w (url :: rest) = failed_delete w url ++ delete_urls w rest.
Proof.
  intros H. destruct (deleteFromRemote_failed w url H) as (ev & e & He & <-).
  cbn [delete_urls]. rewrite He. by rewrite <- app_assoc.
Qed.

(** When no DELETE of a location succeeds, every URL is tried, in order. *)
Lemma delete_urls_all_fail w urls :
  (∀ u, u ∈ urls → delete_ok w u = false) →
  delete_urls w urls = flat_map (failed_delete w) urls.
Proof.
  induction urls as [|url rest IH]; intros Hall; [done|].
  rewrite delete_urls_failed_step by (apply Hall; left).
  cbn [flat_map]. f_equal. apply IH. intros u Hu. apply Hall. by right.
Qed.

(** The URLs before the first one whose DELETE succeeds are tried in
    order, that one is deleted, and the loop ends there. *)
Lemma delete_urls_first_success w pre u post :
  (∀ v, v ∈ pre → delete_ok w v = false) →
  delete_ok w u = true →
  delete_urls w (pre ++ u :: post)
  = flat_map (failed_delete w) pre ++ [EvHttp "DELETE" u].
Proof.
  intros Hpre Hu. induction pre as [|v pre IH].
  - cbn [app flat_map delete_urls]. by rewrite (deleteFromRemote_ok w u Hu).
  - change ((v :: pre) ++ u :: post) with (v :: (pre ++ u :: post)).
    rewrite delete_urls_failed_step by (apply Hpre; left).
    cbn [flat_map]. rewrite <- app_assoc. f_equal.
    apply IH. intros x Hx. apply Hpre. by right.
Qed.

(** C5, amended.  For a [typ] that names exactly one file type: a failure
    of the local removal, and a failure of the index lookup that follows
    it, are returned to the caller, wrapped, before any DELETE is sent.
    When both go through, [Remove] returns nil whatever the remote DELETEs
    answer, and the trace is the local removal, the lookup, and then, for
    each storage location in turn, the DELETEs of its URLs: when none of
    them succeeds, every URL is requested in order and each failure
    logged; when one succeeds, the URLs before the first success are
    requested in order and their failures logged, that URL is deleted, and
    no URL after it is touched.  Hence the DELETEs of a location follow
    the order of its URLs and at most one of them succeeds.  A DELETE
    succeeds exactly when the request can be built and is answered with
    status 200. *)
Theorem Remove_only_remote_failures_are_logged (w : world) (sid : SectorID)
    (typ : SectorFileType) (force : bool) :
  OnesCount typ = 1%nat →
  (∀ e, local_Remove w sid typ force = Some e →
        Remove w sid typ force
        = ([EvLocalRemove sid typ force],
           Some (Errorf "remove from local" (Some e))))
  ∧ (∀ si e, local_Remove w sid typ force = None →
        index_StorageFindSector w sid typ = (si, Some e) →
        Remove w sid typ force
        = ([EvLocalRemove sid typ force; EvFindSector sid typ],
           Some (Errorf "finding existing sector failed" (Some e))))
  ∧ (∀ si, local_Remove w sid typ force = None →
        index_StorageFindSector w sid typ = (si, None) →
        Remove w sid typ force
        = ([EvLocalRemove sid typ force; EvFindSector sid typ]
             ++ flat_map (λ info, delete_urls w (URLs info)) si, None)
        ∧ ∀ info, info ∈ si →
            sublist (requested (delete_urls w (URLs info))) (URLs info)
            ∧ (length (List.filter (delete_ok w)
                         (requested (delete_urls w (URLs info)))) ≤ 1)%nat
            ∧ ((∀ u, u ∈ URLs info → delete_ok w u = false) →
               delete_urls w (URLs info)
               = flat_map (failed_delete w) (URLs info))
            ∧ (∀ pre u post,
                 URLs info = pre ++ u :: post →
                 (∀ v, v ∈ pre → delete_ok w v = false) →
                 delete_ok w u = true →
                 delete_urls w (URLs info)
                 = flat_map (failed_delete w) pre ++ [EvHttp "DELETE" u]))
  ∧ (∀ u, delete_ok w u = true
          ↔ http_NewRequest w "DELETE" u = None
            ∧ ∃ body, http_Do w "DELETE" u = HttpResp 200 body).
Proof.
  intros Hone. unfold Remove. rewrite Hone. simpl.
  split; [|split; [|split]].
  - by intros e ->.
  - by intros si e -> ->.
  - intros si -> ->. split; [reflexivity|].
    intros info _.
    destruct (delete_urls_one_success w (URLs info)) as [Hs Hl].
    split; [exact Hs|]. split; [exact Hl|]. split.
    + apply delete_urls_all_fail.
    + intros pre u post ->. apply delete_urls_first_success.
  - apply delete_ok_iff.
Qed.

Definition delete_answers : string → string → http_answer :=
  λ _ url, if String.eqb url "http://mirror-2:2345/remote/sealed/s-t01000-1"
           then HttpResp 200 "" else HttpResp 500 "".

Lemma Remove_only_remote_failures_are_logged_witness :
  let w := sample_world None ([peer1; peer2], None) (λ _, None) delete_answers in
  Remove w sid1 FTSealed true
  = ([EvLocalRemove sid1 FTSealed true; EvFindSector sid1 FTSealed]
       ++ flat_map (λ info, delete_urls w (URLs info)) [peer1; peer2], None)
  ∧ ∀ info, info ∈ [peer1; peer2] →
      sublist (requested (delete_urls w (URLs info))) (URLs info)
      ∧ (length (List.filter (delete_ok w)
                   (requested (delete_urls w (URLs info)))) ≤ 1)%nat
      ∧ ((∀ u, u ∈ URLs info → delete_ok w u = false) →
         delete_urls w (URLs info)
         = flat_map (failed_delete w) (URLs info))
      ∧ (∀ pre u post,
           URLs info = pre ++ u :: post →
           (∀ v, v ∈ pre → delete_ok w v = false) →
           delete_ok w u = true →
           delete_urls w (URLs info)
           = flat_map (failed_delete w) pre ++ [EvHttp "DELETE" u]).
Proof.
  apply (Remove_only_remote_failures_are_logged
           (sample_world None ([peer1; peer2], None) (λ _, None) delete_answers)
           sid1 FTSealed true); reflexivity.
Defined.

(** The run of the sample: the one URL of the first location fails and is
    logged; at the second location the first URL fails, the mirror is
    deleted. *)
Lemma Remove_sample_trace :
  let w := sample_world None ([peer1; peer2], None) (λ _, None) delete_answers in
  Remove w sid1 FTSealed true
  = ([EvLocalRemove sid1 FTSealed true; EvFindSector sid1 FTSealed;
      EvHttp "DELETE" "http://peer-1:2345/remote/sealed/s-t01000-1";
      EvWarn "remove http://peer-1:2345/remote/sealed/s-t01000-1";
      EvHttp "DELETE" "http://peer-2:2345/remote/sealed/s-t01000-1";
      EvWarn "remove http://peer-2:2345/remote/sealed/s-t01000-1";
      EvHttp "DELETE" "http://mirror-2:2345/remote/sealed/s-t01000-1"], None).
Proof. reflexivity. Qed.

(** *** FsStat *)

(** C10. When [FsStat] falls back to the remote stat endpoint and the
    response carries a status other than 200, 404 and 500, no status error
    is reported: the body is handed to the JSON decoder, and the caller
    gets the decoded value, or the decoder's error wrapped as "decoding
    fsstat". *)
Theorem FsStat_other_status_is_decoded (w : world) (id : string)
    (st : FsStat_t) (url0 : string) (urls : list string) (path : string)
    (code : Z) (body : string) :
  local_FsStat w id = (st, Some (Sentinel errPathNotFound)) →
  index_StorageInfo w id = (url0 :: urls, None) →
  url_Parse w url0 = (path, None) →
  http_NewRequest w "GET" (url_String w url0 (gopath_Join3 w path "stat" id)) = None →
  http_Do w "GET" (url_String w url0 (gopath_Join3 w path "stat" id))
  = HttpResp code body →
  code ≠ 200 → code ≠ 404 → code ≠ 500 →
  snd (FsStat w id)
  = match json_Decode w body with
    | (out, None) => (out, None)
    | (_, Some e) => (zero_FsStat, Some (Errorf "decoding fsstat" (Some e)))
    end.
Proof.
  intros Hl Hi Hp Hr Hd H200 H404 H500.
  unfold FsStat. rewrite Hl, Hi, Hp, Hr, Hd. simpl.
  destruct (Z.eqb_spec code 200); [done|].
  destruct (Z.eqb_spec code 404); [done|].
  destruct (Z.eqb_spec code 500); [done|].
  unfold decode_fsstat. by destruct (json_Decode w body) as [out [e|]].
Qed.

Definition forbidden : string → string → http_answer :=
  λ _ _, HttpResp 403 "<html>403 Forbidden</html>".

Lemma FsStat_other_status_is_decoded_witness :
  snd (FsStat (sample_world None ([peer1], None) (λ _, None) forbidden) "store-1")
  = (zero_FsStat,
     Some (Errorf "decoding fsstat"
             (Some (New "invalid character '<' looking for beginning of value")))).
Proof.
  apply (FsStat_other_status_is_decoded
           (sample_world None ([peer1], None) (λ _, None) forbidden) "store-1"
           zero_FsStat "http://peer-1:2345/remote" [] "/remote" 403
           "<html>403 Forbidden</html>"); try reflexivity; discriminate.
Defined.

End stores_properties.

(** ** The local worker *)

Section sectorstorage_properties.

Import stores sectorstorage.

Definition call1 : CallID := ((1000%N, 1%N), 77%N).

Lemma doReturn_false_keeps_tracker st ci rt res err script :
  snd (doReturn script rt ci res (toCallError err)) = Some false →
  fst (fst (asyncCall_go st ci rt res err script))
  = match err with
    | Some _ =>
        match json_Marshal res with
        | (rb, None) => onDone ci rb st
        | (_, Some _) => st
        end
    | None => st
    end.
Proof.
  unfold asyncCall_go. intros H.
  destruct (doReturn script rt ci res (toCallError err)) as [ev ok].
  simpl in H. subst ok.
  destruct err as [e|]; [|reflexivity].
  by destruct (json_Marshal res) as [rb [m|]].
Qed.

(** A call whose work function returned an error, with a result that can
    be serialized, and whose delivery is cut short by the shutdown of the
    worker stays in the tracker, marked done, with the serialized result. *)
Lemma asyncCall_failed_work_is_marked_done st ci rt res e rb script :
  json_Marshal res = (rb, None) →
  snd (doReturn script rt ci res (toCallError (Some e))) = Some false →
  fst (fst (asyncCall st ci rt res (Some e) script)) !! ci
  = Some {| RetType := rt; Done := true; Result := Some rb |}.
Proof.
  intros Hm Hr. unfold asyncCall.
  rewrite (doReturn_false_keeps_tracker _ _ _ _ _ _ Hr), Hm.
  unfold onDone, onStart. rewrite lookup_alter_eq, lookup_insert_eq. reflexivity.
Qed.

(** A call whose work function returned without error and whose delivery
    is cut short by the shutdown of the worker stays in the tracker as it
    was recorded at the start: not done, no result. *)
Lemma asyncCall_finished_work_is_not_marked_done st ci rt res script :
  snd (doReturn script rt ci res None) = Some false →
  fst (fst (asyncCall st ci rt res None script)) !! ci
  = Some {| RetType := rt; Done := false; Result := None |}.
Proof.
  intros Hr. unfold asyncCall.
  rewrite (doReturn_false_keeps_tracker _ _ _ _ None _ Hr).
  apply lookup_insert_eq.
Qed.

(** C2.  The claim says that a call whose work has completed, with a result
    or with an error, is held in the tracker as done, with the serialized
    result, when [doReturn] gives up on a cancelled context.  Here
    SealPreCommit2 completes with any result and no error, the manager
    rejects the first delivery, and the worker shuts down during the second:
    [onDone] was never called, and the record is still the one [onStart]
    wrote, with done=false and no result. *)
Theorem asyncCall_result_not_tracked_as_done (res : work_result) :
  ∃ st ev,
    asyncCall ∅ call1 SealPreCommit2 res None [FailedThenTimer; FailedThenCtxDone]
    = (st, ev, Some false)
    ∧ st !! call1
      = Some {| RetType := SealPreCommit2; Done := false; Result := None |}.
Proof.
  eexists _, _. split; [reflexivity|]. apply lookup_insert_eq.
Qed.

(** *** The stage mutexes *)

(** A goroutine is in the critical section of stage [s] from the moment its
    [Lock] returns until its [Unlock]. *)
Definition in_critical (s : stage) (t : stage * pc) : bool :=
  bool_decide (fst t = s)
  && match snd t with AtCount | AtSeal | AtUnlock => true | _ => false end.

Definition holders (s : stage) (σ : machine) : nat :=
  length (List.filter (in_critical s) (tasks σ)).

Definition mutex_inv (σ : machine) : Prop :=
  ∀ s, holders s σ = if held s (worker σ) then 1 else 0.

Lemma filter_length_insert {A} (f : A → bool) (l : list A) i x y :
  l !! i = Some x →
  length (List.filter f (<[i := y]> l)) + (if f x then 1 else 0)
  = length (List.filter f l) + (if f y then 1 else 0).
Proof.
  revert i. induction l as [|a l IH]; intros [|i] H; simpl in *; try done.
  - injection H as ->. destruct (f x), (f y); simpl; lia.
  - specialize (IH i H). destruct (f a); simpl; lia.
Qed.

Lemma held_set_mutex s' s b l :
  held s' (set_mutex s b l) = if decide (s' = s) then b else held s' l.
Proof. by destruct s', s. Qed.

Lemma held_counterTask s t c l : held s (counterTask t c l) = held s l.
Proof. by destruct s. Qed.

Lemma in_critical_other s' s p : s' ≠ s → in_critical s' (s, p) = false.
Proof.
  intros H. unfold in_critical; simpl.
  rewrite bool_decide_eq_false_2; [done|]. intros ->. by apply H.
Qed.

Lemma in_critical_same s p :
  in_critical s (s, p)
  = match p with AtCount | AtSeal | AtUnlock => true | _ => false end.
Proof. unfold in_critical; simpl. by rewrite bool_decide_eq_true_2. Qed.

Ltac count_step Hi s' y :=
  pose proof (filter_length_insert (in_critical s') _ _ _ y Hi) as Hc;
  rewrite ?held_set_mutex, ?held_counterTask.

Lemma fire_mutex_inv i ok σ σ' :
  mutex_inv σ → fire i ok σ = Some σ' → mutex_inv σ'.
Proof.
  intros Hinv Hfire s'. pose proof (Hinv s') as Hs'. unfold fire in Hfire.
  destruct (tasks σ !! i) as [[s p]|] eqn:Hi; [|done].
  unfold holders in *.
  destruct (decide (s' = s)) as [->|Hne].
  - destruct p; try done;
      try (destruct (held s (worker σ)) eqn:Hheld; [done|]);
      injection Hfire as <-; simpl;
      match goal with
      | |- context [<[i := ?y]> _] => count_step Hi s y
      end;
      rewrite ?in_critical_same in Hc; rewrite ?decide_True by done;
      try (destruct ok; simpl in Hc);
      destruct (held s (worker σ)); try lia; try done.
  - destruct p; try done;
      try (destruct (held s (worker σ)) eqn:Hheld; [done|]);
      injection Hfire as <-; simpl;
      match goal with
      | |- context [<[i := ?y]> _] => count_step Hi s' y
      end;
      rewrite ?in_critical_other in Hc by done;
      rewrite ?decide_False by done;
      destruct (held s' (worker σ)); lia.
Qed.

Lemma run_mutex_inv sched : ∀ σ σ',
  mutex_inv σ → run sched σ = Some σ' → mutex_inv σ'.
Proof.
  induction sched as [|[i ok] rest IH]; intros σ σ' Hinv Hrun; simpl in Hrun.
  - by injection Hrun as <-.
  - destruct (fire i ok σ) as [σ1|] eqn:Hf; [|done].
    eapply IH; [|exact Hrun]. by eapply fire_mutex_inv.
Qed.

Lemma start_mutex_inv calls : mutex_inv (start calls).
Proof.
  intros s. unfold holders, start; simpl.
  replace (held s _) with false by by destruct s.
  induction calls as [|c calls IH]; simpl; [done|].
  unfold in_critical at 1. simpl.
  destruct c; simpl; rewrite andb_false_r; exact IH.
Qed.

Lemma sealing_le_holders s σ : sealing s σ ≤ holders s σ.
Proof.
  unfold sealing, holders. induction (tasks σ) as [|[s0 p] l IH]; simpl; [done|].
  unfold in_critical at 1. simpl.
  case_bool_decide as Heq; simpl.
  - injection Heq as -> ->. rewrite bool_decide_eq_true_2 by done. simpl. lia.
  - destruct (bool_decide (s0 = s) && _); simpl; lia.
Qed.

(** X1. On every schedule, from a fresh worker and any number of submitted
    calls, at most one goroutine per stage is inside the proof-library
    call. *)
Lemma at_most_one_sealing calls sched σ s :
  run sched (start calls) = Some σ → sealing s σ ≤ 1.
Proof.
  intros Hrun.
  pose proof (run_mutex_inv sched _ _ (start_mutex_inv calls) Hrun s) as H.
  pose proof (sealing_le_holders s σ). destruct (held s (worker σ)); lia.
Qed.

(** *** The task counters *)

(** A goroutine is counted in [runningTasks] from its [counterTask(tt, 1)]
    until its [counterTask(tt, -1)]. *)
Definition is_counted (s : stage) (t : stage * pc) : bool :=
  bool_decide (fst t = s)
  && match snd t with AtSeal | AtUnlock | AtUncount => true | _ => false end.

Definition counted (s : stage) (σ : machine) : nat :=
  length (List.filter (is_counted s) (tasks σ)).

Definition counter_inv (σ : machine) : Prop :=
  ∀ s, running (task_of s) σ = Z.of_nat (counted s σ).

Lemma task_of_inj s s' : task_of s = task_of s' → s = s'.
Proof. by destruct s, s'. Qed.

Lemma runningTasks_counterTask t' t c l :
  default 0%Z (runningTasks (counterTask t c l) !! t')
  = if decide (t' = t) then (default 0 (runningTasks l !! t) + c)%Z
    else default 0%Z (runningTasks l !! t').
Proof.
  unfold counterTask; simpl. destruct (decide (t' = t)) as [->|Hne].
  - destruct (runningTasks l !! t) eqn:E; rewrite lookup_insert_eq; simpl; lia.
  - destruct (runningTasks l !! t); by rewrite lookup_insert_ne.
Qed.

Lemma runningTasks_set_mutex s b l :
  runningTasks (set_mutex s b l) = runningTasks l.
Proof. by destruct s. Qed.

Lemma is_counted_other s' s p : s' ≠ s → is_counted s' (s, p) = false.
Proof.
  intros H. unfold is_counted; simpl.
  rewrite bool_decide_eq_false_2; [done|]. intros ->. by apply H.
Qed.

Lemma is_counted_same s p :
  is_counted s (s, p)
  = match p with AtSeal | AtUnlock | AtUncount => true | _ => false end.
Proof. unfold is_counted; simpl. by rewrite bool_decide_eq_true_2. Qed.

Lemma fire_counter_inv i ok σ σ' :
  counter_inv σ → fire i ok σ = Some σ' → counter_inv σ'.
Proof.
  intros Hinv Hfire s'. pose proof (Hinv s') as Hs'. unfold fire in Hfire.
  destruct (tasks σ !! i) as [[s p]|] eqn:Hi; [|done].
  unfold counted, running in *.
  destruct (decide (s' = s)) as [->|Hne].
  - destruct p; try done;
      try (destruct (held s (worker σ)) eqn:Hheld; [done|]);
      injection Hfire as <-; cbn [worker tasks];
      match goal with
      | |- context [<[i := ?y]> _] =>
          pose proof (filter_length_insert (is_counted s) _ _ _ y Hi) as Hc
      end;
      rewrite ?runningTasks_counterTask, ?runningTasks_set_mutex;
      rewrite ?is_counted_same in Hc; rewrite ?decide_True by done;
      try (destruct ok; simpl in Hc); lia.
  - assert (task_of s' ≠ task_of s) by (intros E; by apply Hne, task_of_inj).
    destruct p; try done;
      try (destruct (held s (worker σ)) eqn:Hheld; [done|]);
      injection Hfire as <-; cbn [worker tasks];
      match goal with
      | |- context [<[i := ?y]> _] =>
          pose proof (filter_length_insert (is_counted s') _ _ _ y Hi) as Hc
      end;
      rewrite ?runningTasks_counterTask, ?runningTasks_set_mutex;
      rewrite ?is_counted_other in Hc by done;
      rewrite ?decide_False by done; lia.
Qed.

Lemma run_counter_inv sched : ∀ σ σ',
  counter_inv σ → run sched σ = Some σ' → counter_inv σ'.
Proof.
  induction sched as [|[i ok] rest IH]; intros σ σ' Hinv Hrun; simpl in Hrun.
  - by injection Hrun as <-.
  - destruct (fire i ok σ) as [σ1|] eqn:Hf; [|done].
    eapply IH; [|exact Hrun]. by eapply fire_counter_inv.
Qed.

Lemma start_counter_inv calls : counter_inv (start calls).
Proof.
  intros s. unfold counted, running, start; simpl.
  rewrite lookup_empty; simpl.
  induction calls as [|c calls IH]; simpl; [done|].
  unfold is_counted at 1. simpl.
  destruct c; simpl; rewrite andb_false_r; exact IH.
Qed.

Lemma exited_not_counted s (l : list (stage * pc)) :
  Forall (λ t, snd t = Exited) l →
  List.filter (is_counted s) l = [] ∧ List.filter (in_critical s) l = [].
Proof.
  induction l as [|[s0 p] l IH]; intros Hall; [done|].
  apply Forall_cons in Hall as [Hp Hl]. simpl in Hp. subst p.
  destruct (IH Hl) as [IH1 IH2].
  simpl. unfold is_counted at 1, in_critical at 1. simpl.
  by rewrite andb_false_r.
Qed.

(** X2. On every schedule the counter of a serialized stage is the number of
    goroutines between their increment and their decrement; once all
    goroutines have left their work function, by whichever exit, the
    counters are back to zero and no mutex is held. *)
Lemma all_exited_counters_zero calls sched σ s :
  run sched (start calls) = Some σ →
  Forall (λ t, snd t = Exited) (tasks σ) →
  running (task_of s) σ = 0%Z ∧ held s (worker σ) = false.
Proof.
  intros Hrun Hall.
  pose proof (run_counter_inv sched _ _ (start_counter_inv calls) Hrun s) as Hc.
  pose proof (run_mutex_inv sched _ _ (start_mutex_inv calls) Hrun s) as Hm.
  unfold counted in Hc. unfold holders in Hm.
  destruct (exited_not_counted s _ Hall) as [E1 E2].
  rewrite E1 in Hc. rewrite E2 in Hm. simpl in *.
  split; [lia|]. by destruct (held s (worker σ)).
Qed.

(** C9.  The claim says that [runningTasks] never exceeds 1 for
    PreCommit1.  Two PreCommit1 calls on a fresh worker: the first runs up
    to and including the [Unlock] of its deferred function, the second then
    takes the mutex and counts itself in before the first has counted
    itself out.  [runningTasks[TTPreCommit1]] is 2, with one goroutine in
    the proof-library call. *)
Theorem runningTasks_reaches_two :
  ∃ σ,
    run [(0, true); (0, true); (0, true); (0, true); (0, true);
         (1, true); (1, true); (1, true)] (start [P1; P1]) = Some σ
    ∧ tasks σ = [(P1, AtUncount); (P1, AtSeal)]
    ∧ running TTPreCommit1 σ = 2%Z
    ∧ HasResourceForNewTask TTPreCommit1 (worker σ) = false.
Proof.
  eexists. split; [reflexivity|]. repeat split; vm_compute; reflexivity.
Qed.

End sectorstorage_properties.

(** * Further properties of the three files *)

(** ** The operation log *)

Section oplog_properties.

Import consensus.

(** [ApplyTo] called on each operation of a log, in order, on the state the
    previous call returned; the calls made on the message pool are
    collected. *)
Fixpoint apply_log (ops : list ConsensusOp) (s : RaftState)
  : RaftState * list mpool_call :=
  match ops with
  | [] => (s, [])
  | op :: rest =>
      let '(s1, _, calls) := ApplyTo op s in
      let '(s2, calls') := apply_log rest s1 in
      (s2, calls ++ calls')
  end.

(** The nonce that the last operation of [ops] on address [a] carries, and
    [init] when no operation of [ops] is on [a]. *)
Fixpoint last_nonce (a : Address) (ops : list ConsensusOp) (init : option N)
  : option N :=
  match ops with
  | [] => init
  | op :: rest =>
      last_nonce a rest (if decide (Addr op = a) then Some (Nonce op) else init)
  end.

Fixpoint last_msg (u : UUID) (ops : list ConsensusOp)
    (init : option SignedMessage) : option SignedMessage :=
  match ops with
  | [] => init
  | op :: rest =>
      last_msg u rest (if decide (Uuid op = u) then Some (SignedMsg op) else init)
  end.

Lemma apply_log_cons op rest s :
  fst (apply_log (op :: rest) s) = fst (apply_log rest (fst (fst (ApplyTo op s)))).
Proof. simpl. by destruct (apply_log rest _). Qed.

(** X3. After a log has been applied, the nonce recorded for an address is
    the nonce of the last operation of the log on that address (the entry
    the state had before, when the log has none), and likewise the message
    recorded for a UUID is that of the last operation carrying the UUID. *)
Theorem apply_log_last_writer_wins (ops : list ConsensusOp) (s : RaftState)
    (a : Address) (u : UUID) :
  NonceMap (fst (apply_log ops s)) !! a = last_nonce a ops (NonceMap s !! a)
  ∧ MsgUuids (fst (apply_log ops s)) !! u = last_msg u ops (MsgUuids s !! u).
Proof.
  revert s. induction ops as [|op rest IH]; intros s; [done|].
  simpl. specialize (IH (fst (fst (ApplyTo op s)))).
  destruct (apply_log rest _) as [s2 calls'] eqn:E. simpl in *.
  destruct IH as [IH1 IH2]. rewrite IH1, IH2, !lookup_insert. done.
Qed.

(** X4. Applying a log calls [Add] on the message pool of the state once
    per operation, in log order, with the signed message of the operation,
    and the pool the state refers to stays the same. *)
Theorem apply_log_adds_each_message_once (ops : list ConsensusOp)
    (s : RaftState) :
  snd (apply_log ops s) = map (λ op, MpoolAdd (Mpool s) (SignedMsg op)) ops
  ∧ Mpool (fst (apply_log ops s)) = Mpool s.
Proof.
  revert s. induction ops as [|op rest IH]; intros s; [done|].
  simpl. specialize (IH (fst (fst (ApplyTo op s)))).
  destruct (apply_log rest _) as [s2 calls'] eqn:E. simpl in *.
  destruct IH as [-> ->]. done.
Qed.

(** Two replicas that start from the same two maps and apply the same
    log end with the same two maps, whatever message pool each of them is
    bound to. *)
Theorem apply_log_replicas_agree (ops : list ConsensusOp) (s1 s2 : RaftState) :
  NonceMap s1 = NonceMap s2 →
  MsgUuids s1 = MsgUuids s2 →
  NonceMap (fst (apply_log ops s1)) = NonceMap (fst (apply_log ops s2))
  ∧ MsgUuids (fst (apply_log ops s1)) = MsgUuids (fst (apply_log ops s2)).
Proof.
  revert s1 s2. induction ops as [|op rest IH]; intros s1 s2 Hn Hm; [done|].
  rewrite !apply_log_cons. apply IH; simpl; congruence.
Qed.

Definition op8 : ConsensusOp :=
  {| Nonce := 8%N; Uuid := 43%N; Addr := "f01234"; SignedMsg := "msg8" |}.

Lemma apply_log_replicas_agree_witness :
  NonceMap (fst (apply_log [op7; op8] (newRaftState (Some 1%positive))))
  = NonceMap (fst (apply_log [op7; op8] (newRaftState None)))
  ∧ MsgUuids (fst (apply_log [op7; op8] (newRaftState (Some 1%positive))))
    = MsgUuids (fst (apply_log [op7; op8] (newRaftState None))).
Proof.
  apply (apply_log_replicas_agree [op7; op8] (newRaftState (Some 1%positive))
           (newRaftState None)); reflexivity.
Defined.

(** An operation delivered a second time right after the first leaves
    both maps as the first delivery left them, and calls [Add] on the
    message pool once more. *)
Theorem ApplyTo_twice_same_maps (op : ConsensusOp) (s : RaftState) :
  fst (apply_log [op; op] s) = fst (apply_log [op] s)
  ∧ snd (apply_log [op; op] s)
    = [MpoolAdd (Mpool s) (SignedMsg op); MpoolAdd (Mpool s) (SignedMsg op)].
Proof.
  split; [|reflexivity]. simpl. f_equal; apply insert_insert_eq.
Qed.

(** X5. A call of [Commit] with [0 <= CommitRetries < max_int] always
    invokes [CommitOp] [CommitRetries + 1] times, and what it returns is
    the answer to the last invocation, whatever the earlier ones gave. *)
Theorem Commit_returns_last_answer (cfg : ClusterRaftConfig)
    (answers : nat → option error) (op : ConsensusOp) :
  (0 ≤ CommitRetries cfg < max_int)%Z →
  ∃ tr, Commit cfg answers op
        = Some (answers (Z.to_nat (CommitRetries cfg)), tr)
        ∧ commit_ops tr = Z.to_nat (CommitRetries cfg + 1)
        ∧ tr = concat (replicate (Z.to_nat (CommitRetries cfg + 1))
                         [EvCommitOp op; EvSleep (CommitRetryDelay cfg)]).
Proof.
  intros H. destruct (Commit_runs_every_attempt cfg answers op H) as (tr & E & Hc).
  exists tr. repeat split; try done.
  unfold Commit in E. destruct (CommitRetries cfg =? max_int)%Z; [done|].
  injection E as E. apply (f_equal snd) in E. simpl in E. rewrite <- E.
  apply Commit_loop_trace.
Qed.

Lemma Commit_returns_last_answer_witness :
  ∃ tr, Commit (mkConfig 1%Z 500%Z false)
          (λ k, match k with O => Some (New "not leader") | _ => None end) op7
        = Some (None, tr)
        ∧ commit_ops tr = 2
        ∧ tr = [EvCommitOp op7; EvSleep 500%Z; EvCommitOp op7; EvSleep 500%Z].
Proof.
  apply (Commit_returns_last_answer (mkConfig 1%Z 500%Z false)
           (λ k, match k with O => Some (New "not leader") | _ => None end) op7).
  simpl. unfold max_int. lia.
Defined.

(** A negative [CommitRetries] makes [Commit] return nil without ever
    invoking [CommitOp]. *)
Theorem Commit_negative_retries_commits_nothing (cfg : ClusterRaftConfig)
    (answers : nat → option error) (op : ConsensusOp) :
  (CommitRetries cfg < 0)%Z →
  Commit cfg answers op = Some (None, []).
Proof.
  intros H. unfold Commit.
  destruct (Z.eqb_spec (CommitRetries cfg) max_int) as [E|_];
    [unfold max_int in E; lia|].
  replace (Z.to_nat (CommitRetries cfg + 1)) with 0 by lia. reflexivity.
Qed.

Lemma Commit_negative_retries_commits_nothing_witness :
  Commit (mkConfig (-1)%Z 500%Z false) (λ _, None) op7 = Some (None, []).
Proof.
  apply (Commit_negative_retries_commits_nothing
           (mkConfig (-1)%Z 500%Z false) (λ _, None) op7).
  simpl. lia.
Defined.

End oplog_properties.

(** ** lib/consensus/raft/consensus.go: leader redirection, membership,
    bootstrap *)

Module leader.

Import consensus.

Definition PeerID := string.

(** The two durations of the configuration that the functions below read
    and that [ClusterRaftConfig] above leaves out. *)
Record timeouts : Type := mkTimeouts {
  WaitForLeaderTimeout : Z;
  HeartbeatTimeout : Z          (* config.RaftConfig.HeartbeatTimeout *)
}.

(** What the raft wrapper, the actor, the RPC client and the libraries
    answer.  The answers of the calls that are repeated are indexed by how
    many times the call has been made before, within one call of the
    modelled function. *)
Record engine : Type := mkEngine {
  host_ID : PeerID;                                  (* cc.host.ID() *)
  Leader_ans : nat → PeerID * option error;          (* cc.Leader(ctx) *)
  WaitForLeader_ans : nat → string * option error;   (* cc.raft.WaitForLeader *)
  peer_Decode : string → PeerID * option error;
  peer_Encode : PeerID → string;
  CallContext_ans : nat → option error;              (* cc.rpcClient.CallContext *)
  raft_change_ans : nat → option error;   (* cc.raft.AddPeer / RemovePeer *)
  WaitForVoter_ans : option error;
  WaitForUpdates_ans : option error;
  Bootstrap_ans : option error;
  raft_Peers_ans : list string * option error;
  Error : error → string                             (* err.Error() *)
}.

(** How many calls of each repeated kind have been made. *)
Record calls : Type := mkCalls {
  n_leader : nat;
  n_wait : nat;
  n_rpc : nat;
  n_change : nat
}.

Definition no_calls : calls :=
  {| n_leader := 0; n_wait := 0; n_rpc := 0; n_change := 0 |}.

Inductive event : Type :=
| EvLeader
| EvWaitForLeader (timeout : Z)
| EvCallContext (dest : PeerID) (method : string)
| EvSleep (d : Z)
| EvRaftAddPeer (pid : PeerID)
| EvRaftRemovePeer (pid : string)
| EvWaitForVoter
| EvWaitForUpdates
| EvBootstrap
| EvReady.                       (* cc.readyCh <- struct{}{} *)

(** The loop of [RedirectToLeader], [n] iterations left. *)
Fixpoint RedirectToLeader_loop (e : engine) (t : timeouts) (method : string)
    (n : nat) (c : calls) (finalErr : option error) (tr : list event)
  : (bool * option error) * calls * list event :=
  match n with
  | O => ((true, finalErr), c, tr)
  | S n' =>
      let '(leader, err) := Leader_ans e (n_leader c) in
      let c1 := {| n_leader := S (n_leader c); n_wait := n_wait c;
                   n_rpc := n_rpc c; n_change := n_change c |} in
      let tr1 := tr ++ [EvLeader] in
      let found : (bool * option error + PeerID) * calls * list event :=
        match err with
        | None => (inr leader, c1, tr1)
        | Some _ =>
            let '(pidstr, werr) := WaitForLeader_ans e (n_wait c1) in
            let c2 := {| n_leader := n_leader c1; n_wait := S (n_wait c1);
                         n_rpc := n_rpc c1; n_change := n_change c1 |} in
            let tr2 := tr1 ++ [EvWaitForLeader (WaitForLeaderTimeout t)] in
            match werr with
            | Some we =>
                (inl (false,
                      Some (New ("timed out waiting for leader: " +:+ Error e we))),
                 c2, tr2)
            | None =>
                match peer_Decode e pidstr with
                | (_, Some de) => (inl (false, Some de), c2, tr2)
                | (l, None) => (inr l, c2, tr2)
                end
            end
        end in
      match found with
      | (inl ret, c', tr') => (ret, c', tr')
      | (inr leader, c', tr') =>
          if String.eqb leader (host_ID e) then ((false, None), c', tr')
          else
            let finalErr' := CallContext_ans e (n_rpc c') in
            let c'' := {| n_leader := n_leader c'; n_wait := n_wait c';
                          n_rpc := S (n_rpc c'); n_change := n_change c' |} in
            let tr'' := tr' ++ [EvCallContext leader method] in
            match finalErr' with
            | Some _ =>
                RedirectToLeader_loop e t method n' c'' finalErr'
                  (tr'' ++ [EvSleep (2 * HeartbeatTimeout t)])
            | None => ((true, finalErr'), c'', tr'')
            end
      end
  end.

(** [RedirectToLeader] started with the counters [c], for a retry bound
    below the largest int. *)
Definition RedirectToLeader_from (e : engine) (cfg : ClusterRaftConfig)
    (t : timeouts) (method : string) (c : calls)
  : (bool * option error) * calls * list event :=
  RedirectToLeader_loop e t method (Z.to_nat (CommitRetries cfg + 1)) c None [].

(** [RedirectToLeader].  With the largest int as bound the counter of the
    loop never ends it; that configuration is left out ([None]). *)
Definition RedirectToLeader (e : engine) (cfg : ClusterRaftConfig)
    (t : timeouts) (method : string)
  : option ((bool * option error) * list event) :=
  if (CommitRetries cfg =? max_int)%Z then None
  else let '(r, _, tr) := RedirectToLeader_from e cfg t method no_calls in
       Some (r, tr).

(** The loop that [AddPeer] and [RmPeer] share; [ev] is the call on the raft
    wrapper that the function makes when this node is the leader. *)
Fixpoint change_peer_loop (e : engine) (cfg : ClusterRaftConfig) (t : timeouts)
    (method : string) (ev : event) (n : nat) (c : calls)
    (finalErr : option error) (tr : list event)
  : option error * calls * list event :=
  match n with
  | O => (finalErr, c, tr)
  | S n' =>
      let '((ok, err), c1, evs) := RedirectToLeader_from e cfg t method c in
      let tr1 := tr ++ evs in
      match err, ok with
      | Some _, _ => (err, c1, tr1)
      | None, true => (err, c1, tr1)
      | None, false =>
          let finalErr' := raft_change_ans e (n_change c1) in
          let c2 := {| n_leader := n_leader c1; n_wait := n_wait c1;
                       n_rpc := n_rpc c1; n_change := S (n_change c1) |} in
          let tr2 := tr1 ++ [ev] in
          match finalErr' with
          | Some _ =>
              change_peer_loop e cfg t method ev n' c2 finalErr'
                (tr2 ++ [EvSleep (CommitRetryDelay cfg)])
          | None => (finalErr', c2, tr2)
          end
      end
  end.

Definition AddPeer (e : engine) (cfg : ClusterRaftConfig) (t : timeouts)
    (pid : PeerID) : option (option error * list event) :=
  if (CommitRetries cfg =? max_int)%Z then None
  else let '(r, _, tr) :=
         change_peer_loop e cfg t "AddPeer" (EvRaftAddPeer pid)
           (Z.to_nat (CommitRetries cfg + 1)) no_calls None [] in
       Some (r, tr).

Definition RmPeer (e : engine) (cfg : ClusterRaftConfig) (t : timeouts)
    (pid : PeerID) : option (option error * list event) :=
  if (CommitRetries cfg =? max_int)%Z then None
  else let '(r, _, tr) :=
         change_peer_loop e cfg t "RmPeer" (EvRaftRemovePeer (peer_Encode e pid))
           (Z.to_nat (CommitRetries cfg + 1)) no_calls None [] in
       Some (r, tr).

(** [WaitForSync]: leader, voter, updates; the first failure is returned
    under the name of its step and ends the function. *)
Definition WaitForSync (e : engine) (t : timeouts)
  : option error * list event :=
  match WaitForLeader_ans e 0 with
  | (_, Some err) =>
      (Some (New ("error waiting for leader: " +:+ Error e err)),
       [EvWaitForLeader (WaitForLeaderTimeout t)])
  | (_, None) =>
      match WaitForVoter_ans e with
      | Some err =>
          (Some (New ("error waiting to become a Voter: " +:+ Error e err)),
           [EvWaitForLeader (WaitForLeaderTimeout t); EvWaitForVoter])
      | None =>
          match WaitForUpdates_ans e with
          | Some err =>
              (Some (New ("error waiting for consensus updates: " +:+ Error e err)),
               [EvWaitForLeader (WaitForLeaderTimeout t); EvWaitForVoter;
                EvWaitForUpdates])
          | None =>
              (None,
               [EvWaitForLeader (WaitForLeaderTimeout t); EvWaitForVoter;
                EvWaitForUpdates])
          end
      end
  end.

(** Which arm the first [select] of [finishBootstrap] takes. *)
Inductive bootstrap_select : Type := CtxDone | RpcReady.

(** [finishBootstrap]: the events, ending in [EvReady] when the function
    gets as far as signalling [readyCh]. *)
Definition finishBootstrap (e : engine) (t : timeouts) (sel : bootstrap_select)
  : list event :=
  match sel with
  | CtxDone => []
  | RpcReady =>
      match Bootstrap_ans e with
      | Some _ => [EvBootstrap]
      | None =>
          let '(err, evs) := WaitForSync e t in
          match err with
          | Some _ => EvBootstrap :: evs
          | None => EvBootstrap :: evs ++ [EvReady]
          end
      end
  end.

(** [sort.Strings]: the result is the one ascending arrangement of the
    input in byte order, computed here by insertion. *)
Fixpoint insert_string (x : string) (l : list string) : list string :=
  match l with
  | [] => [x]
  | y :: l' => if String.leb x y then x :: l else y :: insert_string x l'
  end.

Definition sort_Strings (l : list string) : list string :=
  foldr insert_string [] l.

(** The loop of [Peers]: decode each entry, panic on the first that does
    not decode. *)
Fixpoint decode_peers (e : engine) (l : list string) (peers : list PeerID)
  : outcome (list PeerID) :=
  match l with
  | [] => Return peers
  | p :: rest =>
      match peer_Decode e p with
      | (_, Some _) => Panic "could not decode peer"
      | (id, None) => decode_peers e rest (peers ++ [id])
      end
  end.

Definition Peers (e : engine) : outcome (option (list PeerID) * option error) :=
  let '(raftPeers, err) := raft_Peers_ans e in
  match err with
  | Some err =>
      Return (None,
              Some (New ("cannot retrieve list of peers: " +:+ Error e err)))
  | None =>
      match decode_peers e (sort_Strings raftPeers) [] with
      | Panic msg => Panic msg
      | Return peers => Return (Some peers, None)
      end
  end.

(** [IsTrustedPeer] is [slices.Contains(cc.peerSet, p)]. *)
Definition IsTrustedPeer (peerSet : list PeerID) (p : PeerID) : bool :=
  existsb (String.eqb p) peerSet.

(** [IsLeader] drops the error of [Leader] and compares what is left. *)
Definition IsLeader (e : engine) : bool :=
  let '(leader, _) := Leader_ans e 0 in String.eqb leader (host_ID e).

End leader.

Section leader_properties.

Import consensus leader.

(** One turn of the loop of [RedirectToLeader] in which a leader other than
    this host is known and the RPC to it fails. *)
Definition failed_turn (t : timeouts) (L : PeerID) (method : string)
  : list event :=
  [EvLeader; EvCallContext L method; EvSleep (2 * HeartbeatTimeout t)].

Definition after_turns (k : nat) (c : calls) : calls :=
  {| n_leader := n_leader c + k; n_wait := n_wait c;
     n_rpc := n_rpc c + k; n_change := n_change c |}.

Lemma after_turns_0 c : after_turns 0 c = c.
Proof. destruct c; unfold after_turns; simpl. by rewrite !Nat.add_0_r. Qed.

Lemma RedirectToLeader_loop_failed_turn e t method L x n c fe tr :
  Leader_ans e (n_leader c) = (L, None) →
  String.eqb L (host_ID e) = false →
  CallContext_ans e (n_rpc c) = Some x →
  RedirectToLeader_loop e t method (S n) c fe tr
  = RedirectToLeader_loop e t method n (after_turns 1 c) (Some x)
      (tr ++ failed_turn t L method).
Proof.
  intros Hl Hh Hc. simpl. rewrite Hl. simpl. rewrite Hh, Hc.
  unfold after_turns, failed_turn. rewrite <- !app_assoc, !Nat.add_1_r.
  reflexivity.
Qed.

Lemma RedirectToLeader_loop_failed_turns e t method L k : ∀ n c fe tr,
  String.eqb L (host_ID e) = false →
  (∀ j, j < k → Leader_ans e (n_leader c + j) = (L, None)) →
  (∀ j, j < k → is_Some (CallContext_ans e (n_rpc c + j))) →
  RedirectToLeader_loop e t method (k + n) c fe tr
  = RedirectToLeader_loop e t method n (after_turns k c)
      (match k with O => fe | S k' => CallContext_ans e (n_rpc c + k') end)
      (tr ++ concat (replicate k (failed_turn t L method))).
Proof.
  induction k as [|k IH]; intros n c fe tr Hh Hl Hc.
  - simpl. by rewrite after_turns_0, app_nil_r.
  - destruct (Hc 0) as [x Hx]; [lia|].
    pose proof (Hl 0 ltac:(lia)) as Hl0. rewrite Nat.add_0_r in Hx, Hl0.
    change (S k + n) with (S (k + n)).
    rewrite (RedirectToLeader_loop_failed_turn _ _ _ _ _ _ _ _ _ Hl0 Hh Hx).
    rewrite (IH n (after_turns 1 c) (Some x) _ Hh).
    + f_equal.
      * unfold after_turns; simpl. f_equal; lia.
      * destruct k as [|k']; simpl.
        -- by rewrite Nat.add_0_r.
        -- f_equal. lia.
      * simpl. by rewrite <- app_assoc.
    + intros j Hj. simpl. rewrite Nat.add_1_r.
      replace (S (n_leader c) + j) with (n_leader c + S j) by lia.
      apply Hl. lia.
    + intros j Hj. simpl. rewrite Nat.add_1_r.
      replace (S (n_rpc c) + j) with (n_rpc c + S j) by lia.
      apply Hc. lia.
Qed.

Lemma RedirectToLeader_loop_rpc_ok e t method L n c fe tr :
  Leader_ans e (n_leader c) = (L, None) →
  String.eqb L (host_ID e) = false →
  CallContext_ans e (n_rpc c) = None →
  RedirectToLeader_loop e t method (S n) c fe tr
  = ((true, None), after_turns 1 c, tr ++ [EvLeader; EvCallContext L method]).
Proof.
  intros Hl Hh Hc. simpl. rewrite Hl. simpl. rewrite Hh, Hc.
  unfold after_turns. rewrite <- !app_assoc, !Nat.add_1_r. reflexivity.
Qed.

Lemma retries_split (R : Z) (k : nat) :
  (0 ≤ R)%Z → k ≤ Z.to_nat R →
  Z.to_nat (R + 1) = k + S (Z.to_nat R - k).
Proof. lia. Qed.

(** X6. [RedirectToLeader] repeats a failing RPC to the leader and stops at
    the first RPC that succeeds: after [k] failures, [k] within the retry
    bound, it has made [k + 1] RPC calls, slept twice the heartbeat timeout
    after each failure, and returns (true, nil). *)
Theorem RedirectToLeader_stops_at_first_rpc_success (e : engine)
    (cfg : ClusterRaftConfig) (t : timeouts) (method : string) (L : PeerID)
    (k : nat) :
  (0 ≤ CommitRetries cfg < max_int)%Z →
  k ≤ Z.to_nat (CommitRetries cfg) →
  String.eqb L (host_ID e) = false →
  (∀ j, j ≤ k → Leader_ans e j = (L, None)) →
  (∀ j, j < k → is_Some (CallContext_ans e j)) →
  CallContext_ans e k = None →
  RedirectToLeader e cfg t method
  = Some ((true, None),
          concat (replicate k (failed_turn t L method))
            ++ [EvLeader; EvCallContext L method]).
Proof.
  intros [H0 H1] Hk Hh Hl Hc Hok. unfold RedirectToLeader.
  destruct (Z.eqb_spec (CommitRetries cfg) max_int) as [E|_]; [lia|].
  unfold RedirectToLeader_from.
  rewrite (retries_split _ k H0 Hk).
  rewrite (RedirectToLeader_loop_failed_turns e t method L k); try done.
  - rewrite (RedirectToLeader_loop_rpc_ok e t method L _
               (after_turns k no_calls) _ _ (Hl k (le_n k)) Hh Hok).
    reflexivity.
  - intros j Hj. apply Hl. simpl. lia.
Qed.

Definition node_a : PeerID := "12D3KooWA".
Definition node_b : PeerID := "12D3KooWB".

(** An engine on host [me] whose answers are the given ones; every wait
    succeeds and a peer ID is its own encoding. *)
Definition sample_engine (me : PeerID)
    (leader : nat → PeerID * option error)
    (wait : nat → string * option error)
    (rpc change : nat → option error) : engine :=
  {| host_ID := me; Leader_ans := leader; WaitForLeader_ans := wait;
     peer_Decode := λ s, (s, None); peer_Encode := λ p, p;
     CallContext_ans := rpc; raft_change_ans := change;
     WaitForVoter_ans := None; WaitForUpdates_ans := None;
     Bootstrap_ans := None;
     raft_Peers_ans := ([node_b; node_a], None);
     Error := λ _, "context deadline exceeded" |}.

Definition cfg3 : ClusterRaftConfig :=
  {| CommitRetries := 3; CommitRetryDelay := 200; HostShutdown := false |}.
Definition t10 : timeouts :=
  {| WaitForLeaderTimeout := 10000; HeartbeatTimeout := 50 |}.

Lemma RedirectToLeader_stops_at_first_rpc_success_witness :
  RedirectToLeader
    (sample_engine node_a (λ _, (node_b, None)) (λ _, (node_b, None))
       (λ j, if j <? 2 then Some (New "connection refused") else None)
       (λ _, None))
    cfg3 t10 "AddPeer"
  = Some ((true, None),
          concat (replicate 2 (failed_turn t10 node_b "AddPeer"))
            ++ [EvLeader; EvCallContext node_b "AddPeer"]).
Proof.
  apply (RedirectToLeader_stops_at_first_rpc_success
           (sample_engine node_a (λ _, (node_b, None)) (λ _, (node_b, None))
              (λ j, if j <? 2 then Some (New "connection refused") else None)
              (λ _, None))
           cfg3 t10 "AddPeer" node_b 2).
  - simpl. unfold max_int. lia.
  - simpl. lia.
  - reflexivity.
  - intros j _. reflexivity.
  - intros j Hj. simpl. destruct (Nat.ltb_spec j 2); [eauto|lia].
  - reflexivity.
Defined.

(** X7. When every RPC to the leader fails, [RedirectToLeader] gives up
    after [CommitRetries + 1] calls and returns (true, the error of the
    last call): it reports the request as redirected although no call went
    through. *)
Theorem RedirectToLeader_exhausted (e : engine) (cfg : ClusterRaftConfig)
    (t : timeouts) (method : string) (L : PeerID) :
  (0 ≤ CommitRetries cfg < max_int)%Z →
  String.eqb L (host_ID e) = false →
  (∀ j, j ≤ Z.to_nat (CommitRetries cfg) → Leader_ans e j = (L, None)) →
  (∀ j, j ≤ Z.to_nat (CommitRetries cfg) → is_Some (CallContext_ans e j)) →
  RedirectToLeader e cfg t method
  = Some ((true, CallContext_ans e (Z.to_nat (CommitRetries cfg))),
          concat (replicate (Z.to_nat (CommitRetries cfg + 1))
                    (failed_turn t L method))).
Proof.
  intros [H0 H1] Hh Hl Hc. unfold RedirectToLeader.
  destruct (Z.eqb_spec (CommitRetries cfg) max_int) as [E|_]; [lia|].
  unfold RedirectToLeader_from.
  replace (Z.to_nat (CommitRetries cfg + 1))
    with (S (Z.to_nat (CommitRetries cfg)) + 0) by lia.
  rewrite (RedirectToLeader_loop_failed_turns e t method L _ 0 no_calls None []
             Hh).
  - rewrite Nat.add_0_r. reflexivity.
  - intros j Hj. apply Hl. simpl. lia.
  - intros j Hj. apply Hc. simpl. lia.
Qed.

Lemma RedirectToLeader_exhausted_witness :
  RedirectToLeader
    (sample_engine node_a (λ _, (node_b, None)) (λ _, (node_b, None))
       (λ _, Some (New "connection refused")) (λ _, None))
    cfg3 t10 "RmPeer"
  = Some ((true, Some (New "connection refused")),
          concat (replicate 4 (failed_turn t10 node_b "RmPeer"))).
Proof.
  apply (RedirectToLeader_exhausted
           (sample_engine node_a (λ _, (node_b, None)) (λ _, (node_b, None))
              (λ _, Some (New "connection refused")) (λ _, None))
           cfg3 t10 "RmPeer" node_b).
  - simpl. unfold max_int. lia.
  - reflexivity.
  - intros j _. reflexivity.
  - intros j _. simpl. eauto.
Defined.

Lemma RedirectToLeader_loop_wait_timeout e t method x e1 p e2 n c fe tr :
  Leader_ans e (n_leader c) = (x, Some e1) →
  WaitForLeader_ans e (n_wait c) = (p, Some e2) →
  RedirectToLeader_loop e t method (S n) c fe tr
  = ((false, Some (New ("timed out waiting for leader: " +:+ Error e e2))),
     {| n_leader := S (n_leader c); n_wait := S (n_wait c);
        n_rpc := n_rpc c; n_change := n_change c |},
     tr ++ [EvLeader; EvWaitForLeader (WaitForLeaderTimeout t)]).
Proof.
  intros Hl Hw. simpl. rewrite Hl. simpl. rewrite Hw.
  rewrite <- !app_assoc. reflexivity.
Qed.

(** X8. A timeout while waiting for a leader ends [RedirectToLeader] at
    once, whatever is left of the retry bound: after [k] failed RPCs, if
    [Leader] answers an error and [WaitForLeader] then times out, the
    function returns (false, "timed out waiting for leader: ...") and makes
    no further call. *)
Theorem RedirectToLeader_leader_wait_timeout_is_final (e : engine)
    (cfg : ClusterRaftConfig) (t : timeouts) (method : string) (L : PeerID)
    (k : nat) (x : PeerID) (p : string) (e1 e2 : error) :
  (0 ≤ CommitRetries cfg < max_int)%Z →
  k ≤ Z.to_nat (CommitRetries cfg) →
  String.eqb L (host_ID e) = false →
  (∀ j, j < k → Leader_ans e j = (L, None)) →
  (∀ j, j < k → is_Some (CallContext_ans e j)) →
  Leader_ans e k = (x, Some e1) →
  WaitForLeader_ans e 0 = (p, Some e2) →
  RedirectToLeader e cfg t method
  = Some ((false, Some (New ("timed out waiting for leader: " +:+ Error e e2))),
          concat (replicate k (failed_turn t L method))
            ++ [EvLeader; EvWaitForLeader (WaitForLeaderTimeout t)]).
Proof.
  intros [H0 H1] Hk Hh Hl Hc Hle Hw. unfold RedirectToLeader.
  destruct (Z.eqb_spec (CommitRetries cfg) max_int) as [E|_]; [lia|].
  unfold RedirectToLeader_from.
  rewrite (retries_split _ k H0 Hk).
  rewrite (RedirectToLeader_loop_failed_turns e t method L k); try done.
  rewrite (RedirectToLeader_loop_wait_timeout e t method x e1 p e2 _
             (after_turns k no_calls) _ _ Hle Hw).
  reflexivity.
Qed.

Lemma RedirectToLeader_leader_wait_timeout_is_final_witness :
  RedirectToLeader
    (sample_engine node_a
       (λ j, if j <? 1 then (node_b, None) else ("", Some (New "no leader")))
       (λ _, ("", Some (New "timeout")))
       (λ _, Some (New "connection refused")) (λ _, None))
    cfg3 t10 "AddPeer"
  = Some ((false,
           Some (New ("timed out waiting for leader: "
                      +:+ "context deadline exceeded"))),
          concat (replicate 1 (failed_turn t10 node_b "AddPeer"))
            ++ [EvLeader; EvWaitForLeader 10000]).
Proof.
  apply (RedirectToLeader_leader_wait_timeout_is_final
           (sample_engine node_a
              (λ j, if j <? 1 then (node_b, None) else ("", Some (New "no leader")))
              (λ _, ("", Some (New "timeout")))
              (λ _, Some (New "connection refused")) (λ _, None))
           cfg3 t10 "AddPeer" node_b 1 "" "" (New "no leader") (New "timeout")).
  - simpl. unfold max_int. lia.
  - simpl. lia.
  - reflexivity.
  - intros j Hj. simpl. destruct (Nat.ltb_spec j 1); [done|lia].
  - intros j _. simpl. eauto.
  - reflexivity.
  - reflexivity.
Defined.

(** *** AddPeer and RmPeer *)

Definition leader_turn (cfg : ClusterRaftConfig) (ev : event) : list event :=
  [EvLeader; ev; EvSleep (CommitRetryDelay cfg)].

Definition after_changes (k : nat) (c : calls) : calls :=
  {| n_leader := n_leader c + k; n_wait := n_wait c;
     n_rpc := n_rpc c; n_change := n_change c + k |}.

Lemma after_changes_0 c : after_changes 0 c = c.
Proof. destruct c; unfold after_changes; simpl. by rewrite !Nat.add_0_r. Qed.

Lemma RedirectToLeader_from_self e cfg t method c :
  (0 ≤ CommitRetries cfg)%Z →
  Leader_ans e (n_leader c) = (host_ID e, None) →
  RedirectToLeader_from e cfg t method c
  = ((false, None),
     {| n_leader := S (n_leader c); n_wait := n_wait c;
        n_rpc := n_rpc c; n_change := n_change c |}, [EvLeader]).
Proof.
  intros H0 Hl. unfold RedirectToLeader_from.
  replace (Z.to_nat (CommitRetries cfg + 1))
    with (S (Z.to_nat (CommitRetries cfg))) by lia.
  simpl. rewrite Hl. simpl. by rewrite String.eqb_refl.
Qed.

Lemma change_peer_loop_failed_turn e cfg t method ev x n c fe tr :
  (0 ≤ CommitRetries cfg)%Z →
  Leader_ans e (n_leader c) = (host_ID e, None) →
  raft_change_ans e (n_change c) = Some x →
  change_peer_loop e cfg t method ev (S n) c fe tr
  = change_peer_loop e cfg t method ev n (after_changes 1 c) (Some x)
      (tr ++ leader_turn cfg ev).
Proof.
  intros H0 Hl Hc. simpl. rewrite (RedirectToLeader_from_self _ _ _ _ _ H0 Hl).
  simpl. rewrite Hc. unfold after_changes, leader_turn.
  rewrite <- !app_assoc, !Nat.add_1_r. reflexivity.
Qed.

Lemma change_peer_loop_ok e cfg t method ev n c fe tr :
  (0 ≤ CommitRetries cfg)%Z →
  Leader_ans e (n_leader c) = (host_ID e, None) →
  raft_change_ans e (n_change c) = None →
  change_peer_loop e cfg t method ev (S n) c fe tr
  = (None, after_changes 1 c, tr ++ [EvLeader; ev]).
Proof.
  intros H0 Hl Hc. simpl. rewrite (RedirectToLeader_from_self _ _ _ _ _ H0 Hl).
  simpl. rewrite Hc. unfold after_changes.
  rewrite <- !app_assoc, !Nat.add_1_r. reflexivity.
Qed.

Lemma change_peer_loop_failed_turns e cfg t method ev k : ∀ n c fe tr,
  (0 ≤ CommitRetries cfg)%Z →
  (∀ j, j < k → Leader_ans e (n_leader c + j) = (host_ID e, None)) →
  (∀ j, j < k → is_Some (raft_change_ans e (n_change c + j))) →
  change_peer_loop e cfg t method ev (k + n) c fe tr
  = change_peer_loop e cfg t method ev n (after_changes k c)
      (match k with O => fe | S k' => raft_change_ans e (n_change c + k') end)
      (tr ++ concat (replicate k (leader_turn cfg ev))).
Proof.
  induction k as [|k IH]; intros n c fe tr H0 Hl Hc.
  - simpl. by rewrite after_changes_0, app_nil_r.
  - destruct (Hc 0) as [x Hx]; [lia|].
    pose proof (Hl 0 ltac:(lia)) as Hl0. rewrite Nat.add_0_r in Hx, Hl0.
    change (S k + n) with (S (k + n)).
    rewrite (change_peer_loop_failed_turn _ _ _ _ _ _ _ _ _ _ H0 Hl0 Hx).
    rewrite (IH n (after_changes 1 c) (Some x) _ H0).
    + f_equal.
      * unfold after_changes; simpl. f_equal; lia.
      * destruct k as [|k']; simpl.
        -- by rewrite Nat.add_0_r.
        -- f_equal. lia.
      * simpl. by rewrite <- app_assoc.
    + intros j Hj. simpl. rewrite Nat.add_1_r.
      replace (S (n_leader c) + j) with (n_leader c + S j) by lia.
      apply Hl. lia.
    + intros j Hj. simpl. rewrite Nat.add_1_r.
      replace (S (n_change c) + j) with (n_change c + S j) by lia.
      apply Hc. lia.
Qed.

(** X9. On the leader, [AddPeer] and [RmPeer] retry the change on the raft
    wrapper and stop at the first success: when the change fails [k] times
    and then succeeds, [k] within the retry bound, the wrapper is called
    [k + 1] times, with a sleep of [CommitRetryDelay] after each failure,
    and nil is returned. *)
Theorem AddPeer_RmPeer_stop_at_first_success (e : engine)
    (cfg : ClusterRaftConfig) (t : timeouts) (pid : PeerID) (k : nat) :
  (0 ≤ CommitRetries cfg < max_int)%Z →
  k ≤ Z.to_nat (CommitRetries cfg) →
  (∀ j, j ≤ k → Leader_ans e j = (host_ID e, None)) →
  (∀ j, j < k → is_Some (raft_change_ans e j)) →
  raft_change_ans e k = None →
  AddPeer e cfg t pid
  = Some (None,
          concat (replicate k (leader_turn cfg (EvRaftAddPeer pid)))
            ++ [EvLeader; EvRaftAddPeer pid])
  ∧ RmPeer e cfg t pid
    = Some (None,
            concat (replicate k
                      (leader_turn cfg (EvRaftRemovePeer (peer_Encode e pid))))
              ++ [EvLeader; EvRaftRemovePeer (peer_Encode e pid)]).
Proof.
  intros [H0 H1] Hk Hl Hc Hok. unfold AddPeer, RmPeer.
  destruct (Z.eqb_spec (CommitRetries cfg) max_int) as [E|_]; [lia|].
  rewrite (retries_split _ k H0 Hk).
  split.
  - rewrite (change_peer_loop_failed_turns e cfg t "AddPeer");
      [|done|intros j Hj; apply Hl; simpl; lia|done].
    rewrite (change_peer_loop_ok e cfg t "AddPeer" _ _
               (after_changes k no_calls) _ _ H0 (Hl k (le_n k)) Hok).
    reflexivity.
  - rewrite (change_peer_loop_failed_turns e cfg t "RmPeer");
      [|done|intros j Hj; apply Hl; simpl; lia|done].
    rewrite (change_peer_loop_ok e cfg t "RmPeer" _ _
               (after_changes k no_calls) _ _ H0 (Hl k (le_n k)) Hok).
    reflexivity.
Qed.

Lemma AddPeer_RmPeer_stop_at_first_success_witness :
  let e := sample_engine node_a (λ _, (node_a, None)) (λ _, (node_a, None))
             (λ _, None)
             (λ j, if j <? 1 then Some (New "leadership lost") else None) in
  AddPeer e cfg3 t10 node_b
  = Some (None,
          concat (replicate 1 (leader_turn cfg3 (EvRaftAddPeer node_b)))
            ++ [EvLeader; EvRaftAddPeer node_b])
  ∧ RmPeer e cfg3 t10 node_b
    = Some (None,
            concat (replicate 1
                      (leader_turn cfg3 (EvRaftRemovePeer (peer_Encode e node_b))))
              ++ [EvLeader; EvRaftRemovePeer (peer_Encode e node_b)]).
Proof.
  apply (AddPeer_RmPeer_stop_at_first_success
           (sample_engine node_a (λ _, (node_a, None)) (λ _, (node_a, None))
              (λ _, None)
              (λ j, if j <? 1 then Some (New "leadership lost") else None))
           cfg3 t10 node_b 1).
  - simpl. unfold max_int. lia.
  - simpl. lia.
  - intros j _. reflexivity.
  - intros j Hj. simpl. destruct (Nat.ltb_spec j 1); [eauto|lia].
  - reflexivity.
Defined.

Lemma RedirectToLeader_from_forwarded e cfg t method L k :
  (0 ≤ CommitRetries cfg)%Z →
  k ≤ Z.to_nat (CommitRetries cfg) →
  String.eqb L (host_ID e) = false →
  (∀ j, j ≤ k → Leader_ans e j = (L, None)) →
  (∀ j, j < k → is_Some (CallContext_ans e j)) →
  CallContext_ans e k = None →
  RedirectToLeader_from e cfg t method no_calls
  = ((true, None), after_turns 1 (after_turns k no_calls),
     concat (replicate k (failed_turn t L method))
       ++ [EvLeader; EvCallContext L method]).
Proof.
  intros H0 Hk Hh Hl Hc Hok. unfold RedirectToLeader_from.
  rewrite (retries_split _ k H0 Hk).
  rewrite (RedirectToLeader_loop_failed_turns e t method L k _ no_calls None []
             Hh).
  - rewrite (RedirectToLeader_loop_rpc_ok e t method L _
               (after_turns k no_calls) _ _ (Hl k (le_n k)) Hh Hok).
    reflexivity.
  - intros j Hj. apply Hl. simpl. lia.
  - intros j Hj. apply Hc. simpl. lia.
Qed.

(** X10. On a node that is not the leader, [AddPeer] and [RmPeer] forward
    the request to the leader and never call the local raft wrapper: once
    an RPC to the leader has gone through, after [k] failed ones, they
    return nil, and the only calls made are those of the redirection. *)
Theorem AddPeer_RmPeer_forward_on_follower (e : engine)
    (cfg : ClusterRaftConfig) (t : timeouts) (pid L : PeerID) (k : nat) :
  (0 ≤ CommitRetries cfg < max_int)%Z →
  k ≤ Z.to_nat (CommitRetries cfg) →
  String.eqb L (host_ID e) = false →
  (∀ j, j ≤ k → Leader_ans e j = (L, None)) →
  (∀ j, j < k → is_Some (CallContext_ans e j)) →
  CallContext_ans e k = None →
  AddPeer e cfg t pid
  = Some (None,
          concat (replicate k (failed_turn t L "AddPeer"))
            ++ [EvLeader; EvCallContext L "AddPeer"])
  ∧ RmPeer e cfg t pid
    = Some (None,
            concat (replicate k (failed_turn t L "RmPeer"))
              ++ [EvLeader; EvCallContext L "RmPeer"]).
Proof.
  intros [H0 H1] Hk Hh Hl Hc Hok. unfold AddPeer, RmPeer.
  destruct (Z.eqb_spec (CommitRetries cfg) max_int) as [E|_]; [lia|].
  replace (Z.to_nat (CommitRetries cfg + 1))
    with (S (Z.to_nat (CommitRetries cfg))) by lia.
  simpl change_peer_loop.
  rewrite !(RedirectToLeader_from_forwarded e cfg t _ L k H0 Hk Hh Hl Hc Hok).
  split; reflexivity.
Qed.

Lemma AddPeer_RmPeer_forward_on_follower_witness :
  let e := sample_engine node_a (λ _, (node_b, None)) (λ _, (node_b, None))
             (λ j, if j <? 2 then Some (New "connection refused") else None)
             (λ _, None) in
  AddPeer e cfg3 t10 "12D3KooWC"
  = Some (None,
          concat (replicate 2 (failed_turn t10 node_b "AddPeer"))
            ++ [EvLeader; EvCallContext node_b "AddPeer"])
  ∧ RmPeer e cfg3 t10 "12D3KooWC"
    = Some (None,
            concat (replicate 2 (failed_turn t10 node_b "RmPeer"))
              ++ [EvLeader; EvCallContext node_b "RmPeer"]).
Proof.
  apply (AddPeer_RmPeer_forward_on_follower
           (sample_engine node_a (λ _, (node_b, None)) (λ _, (node_b, None))
              (λ j, if j <? 2 then Some (New "connection refused") else None)
              (λ _, None))
           cfg3 t10 "12D3KooWC" node_b 2).
  - simpl. unfold max_int. lia.
  - simpl. lia.
  - reflexivity.
  - intros j _. reflexivity.
  - intros j Hj. simpl. destruct (Nat.ltb_spec j 2); [eauto|lia].
  - reflexivity.
Defined.

(** *** Bootstrap *)

(** X11. [finishBootstrap] signals [readyCh] exactly when the RPC client
    has arrived before the context ended, [Bootstrap] succeeded, and the
    three waits of [WaitForSync] (leader, voter, updates) all succeeded; in
    every other case the function returns without signalling. *)
Theorem finishBootstrap_ready_iff (e : engine) (t : timeouts)
    (sel : bootstrap_select) :
  In EvReady (finishBootstrap e t sel)
  ↔ sel = RpcReady ∧ Bootstrap_ans e = None
    ∧ snd (WaitForLeader_ans e 0) = None
    ∧ WaitForVoter_ans e = None ∧ WaitForUpdates_ans e = None.
Proof.
  unfold finishBootstrap, WaitForSync.
  destruct sel; simpl; [intuition discriminate|].
  destruct (Bootstrap_ans e); simpl; [intuition discriminate|].
  destruct (WaitForLeader_ans e 0) as [p [e1|]]; simpl; [intuition discriminate|].
  destruct (WaitForVoter_ans e); simpl; [intuition discriminate|].
  destruct (WaitForUpdates_ans e); simpl; intuition discriminate.
Qed.

(** *** Peers *)

Definition leb_true (a b : string) : Prop := String.leb a b = true.

Lemma insert_string_perm x l : insert_string x l ≡ₚ x :: l.
Proof.
  induction l as [|y l IH]; simpl; [done|].
  destruct (String.leb x y); [done|].
  rewrite IH. apply perm_swap.
Qed.

Lemma sort_Strings_perm l : sort_Strings l ≡ₚ l.
Proof.
  induction l as [|x l IH]; simpl; [done|].
  rewrite insert_string_perm. by rewrite IH.
Qed.

Lemma insert_string_sorted x l :
  Sorted leb_true l → Sorted leb_true (insert_string x l).
Proof.
  induction 1 as [|y l Hs IH Hd]; simpl.
  - repeat constructor.
  - destruct (String.leb x y) eqn:E.
    + constructor; [by constructor|]. by constructor.
    + constructor; [exact IH|].
      destruct (String.leb_total x y) as [H|H]; [congruence|].
      destruct Hd as [|z l' Hz]; simpl.
      * by constructor.
      * destruct (String.leb x z); by constructor.
  Qed.

Lemma sort_Strings_sorted l : Sorted leb_true (sort_Strings l).
Proof.
  induction l as [|x l IH]; simpl; [constructor|].
  by apply insert_string_sorted.
Qed.

Lemma decode_peers_all_ok e l : ∀ acc,
  (∀ p, p ∈ l → snd (peer_Decode e p) = None) →
  decode_peers e l acc = Return (acc ++ map (λ p, fst (peer_Decode e p)) l).
Proof.
  induction l as [|p l IH]; intros acc H; simpl.
  - by rewrite app_nil_r.
  - pose proof (H p (list_elem_of_here _ _)) as Hp.
    destruct (peer_Decode e p) as [id [err|]]; simpl in *; [done|].
    rewrite IH, <- app_assoc; [done|].
    intros q Hq. apply H. by right.
Qed.

Lemma decode_peers_bad e l p : ∀ acc,
  p ∈ l → snd (peer_Decode e p) ≠ None →
  decode_peers e l acc = Panic "could not decode peer".
Proof.
  induction l as [|q l IH]; intros acc Hin Hbad; [by inversion Hin|].
  simpl. destruct (peer_Decode e q) as [id [err|]] eqn:E; [done|].
  apply IH; [|done].
  inversion Hin; subst; [|done]. rewrite E in Hbad. done.
Qed.

(** X12. When the raft wrapper lists its peers and all of them decode,
    [Peers] returns one ID per listed peer, in ascending byte order of the
    listed strings: the IDs are the decodings of a sorted rearrangement of
    the list. *)
Theorem Peers_are_sorted (e : engine) (l : list string) :
  raft_Peers_ans e = (l, None) →
  (∀ p, p ∈ l → snd (peer_Decode e p) = None) →
  Peers e = Return (Some (map (λ p, fst (peer_Decode e p)) (sort_Strings l)),
                    None)
  ∧ Sorted leb_true (sort_Strings l)
  ∧ sort_Strings l ≡ₚ l.
Proof.
  intros Hp Hd. unfold Peers. rewrite Hp.
  rewrite decode_peers_all_ok.
  - split; [reflexivity|]. split; [apply sort_Strings_sorted|apply sort_Strings_perm].
  - intros p Hin. apply Hd. by rewrite <- (sort_Strings_perm l).
Qed.

Lemma Peers_are_sorted_witness :
  let e := sample_engine node_a (λ _, (node_a, None)) (λ _, (node_a, None))
             (λ _, None) (λ _, None) in
  Peers e = Return (Some (map (λ p, fst (peer_Decode e p))
                            (sort_Strings [node_b; node_a])), None)
  ∧ Sorted leb_true (sort_Strings [node_b; node_a])
  ∧ sort_Strings [node_b; node_a] ≡ₚ [node_b; node_a].
Proof.
  apply (Peers_are_sorted
           (sample_engine node_a (λ _, (node_a, None)) (λ _, (node_a, None))
              (λ _, None) (λ _, None))
           [node_b; node_a]).
  - reflexivity.
  - intros p _. reflexivity.
Defined.

(** X13. When the raft wrapper lists a peer that does not decode, [Peers]
    does not return an error: it panics. *)
Theorem Peers_panics_on_undecodable_peer (e : engine) (l : list string)
    (p : string) :
  raft_Peers_ans e = (l, None) →
  p ∈ l →
  snd (peer_Decode e p) ≠ None →
  Peers e = Panic "could not decode peer".
Proof.
  intros Hp Hin Hbad. unfold Peers. rewrite Hp.
  rewrite (decode_peers_bad e (sort_Strings l) p); [done| |done].
  by rewrite (sort_Strings_perm l).
Qed.

Lemma Peers_panics_on_undecodable_peer_witness :
  Peers {| host_ID := node_a; Leader_ans := λ _, (node_a, None);
           WaitForLeader_ans := λ _, (node_a, None);
           peer_Decode := λ s, if String.eqb s "not-a-peer-id"
                               then ("", Some (New "failed to parse peer ID"))
                               else (s, None);
           peer_Encode := λ p, p;
           CallContext_ans := λ _, None; raft_change_ans := λ _, None;
           WaitForVoter_ans := None; WaitForUpdates_ans := None;
           Bootstrap_ans := None;
           raft_Peers_ans := ([node_b; "not-a-peer-id"; node_a], None);
           Error := λ _, "" |}
  = Panic "could not decode peer".
Proof.
  apply (Peers_panics_on_undecodable_peer _ [node_b; "not-a-peer-id"; node_a]
           "not-a-peer-id").
  - reflexivity.
  - apply list_elem_of_further, list_elem_of_here.
  - simpl. discriminate.
Defined.

End leader_properties.

(** ** The remote store, continued *)

Section stores_more_properties.

Import stores.
#[local] Open Scope Z_scope.

(** *** AcquireSector: the single-flight slot *)

Lemma fetching_released (s : SectorID) (F : gset SectorID) :
  s ∉ F → ({[s]} ∪ F) ∖ {[s]} = F.
Proof.
  intros Hs. apply set_eq. intros x.
  rewrite elem_of_difference, elem_of_union, elem_of_singleton.
  split; [intros [[->|Hx] Hne]; done|].
  intros Hx. split; [by right|]. by intros ->.
Qed.

(** X14. Single flight.  For a request that passes the guard: while an
    acquire of the same sector is in flight the call touches nothing, and
    either waits or, the context being done, returns the context's error;
    otherwise the call claims the slot first, gives it back last, on every
    path it returns by, and leaves the [fetching] map as it found it. *)
Theorem AcquireSector_single_flight (w : world) (r : Remote)
    (ctx_err : option error) (s : SectorID)
    (existing allocate : SectorFileType) (pathType : PathType)
    (op : AcquireMode) :
  Z.land existing allocate = 0 →
  (s ∈ fetching r →
   AcquireSector w r ctx_err s existing allocate pathType op
   = (r, [], match ctx_err with
             | Some e => Returned no_paths no_paths (Some e)
             | None => Waiting
             end))
  ∧ (s ∉ fetching r →
     ∃ tr paths stores err,
       AcquireSector w r ctx_err s existing allocate pathType op
       = (r, EvClaim s :: tr ++ [EvRelease s], Returned paths stores err)).
Proof.
  intros Hz.
  assert (both_find_and_allocate existing allocate = false) as Hg.
  { destruct (both_find_and_allocate existing allocate) eqn:E; [|done].
    apply both_find_and_allocate_iff in E. done. }
  unfold AcquireSector. rewrite Hg. split; intros Hin.
  - rewrite bool_decide_eq_true_2 by done. by destruct ctx_err.
  - rewrite bool_decide_eq_false_2 by done. cbv zeta. cbn [fetching].
    rewrite (fetching_released _ _ Hin).
    assert (r = {| fetching := fetching r |}) as <- by by destruct r.
    destruct (local_AcquireSector w s existing allocate pathType op)
      as [[paths stores] [e|]].
    { eexists [_], _, _, _. reflexivity. }
    destruct (local_AcquireSector w s FTNone _ pathType op)
      as [[apaths ids] [e|]].
    { eexists [_; _], _, _, _. reflexivity. }
    destruct (local_Reserve w s _) as [e|].
    { eexists [_; _; _], _, _, _. reflexivity. }
    destruct (fetch_types w s existing op apaths ids PathTypes paths stores)
      as [ev3 [[paths' stores'] err]].
    exists ([EvLocalAcquire s existing allocate;
             EvLocalAcquire s FTNone (toFetch_of existing paths);
             EvReserve s (toFetch_of existing paths)
               (if bool_decide (pathType = PathStorage)
                   || bool_decide (pathType = PathStoragePrefer)
                then FsOverheadFinalized else FSOverheadSeal)]
              ++ ev3 ++ [EvReleaseStorage]), paths', stores', err.
    simpl. rewrite <- !app_assoc. reflexivity.
Qed.

Lemma AcquireSector_single_flight_witness :
  let w := sample_world None ([peer1], None) (λ _, None) all_404 in
  (sid1 ∈ fetching {| fetching := {[sid1]} |} →
   AcquireSector w {| fetching := {[sid1]} |} None sid1 FTSealed FTCache
     PathSealing AcquireCopy
   = ({| fetching := {[sid1]} |}, [], Waiting))
  ∧ (sid1 ∉ fetching {| fetching := {[sid1]} |} →
     ∃ tr paths stores err,
       AcquireSector w {| fetching := {[sid1]} |} None sid1 FTSealed FTCache
         PathSealing AcquireCopy
       = ({| fetching := {[sid1]} |}, EvClaim sid1 :: tr ++ [EvRelease sid1],
          Returned paths stores err)).
Proof.
  apply (AcquireSector_single_flight
           (sample_world None ([peer1], None) (λ _, None) all_404)
           {| fetching := {[sid1]} |} None sid1 FTSealed FTCache
           PathSealing AcquireCopy).
  reflexivity.
Defined.

(** *** AcquireSector: everything is local *)

Definition all_present (existing : SectorFileType) (paths : SectorPaths) : Prop :=
  ∀ ft, ft ∈ PathTypes → Z.land ft existing ≠ 0 → PathByType paths ft ≠ "".

Lemma present_step (existing : SectorFileType) (paths : SectorPaths) ft :
  all_present existing paths → ft ∈ PathTypes →
  (Z.land ft existing =? 0) = true
  ∨ ((Z.land ft existing =? 0) = false
     ∧ String.eqb (PathByType paths ft) "" = false).
Proof.
  intros H Hin. destruct (Z.eqb_spec (Z.land ft existing) 0) as [|Hne]; [by left|].
  right. split; [done|]. apply String.eqb_neq. by apply H.
Qed.

Lemma toFetch_of_all_present existing paths :
  all_present existing paths → toFetch_of existing paths = 0.
Proof.
  intros H. unfold toFetch_of, PathTypes. simpl.
  destruct (present_step existing paths FTUnsealed H) as [->|[-> ->]];
    [set_solver| |];
    (destruct (present_step existing paths FTSealed H) as [->|[-> ->]];
     [set_solver| |]);
    (destruct (present_step existing paths FTCache H) as [->|[-> ->]];
     [set_solver| |]); reflexivity.
Qed.

Lemma fetch_types_all_present w s existing op apaths ids paths stores :
  all_present existing paths →
  fetch_types w s existing op apaths ids PathTypes paths stores
  = ([], (paths, stores, None)).
Proof.
  intros H. unfold PathTypes. simpl.
  destruct (present_step existing paths FTUnsealed H) as [->|[-> ->]];
    [set_solver| |];
    (destruct (present_step existing paths FTSealed H) as [->|[-> ->]];
     [set_solver| |]);
    (destruct (present_step existing paths FTCache H) as [->|[-> ->]];
     [set_solver| |]); reflexivity.
Qed.

(** X15. When the local store holds every file type asked for as existing,
    [AcquireSector] asks neither the index nor any peer: it returns the
    paths and store IDs of the local store, and the only calls it makes are
    the two local acquires (the second with nothing to allocate) and a
    reservation for nothing, which it releases. *)
Theorem AcquireSector_all_local (w : world) (r : Remote)
    (ctx_err : option error) (s : SectorID)
    (existing allocate : SectorFileType) (pathType : PathType)
    (op : AcquireMode) (paths stores apaths ids : SectorPaths) :
  Z.land existing allocate = 0 →
  s ∉ fetching r →
  local_AcquireSector w s existing allocate pathType op = (paths, stores, None) →
  all_present existing paths →
  local_AcquireSector w s FTNone 0 pathType op = (apaths, ids, None) →
  local_Reserve w s 0 = None →
  AcquireSector w r ctx_err s existing allocate pathType op
  = (r,
     [EvClaim s; EvLocalAcquire s existing allocate; EvLocalAcquire s FTNone 0;
      EvReserve s 0 (if bool_decide (pathType = PathStorage)
                        || bool_decide (pathType = PathStoragePrefer)
                     then FsOverheadFinalized else FSOverheadSeal);
      EvReleaseStorage; EvRelease s],
     Returned paths stores None).
Proof.
  intros Hz Hin Hl Hp Hl2 Hr.
  assert (both_find_and_allocate existing allocate = false) as Hg.
  { destruct (both_find_and_allocate existing allocate) eqn:E; [|done].
    apply both_find_and_allocate_iff in E. done. }
  unfold AcquireSector. rewrite Hg, bool_decide_eq_false_2 by done.
  cbv zeta. cbn [fetching].
  rewrite (fetching_released _ _ Hin), Hl.
  rewrite (toFetch_of_all_present _ _ Hp). unfold FTNone in *. rewrite Hl2, Hr.
  rewrite (fetch_types_all_present _ _ _ _ _ _ _ _ Hp). simpl.
  by destruct r.
Qed.

Definition local_paths : SectorPaths :=
  {| Unsealed := ""; Sealed := "/data/sealed/s-t01000-1";
     Cache := "/data/cache/s-t01000-1" |}.
Definition local_ids : SectorPaths :=
  {| Unsealed := ""; Sealed := "store-0"; Cache := "store-0" |}.

(** A world whose local store holds the sealed file and the cache of every
    sector. *)
Definition local_world : world :=
  {| local_AcquireSector := λ _ existing _ _ _,
       if existing =? 0 then (no_paths, no_paths, None)
       else (local_paths, local_ids, None);
     local_Reserve := λ _ _, None;
     local_Remove := λ _ _ _, None;
     local_FsStat := λ _, ({| Capacity := 100; Available := 40 |}, None);
     index_StorageFindSector := λ _ _, ([], None);
     index_StorageDeclareSector := λ _ _ _ _, None;
     index_StorageInfo := λ _, ([], None);
     sort_ties := λ l, l;
     filepath_Split := λ p, ("/data/sealed/", "s-t01000-1");
     filepath_Join := λ a b, a +:+ "/" +:+ b;
     os_MkdirAll := λ _, None;
     os_RemoveAll := λ _, None;
     fetch_answer := λ _ _, None;
     move_answer := λ _ _, None;
     http_NewRequest := λ _ _, None;
     http_Do := all_404;
     url_Parse := λ _, ("/remote", None);
     url_String := λ u p, p;
     gopath_Join3 := λ a b c, a +:+ "/" +:+ b +:+ "/" +:+ c;
     ioutil_ReadAll := λ b, (b, None);
     json_Decode := λ b, (zero_FsStat, None) |}.

Lemma AcquireSector_all_local_witness :
  AcquireSector local_world {| fetching := ∅ |} None sid1
    (Z.lor FTSealed FTCache) FTNone PathStorage AcquireMove
  = ({| fetching := ∅ |},
     [EvClaim sid1; EvLocalAcquire sid1 (Z.lor FTSealed FTCache) FTNone;
      EvLocalAcquire sid1 FTNone 0;
      EvReserve sid1 0 (if bool_decide (PathStorage = PathStorage)
                           || bool_decide (PathStorage = PathStoragePrefer)
                        then FsOverheadFinalized else FSOverheadSeal);
      EvReleaseStorage; EvRelease sid1],
     Returned local_paths local_ids None).
Proof.
  apply (AcquireSector_all_local local_world {| fetching := ∅ |} None sid1
           (Z.lor FTSealed FTCache) FTNone PathStorage AcquireMove
           local_paths local_ids no_paths no_paths).
  - reflexivity.
  - set_solver.
  - reflexivity.
  - intros ft Hft Hne. unfold PathTypes in Hft.
    apply elem_of_cons in Hft as [->|Hft]; [by elim Hne|].
    apply elem_of_cons in Hft as [->|Hft]; [discriminate|].
    apply elem_of_cons in Hft as [->|Hft]; [discriminate|].
    by apply elem_of_nil in Hft.
  - reflexivity.
  - reflexivity.
Defined.

(** *** acquireFromRemote: no location, and success *)

(** When the index knows no location for the file, [acquireFromRemote]
    returns an error that wraps [ErrSectorNotFound], having touched neither
    the file system nor the network. *)
Theorem acquireFromRemote_no_location (w : world) (s : SectorID)
    (fileType : SectorFileType) (dest : string) :
  index_StorageFindSector w s fileType = ([], None) →
  ∃ e, acquireFromRemote w s fileType dest
       = ([EvFindSector s fileType], ("", Some e))
       ∧ Is e ErrSectorNotFound = true.
Proof.
  intros H. unfold acquireFromRemote. rewrite H. simpl.
  eexists. split; reflexivity.
Qed.

Lemma acquireFromRemote_no_location_witness :
  ∃ e, acquireFromRemote local_world sid1 FTSealed "/data/sealed/s-t01000-1"
       = ([EvFindSector sid1 FTSealed], ("", Some e))
       ∧ Is e ErrSectorNotFound = true.
Proof.
  apply (acquireFromRemote_no_location local_world sid1 FTSealed
           "/data/sealed/s-t01000-1").
  reflexivity.
Defined.

Lemma tempFetchDest_cases w dest :
  (∃ e, tempFetchDest w dest true = ([EvMkdirAll (tempdir w dest)], ("", Some e)))
  ∨ tempFetchDest w dest true
    = ([EvMkdirAll (tempdir w dest)], (tempdest w dest, None)).
Proof.
  unfold tempFetchDest, tempdest, tempdir.
  destruct (filepath_Split w dest) as [st b]; simpl.
  destruct (os_MkdirAll w _); eauto.
Qed.

Lemma fetch_from_urls_success w dest id urls : ∀ merr ev m url,
  fetch_from_urls w dest id urls merr = (ev, m, Some (url, None)) →
  url ∈ urls
  ∧ fetch_answer w url (tempdest w dest) = None
  ∧ move_answer w (tempdest w dest) dest = None
  ∧ In (EvMove (tempdest w dest) dest) ev.
Proof.
  induction urls as [|u rest IH]; intros merr ev m url H; [done|].
  cbn [fetch_from_urls] in H.
  destruct (tempFetchDest_cases w dest) as [[e He]|He]; rewrite He in H;
    [done|].
  destruct (os_RemoveAll w dest); [done|].
  destruct (fetch_answer w u (tempdest w dest)) eqn:Hf.
  - destruct (fetch_from_urls w dest id rest _) as [[ev' m'] r'] eqn:Hrec.
    injection H as <- <- ->.
    destruct (IH _ _ _ _ Hrec) as (Hin & Hfa & Hmv & Hev).
    split; [by right|]. split; [done|]. split; [done|].
    simpl. tauto.
  - destruct (move_answer w (tempdest w dest) dest) eqn:Hm; [done|].
    injection H as <- <- <-.
    split; [by left|]. split; [done|]. split; [done|].
    simpl. tauto.
Qed.

Lemma fetch_from_infos_success w dest si : ∀ merr ev m url,
  fetch_from_infos w dest si merr = (ev, m, Some (url, None)) →
  (∃ info, info ∈ si ∧ url ∈ URLs info)
  ∧ fetch_answer w url (tempdest w dest) = None
  ∧ move_answer w (tempdest w dest) dest = None
  ∧ In (EvMove (tempdest w dest) dest) ev.
Proof.
  induction si as [|info rest IH]; intros merr ev m url H; [done|].
  cbn [fetch_from_infos] in H.
  destruct (fetch_from_urls w dest (ID info) (URLs info) merr)
    as [[ev1 m1] [x|]] eqn:Hu.
  - injection H as <- <- ->.
    destruct (fetch_from_urls_success _ _ _ _ _ _ _ _ Hu) as (Hin & Hf & Hm & Hev).
    split; [|done]. exists info. split; [by left|done].
  - destruct (fetch_from_infos w dest rest m1) as [[ev2 m2] r2] eqn:Hr.
    injection H as <- <- ->.
    destruct (IH _ _ _ _ Hr) as ([i [Hi Hu']] & Hf & Hm & Hev).
    split; [exists i; split; [by right|done]|].
    split; [done|]. split; [done|]. apply in_or_app. by right.
Qed.

(** X16. A URL that [acquireFromRemote] returns without error is one of the
    URLs that the index listed for the file, its fetch into the temporary
    file succeeded, and the temporary file was moved to the destination. *)
Theorem acquireFromRemote_returns_fetched_source (w : world) (s : SectorID)
    (fileType : SectorFileType) (dest url : string)
    (si : list SectorStorageInfo) :
  sort_Slice w si ≡ₚ si →
  fst (index_StorageFindSector w s fileType) = si →
  snd (acquireFromRemote w s fileType dest) = (url, None) →
  (∃ info, info ∈ si ∧ url ∈ URLs info)
  ∧ fetch_answer w url (tempdest w dest) = None
  ∧ move_answer w (tempdest w dest) dest = None
  ∧ In (EvMove (tempdest w dest) dest) (fst (acquireFromRemote w s fileType dest)).
Proof.
  intros Hperm Hsi H. unfold acquireFromRemote in *.
  destruct (index_StorageFindSector w s fileType) as [si' [e|]]; [done|].
  simpl in Hsi. subst si'.
  destruct (length si =? 0)%nat; [done|].
  destruct (fetch_from_infos w dest (sort_Slice w si) None)
    as [[ev m] [x|]] eqn:Hf; [|done].
  simpl in H. subst x.
  destruct (fetch_from_infos_success _ _ _ _ _ _ _ Hf)
    as ([i [Hi Hu]] & Hfa & Hm & Hev).
  split; [exists i; split; [by rewrite <- Hperm|done]|].
  split; [done|]. split; [done|]. simpl. by right.
Qed.

Lemma acquireFromRemote_returns_fetched_source_witness :
  let w := sample_world None ([peer1; peer2], None)
             (λ url, if String.eqb url "http://mirror-2:2345/remote/sealed/s-t01000-1"
                     then None else Some (New "non-200 code: 500")) all_404 in
  (∃ info, info ∈ [peer1; peer2]
           ∧ "http://mirror-2:2345/remote/sealed/s-t01000-1" ∈ URLs info)
  ∧ fetch_answer w "http://mirror-2:2345/remote/sealed/s-t01000-1"
      (tempdest w "/data/sealed/s-t01000-1") = None
  ∧ move_answer w (tempdest w "/data/sealed/s-t01000-1")
      "/data/sealed/s-t01000-1" = None
  ∧ In (EvMove (tempdest w "/data/sealed/s-t01000-1") "/data/sealed/s-t01000-1")
       (fst (acquireFromRemote w sid1 FTSealed "/data/sealed/s-t01000-1")).
Proof.
  apply (acquireFromRemote_returns_fetched_source
           (sample_world None ([peer1; peer2], None)
              (λ url, if String.eqb url "http://mirror-2:2345/remote/sealed/s-t01000-1"
                      then None else Some (New "non-200 code: 500")) all_404)
           sid1 FTSealed "/data/sealed/s-t01000-1"
           "http://mirror-2:2345/remote/sealed/s-t01000-1" [peer1; peer2]).
  - apply perm_swap.
  - reflexivity.
  - reflexivity.
Defined.

(** *** Remove: the guard on the file type *)

Lemma Pos_ones_pos (p : positive) : (1 ≤ Pos_ones p)%nat.
Proof. induction p; simpl; lia. Qed.

Lemma Pos_ones_one_iff (p : positive) :
  Pos_ones p = 1%nat ↔ ∃ n : nat, Zpos p = 2 ^ Z.of_nat n.
Proof.
  induction p as [q IH|q IH|]; cbn [Pos_ones].
  - split; [intros H|intros [n Hn]].
    + pose proof (Pos_ones_pos q). lia.
    + destruct n as [|m]; [simpl in Hn; lia|].
      rewrite Nat2Z.inj_succ, Z.pow_succ_r in Hn by lia. lia.
  - rewrite IH. split; intros [n Hn].
    + exists (S n). rewrite Nat2Z.inj_succ, Z.pow_succ_r by lia. lia.
    + destruct n as [|m]; [simpl in Hn; lia|].
      exists m. rewrite Nat2Z.inj_succ, Z.pow_succ_r in Hn by lia. lia.
  - split; [intros _; by exists 0%nat|done].
Qed.

Lemma OnesCount_one_iff (typ : Z) :
  OnesCount typ = 1%nat ↔ ∃ k, 0 ≤ k < 64 ∧ Z.modulo typ (2 ^ 64) = 2 ^ k.
Proof.
  unfold OnesCount.
  pose proof (Z.mod_pos_bound typ (2 ^ 64) ltac:(lia)) as Hb.
  destruct (Z.modulo typ (2 ^ 64)) as [|p|p] eqn:E.
  - split; [done|]. intros (k & Hk & H).
    pose proof (Z.pow_pos_nonneg 2 k ltac:(lia) ltac:(lia)). lia.
  - rewrite Pos_ones_one_iff. split.
    + intros [n Hn]. exists (Z.of_nat n). split; [|done].
      split; [lia|]. apply (Z.pow_lt_mono_r_iff 2); lia.
    + intros (k & Hk & H). exists (Z.to_nat k). rewrite Z2Nat.id by lia. done.
  - lia.
Qed.

(** X17. [Remove] turns a request down with "delete expects one file type",
    before it touches the local store, exactly when the low 64 bits of
    [typ] are not a single set bit (no file type, or more than one). *)
Theorem Remove_rejected_iff_not_one_bit (w : world) (sid : SectorID)
    (typ : SectorFileType) (force : bool) :
  Remove w sid typ force = ([], Some (New "delete expects one file type"))
  ↔ ¬ ∃ k, 0 ≤ k < 64 ∧ Z.modulo typ (2 ^ 64) = 2 ^ k.
Proof.
  rewrite <- OnesCount_one_iff. unfold Remove.
  destruct (Nat.eqb_spec (OnesCount typ) 1) as [E|E]; simpl.
  - split; [|done]. intros H.
    destruct (local_Remove w sid typ force); [done|].
    by destruct (index_StorageFindSector w sid typ) as [si [e|]].
  - done.
Qed.

(** *** FsStat: when the network is used *)

(** [FsStat] goes to the network only after the local store has
    answered [errPathNotFound], and then with a single GET request. *)
Theorem FsStat_asks_remote_only_after_local_miss (w : world) (id : string) :
  fst (FsStat w id) ≠ [] →
  snd (local_FsStat w id) = Some (Sentinel errPathNotFound)
  ∧ ∃ url, fst (FsStat w id) = [EvHttp "GET" url].
Proof.
  unfold FsStat.
  destruct (local_FsStat w id) as [st [e|]]; simpl; [|done].
  destruct e as [[]| | |]; simpl; try done.
  destruct (index_StorageInfo w id) as [urls [e|]]; simpl; [done|].
  destruct urls as [|url0 urls]; simpl; [done|].
  destruct (url_Parse w url0) as [path [e|]]; simpl; [done|].
  destruct (http_NewRequest w "GET" _); simpl; [done|].
  destruct (http_Do w "GET" _); simpl; eauto.
Qed.

Lemma FsStat_asks_remote_only_after_local_miss_witness :
  let w := sample_world None ([peer1], None) (λ _, None) all_404 in
  snd (local_FsStat w "store-1") = Some (Sentinel errPathNotFound)
  ∧ ∃ url, fst (FsStat w "store-1") = [EvHttp "GET" url].
Proof.
  apply (FsStat_asks_remote_only_after_local_miss
           (sample_world None ([peer1], None) (λ _, None) all_404) "store-1").
  discriminate.
Defined.

End stores_more_properties.

(** ** extern/sector-storage/stores/remote.go: fetch, checkAllocated,
    readRemote, CheckAllocated, Reader *)

Module remote_io.

Import stores.
#[local] Open Scope Z_scope.

Record response : Type := mkResp {
  StatusCode : Z;
  ContentType : string;       (* resp.Header.Get("Content-Type") *)
  Body : string
}.

Inductive do_answer : Type :=
| DoFail (e : error)
| DoResp (resp : response).

(** [r.limit], a channel of [struct{}] with a buffer of [fetchLimit]. *)
Record limiter : Type := mkLimit { tokens : nat; capacity : nat }.

Definition send (l : limiter) : limiter :=
  {| tokens := S (tokens l); capacity := capacity l |}.
Definition recv (l : limiter) : limiter :=
  {| tokens := Nat.pred (tokens l); capacity := capacity l |}.

(** The answers of HTTP, of the file system, of the partial-file package
    and of the library functions these functions call. *)
Record net : Type := mkNet {
  NewRequest : string → string → option error;
  Do : string → string → string → do_answer;    (* method, URL, Range header *)
  ParseMediaType : string → string * option error;
  RemoveAll : string → option error;
  ExtractTar : string → string → option error;
  Create : string → option error;
  CopyBuffer : string → string → option error;  (* body into the file *)
  CloseFile : string → option error;
  Unpadded : Z → Z;                              (* abi: padded to unpadded *)
  allocated_url : string → Z → Z → Z → string;   (* "%s/%d/allocated/%d/%d" *)
  range_header : Z → Z → string;                 (* "bytes=%d-%d" *)
  SectorSize : Z → Z * option error;             (* ProofType.SectorSize() *)
  OpenPartialFile : Z → string → option error;
  HasAllocated : string → Z → Z → bool * option error;
  ClosePartialFile : string → option error;
  PartialReader : string → Z → Z → option error
}.

Inductive event : Type :=
| EvSend                         (* r.limit <- struct{}{} *)
| EvRecv                         (* <-r.limit *)
| EvDo (method url range : string)
| EvCloseBody
| EvRemoveAll (p : string)
| EvExtractTar (out : string)
| EvCreate (out : string)
| EvCopy (out : string)
| EvCloseFile (out : string)
| EvLocalAcquire (s : SectorID) (existing allocate : SectorFileType)
| EvFindSector (s : SectorID) (ft : SectorFileType)
| EvOpenPartial (p : string)
| EvClosePartial (p : string)
| EvWarn (msg : string).

(** Which arm a [select] takes when both are ready. *)
Inductive select_arm : Type := ArmSend | ArmCtxDone.

(** The [select] on the limiter and the context: the token is taken, or the
    context's error is returned, or the goroutine stays parked. *)
Inductive selected : Type := GotToken | GotCtxDone (e : error) | Parked.

Definition select_limit (lim : limiter) (ctx_err : option error)
    (arm : select_arm) : selected :=
  if (tokens lim <? capacity lim)%nat then
    match ctx_err, arm with
    | Some e, ArmCtxDone => GotCtxDone e
    | _, _ => GotToken
    end
  else
    match ctx_err with
    | Some e => GotCtxDone e
    | None => Parked
    end.

(** What [fetch] does once it holds the token, up to its return; the
    deferred [resp.Body.Close()] is the last event when a response came. *)
Definition fetch_body (n : net) (url outname : string)
  : list event * option error :=
  match NewRequest n "GET" url with
  | Some err => ([], Some (Errorf "request" (Some err)))
  | None =>
      match Do n "GET" url "" with
      | DoFail err => ([EvDo "GET" url ""], Some (Errorf "do request" (Some err)))
      | DoResp resp =>
          let '(ev, err) :=
            if negb (StatusCode resp =? 200) then ([], Some (New "non-200 code"))
            else
              let '(mediatype, perr) := ParseMediaType n (ContentType resp) in
              match perr with
              | Some err => ([], Some (Errorf "parse media type" (Some err)))
              | None =>
                  match RemoveAll n outname with
                  | Some err =>
                      ([EvRemoveAll outname],
                       Some (Errorf "removing dest" (Some err)))
                  | None =>
                      if String.eqb mediatype "application/x-tar" then
                        ([EvRemoveAll outname; EvExtractTar outname],
                         ExtractTar n (Body resp) outname)
                      else if String.eqb mediatype "application/octet-stream" then
                        match Create n outname with
                        | Some err =>
                            ([EvRemoveAll outname; EvCreate outname], Some err)
                        | None =>
                            match CopyBuffer n (Body resp) outname with
                            | Some err =>
                                ([EvRemoveAll outname; EvCreate outname;
                                  EvCopy outname; EvCloseFile outname], Some err)
                            | None =>
                                ([EvRemoveAll outname; EvCreate outname;
                                  EvCopy outname; EvCloseFile outname],
                                 CloseFile n outname)
                            end
                        end
                      else
                        ([EvRemoveAll outname],
                         Some (New ("unknown content type: '" +:+ mediatype
                                    +:+ "'")))
                  end
              end in
          (EvDo "GET" url "" :: ev ++ [EvCloseBody], err)
      end
  end.

Inductive fetch_result : Type :=
| FetchReturned (err : option error)
| FetchParked.

(** [fetch]: the limiter as the call leaves it, the events, the result. *)
Definition fetch (n : net) (lim : limiter) (ctx_err : option error)
    (arm : select_arm) (url outname : string)
  : limiter * list event * fetch_result :=
  match select_limit lim ctx_err arm with
  | Parked => (lim, [], FetchParked)
  | GotCtxDone e =>
      (lim, [],
       FetchReturned
         (Some (Errorf "context error while waiting for fetch limiter" (Some e))))
  | GotToken =>
      let held := send lim in
      let '(ev, err) := fetch_body n url outname in
      (recv held, EvSend :: ev ++ [EvRecv], FetchReturned err)
  end.

Definition checkAllocated (n : net) (url : string) (spt offset size : Z)
  : list event * (bool * option error) :=
  let url := allocated_url n url spt (Unpadded n offset) (Unpadded n size) in
  match NewRequest n "GET" url with
  | Some err => ([], (false, Some (Errorf "request" (Some err))))
  | None =>
      match Do n "GET" url "" with
      | DoFail err =>
          ([EvDo "GET" url ""], (false, Some (Errorf "do request" (Some err))))
      | DoResp resp =>
          ([EvDo "GET" url ""; EvCloseBody],
           if StatusCode resp =? 200 then (true, None)
           else if StatusCode resp =? 416 then (false, None)
           else (false, Some (New "unexpected http response")))
      end
  end.

(** A reader handed back by [Reader]: the body of a remote response, or a
    reader on the local partial file. *)
Inductive reader : Type :=
| RemoteBody (url : string) (body : string)
| LocalFile (path : string) (offset size : Z).

Inductive read_result : Type :=
| ReadReturned (rd : option reader) (err : option error)
| ReadParked.

Definition readRemote (n : net) (lim : limiter) (ctx_err : option error)
    (arm : select_arm) (url : string) (offset size : Z)
  : limiter * list event * read_result :=
  match select_limit lim ctx_err arm with
  | Parked => (lim, [], ReadParked)
  | GotCtxDone e =>
      (lim, [],
       ReadReturned None
         (Some (Errorf "context error while waiting for fetch limiter" (Some e))))
  | GotToken =>
      let held := send lim in
      let '(ev, res) :=
        match NewRequest n "GET" url with
        | Some err => ([], ReadReturned None (Some (Errorf "request" (Some err))))
        | None =>
            let range := range_header n offset (offset + size - 1) in
            match Do n "GET" url range with
            | DoFail err =>
                ([EvDo "GET" url range],
                 ReadReturned None (Some (Errorf "do request" (Some err))))
            | DoResp resp =>
                if negb (StatusCode resp =? 200) && negb (StatusCode resp =? 206)
                then ([EvDo "GET" url range; EvCloseBody],
                      ReadReturned None (Some (New "non-200 code")))
                else ([EvDo "GET" url range],
                      ReadReturned (Some (RemoteBody url (Body resp))) None)
            end
        end in
      (recv held, EvSend :: ev ++ [EvRecv], res)
  end.

(** The two loops of the remote arm of [CheckAllocated]: [true] as soon as
    a URL answers that the range is allocated; a probe that fails is logged
    and skipped. *)
Fixpoint probe_urls (n : net) (spt offset size : Z) (urls : list string)
  : list event * bool :=
  match urls with
  | [] => ([], false)
  | url :: rest =>
      let '(ev, (ok, err)) := checkAllocated n url spt offset size in
      match err with
      | Some _ =>
          let '(ev', b) := probe_urls n spt offset size rest in
          (ev ++ [EvWarn "check if remote has piece"] ++ ev', b)
      | None =>
          if ok then (ev, true)
          else let '(ev', b) := probe_urls n spt offset size rest in
               (ev ++ ev', b)
      end
  end.

Fixpoint probe_infos (n : net) (spt offset size : Z)
    (si : list SectorStorageInfo) : list event * bool :=
  match si with
  | [] => ([], false)
  | info :: rest =>
      let '(ev, b) := probe_urls n spt offset size (URLs info) in
      if b then (ev, true)
      else let '(ev', b') := probe_infos n spt offset size rest in
           (ev ++ ev', b')
  end.

(** [CheckAllocated]; [spt] is the proof type of the sector reference. *)
Definition CheckAllocated (w : world) (n : net) (s : SectorID) (spt : Z)
    (offset size : Z) (ft : SectorFileType)
  : list event * (bool * option error) :=
  if negb (ft =? FTUnsealed) then
    ([], (false, Some (New "CheckAllocated only supports unsealed files")))
  else
    let '(paths, _, err) :=
      local_AcquireSector w s ft FTNone PathStorage AcquireMove in
    match err with
    | Some e =>
        ([EvLocalAcquire s ft FTNone],
         (false, Some (Errorf "acquire local" (Some e))))
    | None =>
        let path := PathByType paths ft in
        if String.eqb path "" then
          let '(si, err) := index_StorageFindSector w s ft in
          match err with
          | Some e =>
              ([EvLocalAcquire s ft FTNone; EvFindSector s ft], (false, Some e))
          | None =>
              if (length si =? 0)%nat then
                ([EvLocalAcquire s ft FTNone; EvFindSector s ft],
                 (false,
                  Some (Errorf "failed to read sector from remote"
                          (Some (Sentinel ErrSectorNotFound)))))
              else
                let '(ev, b) :=
                  probe_infos n spt offset size (sort_Slice w si) in
                ([EvLocalAcquire s ft FTNone; EvFindSector s ft] ++ ev,
                 (b, None))
          end
        else
          let '(ssize, err) := SectorSize n spt in
          match err with
          | Some e => ([EvLocalAcquire s ft FTNone], (false, Some e))
          | None =>
              match OpenPartialFile n ssize path with
              | Some e =>
                  ([EvLocalAcquire s ft FTNone; EvOpenPartial path],
                   (false, Some (Errorf "opening partial file" (Some e))))
              | None =>
                  let '(has, err) :=
                    HasAllocated n path (Unpadded n offset) (Unpadded n size) in
                  match err with
                  | Some e =>
                      ([EvLocalAcquire s ft FTNone; EvOpenPartial path],
                       (false, Some (Errorf "has allocated" (Some e))))
                  | None =>
                      ([EvLocalAcquire s ft FTNone; EvOpenPartial path],
                       (has, None))
                  end
              end
          end
    end.

(** How the loop over the URLs of one location ends in [Reader]: with
    [break iloop] and the reader obtained, with the URLs used up, or parked
    on the limiter inside [readRemote]. *)
Inductive read_loop : Type :=
| LoopBreak (rd : option reader)
| LoopNext
| LoopParked.

Fixpoint read_urls (n : net) (lim : limiter) (ctx_err : option error)
    (arm : select_arm) (spt offset size : Z) (urls : list string)
  : limiter * list event * read_loop :=
  match urls with
  | [] => (lim, [], LoopNext)
  | url :: rest =>
      let '(ev, (ok, err)) := checkAllocated n url spt offset size in
      match err with
      | Some _ =>
          let '(lim', ev', r) :=
            read_urls n lim ctx_err arm spt offset size rest in
          (lim', ev ++ [EvWarn "check if remote has piece"] ++ ev', r)
      | None =>
          if negb ok then
            let '(lim', ev', r) :=
              read_urls n lim ctx_err arm spt offset size rest in
            (lim', ev ++ ev', r)
          else
            let '(lim1, ev1, res) :=
              readRemote n lim ctx_err arm url offset size in
            match res with
            | ReadParked => (lim1, ev ++ ev1, LoopParked)
            | ReadReturned _ (Some _) =>
                let '(lim', ev', r) :=
                  read_urls n lim1 ctx_err arm spt offset size rest in
                (lim', ev ++ ev1 ++ [EvWarn "reading from remote"] ++ ev', r)
            | ReadReturned rd None => (lim1, ev ++ ev1, LoopBreak rd)
            end
      end
  end.

Fixpoint read_infos (n : net) (lim : limiter) (ctx_err : option error)
    (arm : select_arm) (spt offset size : Z) (si : list SectorStorageInfo)
  : limiter * list event * read_loop :=
  match si with
  | [] => (lim, [], LoopNext)
  | info :: rest =>
      let '(lim1, ev, r) :=
        read_urls n lim ctx_err arm spt offset size (URLs info) in
      match r with
      | LoopNext =>
          let '(lim', ev', r') :=
            read_infos n lim1 ctx_err arm spt offset size rest in
          (lim', ev ++ ev', r')
      | _ => (lim1, ev, r)
      end
  end.

(** [Reader]. *)
Definition Reader (w : world) (n : net) (lim : limiter)
    (ctx_err : option error) (arm : select_arm) (s : SectorID) (spt : Z)
    (offset size : Z) (ft : SectorFileType)
  : limiter * list event * read_result :=
  if negb (ft =? FTUnsealed) then
    (lim, [],
     ReadReturned None (Some (New "reader only supports unsealed files")))
  else
    let '(paths, _, err) :=
      local_AcquireSector w s ft FTNone PathStorage AcquireMove in
    match err with
    | Some e =>
        (lim, [EvLocalAcquire s ft FTNone],
         ReadReturned None (Some (Errorf "acquire local" (Some e))))
    | None =>
        let path := PathByType paths ft in
        if String.eqb path "" then
          let '(si, err) := index_StorageFindSector w s ft in
          match err with
          | Some e =>
              (lim, [EvLocalAcquire s ft FTNone; EvFindSector s ft],
               ReadReturned None (Some e))
          | None =>
              if (length si =? 0)%nat then
                (lim, [EvLocalAcquire s ft FTNone; EvFindSector s ft],
                 ReadReturned None
                   (Some (Errorf "failed to read sector from remote"
                            (Some (Sentinel ErrSectorNotFound)))))
              else
                let '(lim', ev, r) :=
                  read_infos n lim ctx_err arm spt offset size
                    (sort_Slice w si) in
                (lim', [EvLocalAcquire s ft FTNone; EvFindSector s ft] ++ ev,
                 match r with
                 | LoopBreak rd => ReadReturned rd None
                 | LoopNext => ReadReturned None None
                 | LoopParked => ReadParked
                 end)
          end
        else
          let '(ssize, err) := SectorSize n spt in
          match err with
          | Some e =>
              (lim, [EvLocalAcquire s ft FTNone], ReadReturned None (Some e))
          | None =>
              match OpenPartialFile n ssize path with
              | Some e =>
                  (lim, [EvLocalAcquire s ft FTNone; EvOpenPartial path],
                   ReadReturned None
                     (Some (Errorf "opening partial file" (Some e))))
              | None =>
                  let '(has, err) :=
                    HasAllocated n path (Unpadded n offset) (Unpadded n size) in
                  match err with
                  | Some e =>
                      (lim, [EvLocalAcquire s ft FTNone; EvOpenPartial path],
                       ReadReturned None
                         (Some (Errorf "has allocated" (Some e))))
                  | None =>
                      if negb has then
                        match ClosePartialFile n path with
                        | Some e =>
                            (lim,
                             [EvLocalAcquire s ft FTNone; EvOpenPartial path;
                              EvClosePartial path],
                             ReadReturned None
                               (Some (Errorf "close partial file" (Some e))))
                        | None =>
                            (lim,
                             [EvLocalAcquire s ft FTNone; EvOpenPartial path;
                              EvClosePartial path],
                             ReadReturned None None)
                        end
                      else
                        (lim, [EvLocalAcquire s ft FTNone; EvOpenPartial path],
                         match PartialReader n path offset size with
                         | Some e => ReadReturned None (Some e)
                         | None =>
                             ReadReturned (Some (LocalFile path offset size)) None
                         end)
                  end
              end
          end
    end.

End remote_io.

Section remote_io_properties.

Import stores remote_io.
#[local] Open Scope Z_scope.

(** A peer that serves every URL with the given response, on a file system
    that never fails; ranges are reported allocated by the status of the
    response. *)
Definition sample_net (resp : string → response) : net :=
  {| NewRequest := λ _ _, None;
     Do := λ _ url _, DoResp (resp url);
     ParseMediaType := λ ct, (ct, None);
     RemoveAll := λ _, None;
     ExtractTar := λ _ _, None;
     Create := λ _, None;
     CopyBuffer := λ _ _, None;
     CloseFile := λ _, None;
     Unpadded := λ x, x - x / 128;
     allocated_url := λ url _ _ _, url +:+ "/allocated";
     range_header := λ _ _, "bytes";
     SectorSize := λ _, (2048, None);
     OpenPartialFile := λ _ _, None;
     HasAllocated := λ _ _ _, (true, None);
     ClosePartialFile := λ _, None;
     PartialReader := λ _ _ _, None |}.

Definition tar_200 : string → response :=
  λ _, {| StatusCode := 200; ContentType := "application/x-tar"; Body := "tar" |}.
Definition html_200 : string → response :=
  λ _, {| StatusCode := 200; ContentType := "text/html"; Body := "<html>" |}.
Definition gone_404 : string → response :=
  λ _, {| StatusCode := 404; ContentType := "text/plain"; Body := "" |}.

Definition free2 : limiter := {| tokens := 0; capacity := 2 |}.

Lemma recv_send lim : recv (send lim) = lim.
Proof. by destruct lim. Qed.

(** X18. [fetch] returns nil only for a response with status 200 whose
    media type is [application/x-tar] or [application/octet-stream], after
    the old destination has been removed, and the archive extracted or the
    file created, written and closed without error. *)
Theorem fetch_succeeds_only_on_200_tar_or_octets (n : net) (lim lim' : limiter)
    (ctx_err : option error) (arm : select_arm) (url outname : string)
    (ev : list event) :
  fetch n lim ctx_err arm url outname = (lim', ev, FetchReturned None) →
  ∃ resp, Do n "GET" url "" = DoResp resp
    ∧ StatusCode resp = 200
    ∧ RemoveAll n outname = None
    ∧ ((fst (ParseMediaType n (ContentType resp)) = "application/x-tar"
        ∧ ExtractTar n (Body resp) outname = None)
       ∨ (fst (ParseMediaType n (ContentType resp)) = "application/octet-stream"
          ∧ Create n outname = None
          ∧ CopyBuffer n (Body resp) outname = None
          ∧ CloseFile n outname = None)).
Proof.
  unfold fetch, fetch_body.
  destruct (select_limit lim ctx_err arm); [|done|done].
  destruct (NewRequest n "GET" url); [done|].
  destruct (Do n "GET" url "") as [e|resp]; [done|].
  destruct (Z.eqb_spec (StatusCode resp) 200) as [E|E]; simpl; [|done].
  destruct (ParseMediaType n (ContentType resp)) as [mt [e|]] eqn:Hp; simpl;
    [done|].
  destruct (RemoveAll n outname); [done|].
  destruct (String.eqb_spec mt "application/x-tar") as [->|_].
  { intros H. injection H as _ _ H. exists resp. rewrite Hp. simpl.
    repeat (split; [done|]). by left. }
  destruct (String.eqb_spec mt "application/octet-stream") as [->|_]; [|done].
  destruct (Create n outname); [done|].
  destruct (CopyBuffer n (Body resp) outname) eqn:Hc; [done|].
  intros H. injection H as _ _ H. exists resp. rewrite Hp. simpl.
  repeat (split; [done|]). by right.
Qed.

Lemma fetch_succeeds_only_on_200_tar_or_octets_witness :
  ∃ resp, Do (sample_net tar_200) "GET" "http://peer-1/s" "" = DoResp resp
    ∧ StatusCode resp = 200
    ∧ RemoveAll (sample_net tar_200) "/data/fetching/s" = None
    ∧ ((fst (ParseMediaType (sample_net tar_200) (ContentType resp))
        = "application/x-tar"
        ∧ ExtractTar (sample_net tar_200) (Body resp) "/data/fetching/s" = None)
       ∨ (fst (ParseMediaType (sample_net tar_200) (ContentType resp))
          = "application/octet-stream"
          ∧ Create (sample_net tar_200) "/data/fetching/s" = None
          ∧ CopyBuffer (sample_net tar_200) (Body resp) "/data/fetching/s" = None
          ∧ CloseFile (sample_net tar_200) "/data/fetching/s" = None)).
Proof.
  apply (fetch_succeeds_only_on_200_tar_or_octets (sample_net tar_200)
           free2 free2 None ArmSend "http://peer-1/s" "/data/fetching/s"
           [EvSend; EvDo "GET" "http://peer-1/s" "";
            EvRemoveAll "/data/fetching/s"; EvExtractTar "/data/fetching/s";
            EvCloseBody; EvRecv]).
  reflexivity.
Defined.

(** X19. [fetch] leaves the limiter as it found it.  It stays parked
    exactly when no token is free and the context is live; otherwise it
    either makes no call at all, or takes a token that was free as its
    first step and gives it back as its last. *)
Theorem fetch_gives_the_token_back (n : net) (lim : limiter)
    (ctx_err : option error) (arm : select_arm) (url outname : string) :
  fst (fst (fetch n lim ctx_err arm url outname)) = lim
  ∧ (snd (fetch n lim ctx_err arm url outname) = FetchParked
     ↔ (capacity lim ≤ tokens lim)%nat ∧ ctx_err = None)
  ∧ (snd (fst (fetch n lim ctx_err arm url outname)) = []
     ∨ ((tokens lim < capacity lim)%nat
        ∧ ∃ mid, snd (fst (fetch n lim ctx_err arm url outname))
                 = EvSend :: mid ++ [EvRecv])).
Proof.
  unfold fetch, select_limit.
  destruct (Nat.ltb_spec (tokens lim) (capacity lim)) as [Hlt|Hge].
  - assert (∀ (b : list event * option error),
              fst (fst (let '(ev, err) := b in
                        (recv (send lim), EvSend :: ev ++ [EvRecv],
                         FetchReturned err))) = lim
              ∧ (snd (let '(ev, err) := b in
                      (recv (send lim), EvSend :: ev ++ [EvRecv],
                       FetchReturned err)) = FetchParked
                 ↔ (capacity lim ≤ tokens lim)%nat ∧ ctx_err = None)
              ∧ (snd (fst (let '(ev, err) := b in
                           (recv (send lim), EvSend :: ev ++ [EvRecv],
                            FetchReturned err))) = []
                 ∨ ((tokens lim < capacity lim)%nat
                    ∧ ∃ mid, snd (fst (let '(ev, err) := b in
                                       (recv (send lim), EvSend :: ev ++ [EvRecv],
                                        FetchReturned err)))
                             = EvSend :: mid ++ [EvRecv]))) as Hbody.
    { intros [ev err]. simpl. rewrite recv_send.
      split; [done|]. split; [split; [done|lia]|]. right. eauto. }
    destruct ctx_err as [e|]; [destruct arm|]; try apply Hbody.
    simpl. split; [done|]. split; [|by left]. split; [done|]. intros [_ ?]; done.
  - destruct ctx_err as [e|]; simpl.
    + split; [done|]. split; [|by left]. split; [done|]. intros [_ ?]; done.
    + split; [done|]. split; [|by left]. split; [done|]. done.
Qed.

(** X20. A fetch that does not get a response with status 200 fails and
    leaves the destination alone: it neither removes it, nor creates it,
    nor extracts into it. *)
Theorem fetch_without_200_leaves_destination (n : net) (lim : limiter)
    (ctx_err : option error) (arm : select_arm) (url outname : string) :
  (∀ resp, Do n "GET" url "" = DoResp resp → StatusCode resp ≠ 200) →
  snd (fetch n lim ctx_err arm url outname) ≠ FetchReturned None
  ∧ ∀ p, ¬ In (EvRemoveAll p) (snd (fst (fetch n lim ctx_err arm url outname)))
         ∧ ¬ In (EvCreate p) (snd (fst (fetch n lim ctx_err arm url outname)))
         ∧ ¬ In (EvExtractTar p) (snd (fst (fetch n lim ctx_err arm url outname))).
Proof.
  intros H. unfold fetch, fetch_body.
  destruct (select_limit lim ctx_err arm); simpl; [|by auto|by auto].
  destruct (NewRequest n "GET" url); simpl.
  { split; [done|]. intros p. repeat split; intros [?|[?|[]]]; done. }
  destruct (Do n "GET" url "") as [e|resp] eqn:E; simpl.
  { split; [done|].
    intros p. repeat split; intros [?|[?|[?|[]]]]; done. }
  specialize (H resp eq_refl).
  destruct (Z.eqb_spec (StatusCode resp) 200) as [|_]; [done|]. simpl.
  split; [done|].
  intros p. repeat split; intros [?|[?|[?|[?|[]]]]]; done.
Qed.

Lemma fetch_without_200_leaves_destination_witness :
  snd (fetch (sample_net gone_404) free2 None ArmSend "http://peer-1/s"
         "/data/fetching/s") ≠ FetchReturned None
  ∧ ∀ p, ¬ In (EvRemoveAll p)
             (snd (fst (fetch (sample_net gone_404) free2 None ArmSend
                          "http://peer-1/s" "/data/fetching/s")))
         ∧ ¬ In (EvCreate p)
               (snd (fst (fetch (sample_net gone_404) free2 None ArmSend
                            "http://peer-1/s" "/data/fetching/s")))
         ∧ ¬ In (EvExtractTar p)
               (snd (fst (fetch (sample_net gone_404) free2 None ArmSend
                            "http://peer-1/s" "/data/fetching/s"))).
Proof.
  apply (fetch_without_200_leaves_destination (sample_net gone_404) free2 None
           ArmSend "http://peer-1/s" "/data/fetching/s").
  intros resp H. injection H as <-. simpl. discriminate.
Defined.

(** X21. A response with status 200 and a media type other than the two
    that [fetch] knows makes it fail with "unknown content type" after it
    has removed the destination: the old file is gone and nothing has been
    written in its place. *)
Theorem fetch_unknown_type_removes_destination (n : net) (lim : limiter)
    (url outname : string) (resp : response) (mt : string) :
  (tokens lim < capacity lim)%nat →
  NewRequest n "GET" url = None →
  Do n "GET" url "" = DoResp resp →
  StatusCode resp = 200 →
  ParseMediaType n (ContentType resp) = (mt, None) →
  mt ≠ "application/x-tar" → mt ≠ "application/octet-stream" →
  RemoveAll n outname = None →
  fetch n lim None ArmSend url outname
  = (lim, [EvSend; EvDo "GET" url ""; EvRemoveAll outname; EvCloseBody; EvRecv],
     FetchReturned (Some (New ("unknown content type: '" +:+ mt +:+ "'")))).
Proof.
  intros Hl Hn Hd Hs Hp Ht Ho Hr. unfold fetch, select_limit, fetch_body.
  destruct (Nat.ltb_spec (tokens lim) (capacity lim)); [|lia].
  rewrite Hn, Hd, Hs, Hp, Hr. simpl.
  destruct (String.eqb_spec mt "application/x-tar"); [done|].
  destruct (String.eqb_spec mt "application/octet-stream"); [done|].
  simpl. by rewrite recv_send.
Qed.

Lemma fetch_unknown_type_removes_destination_witness :
  fetch (sample_net html_200) free2 None ArmSend "http://peer-1/s"
    "/data/fetching/s"
  = (free2,
     [EvSend; EvDo "GET" "http://peer-1/s" ""; EvRemoveAll "/data/fetching/s";
      EvCloseBody; EvRecv],
     FetchReturned (Some (New ("unknown content type: '" +:+ "text/html" +:+ "'")))).
Proof.
  apply (fetch_unknown_type_removes_destination (sample_net html_200) free2
           "http://peer-1/s" "/data/fetching/s" (html_200 "") "text/html");
    try reflexivity; try discriminate.
  simpl. lia.
Defined.

(** *** CheckAllocated and Reader on remote copies *)

(** A URL at which the probe answers that the range is allocated. *)
Definition allocated_at (n : net) (spt offset size : Z) (url : string) : Prop :=
  snd (checkAllocated n url spt offset size) = (true, None).

Lemma probe_urls_true_iff n spt offset size urls :
  snd (probe_urls n spt offset size urls) = true
  ↔ ∃ url, url ∈ urls ∧ allocated_at n spt offset size url.
Proof.
  unfold allocated_at. induction urls as [|u rest IH].
  - simpl. split; [done|]. intros (url & Hin & _). by apply elem_of_nil in Hin.
  - cbn [probe_urls].
    destruct (checkAllocated n u spt offset size) as [ev [ok [e|]]] eqn:E;
      destruct (probe_urls n spt offset size rest) as [ev' b]; simpl in *.
    + rewrite IH. split.
      * intros (url & Hin & H). exists url. split; [by right|done].
      * intros (url & Hin & H). apply elem_of_cons in Hin as [->|Hin].
        -- rewrite E in H. done.
        -- eauto.
    + destruct ok; simpl.
      * split; [|done]. intros _. exists u. split; [by left|]. by rewrite E.
      * rewrite IH. split.
        -- intros (url & Hin & H). exists url. split; [by right|done].
        -- intros (url & Hin & H). apply elem_of_cons in Hin as [->|Hin].
           ++ rewrite E in H. done.
           ++ eauto.
Qed.

Lemma probe_infos_true_iff n spt offset size si :
  snd (probe_infos n spt offset size si) = true
  ↔ ∃ info url, info ∈ si ∧ url ∈ URLs info ∧ allocated_at n spt offset size url.
Proof.
  induction si as [|info rest IH].
  - simpl. split; [done|]. intros (i & url & Hin & _). by apply elem_of_nil in Hin.
  - cbn [probe_infos].
    pose proof (probe_urls_true_iff n spt offset size (URLs info)) as Hu.
    destruct (probe_urls n spt offset size (URLs info)) as [ev b].
    destruct (probe_infos n spt offset size rest) as [ev' b'].
    simpl in *. destruct b; simpl.
    + split; [|done]. intros _. destruct Hu as [Hu _].
      destruct (Hu eq_refl) as (url & Hin & H).
      exists info, url. split; [by left|done].
    + rewrite IH. split.
      * intros (i & url & Hi & H). exists i, url. split; [by right|done].
      * intros (i & url & Hi & Hin & H). apply elem_of_cons in Hi as [->|Hi].
        -- destruct Hu as [_ Hu]. discriminate Hu. eauto.
        -- eauto.
Qed.

(** X22. For an unsealed file that the local store does not hold and the
    index knows at one location at least, [CheckAllocated] never returns an
    error: probes that fail are skipped, and the answer is [true] exactly
    when the probe of one of the listed URLs says that the range is
    allocated. *)
Theorem CheckAllocated_remote_skips_failed_probes (w : world) (n : net)
    (s : SectorID) (spt offset size : Z) (paths stores : SectorPaths)
    (si : list SectorStorageInfo) :
  local_AcquireSector w s FTUnsealed FTNone PathStorage AcquireMove
  = (paths, stores, None) →
  Unsealed paths = "" →
  index_StorageFindSector w s FTUnsealed = (si, None) →
  si ≠ [] →
  sort_Slice w si ≡ₚ si →
  ∃ ev b,
    CheckAllocated w n s spt offset size FTUnsealed = (ev, (b, None))
    ∧ (b = true
       ↔ ∃ info url, info ∈ si ∧ url ∈ URLs info
                     ∧ allocated_at n spt offset size url).
Proof.
  intros Hl Hp Hi Hne Hperm. unfold CheckAllocated. simpl negb. cbv iota.
  rewrite Hl. unfold PathByType. simpl. rewrite Hp. simpl. rewrite Hi.
  destruct si as [|i0 si0]; [done|]. simpl length. simpl Nat.eqb. cbv iota.
  pose proof (probe_infos_true_iff n spt offset size (sort_Slice w (i0 :: si0)))
    as H.
  destruct (probe_infos n spt offset size (sort_Slice w (i0 :: si0))) as [ev b].
  eexists _, b. split; [reflexivity|]. simpl in H. rewrite H.
  split; intros (i & url & Hin & Hr); exists i, url; split; try done.
  - by rewrite <- Hperm.
  - by rewrite Hperm.
Qed.

Definition unsealed_peer : SectorStorageInfo :=
  {| ID := "store-1"; URLs := ["http://peer-1:2345/remote/unsealed/s-t01000-1"];
     Weight := 10 |}.

Lemma CheckAllocated_remote_skips_failed_probes_witness :
  let w := sample_world None ([unsealed_peer], None) (λ _, None) all_404 in
  ∃ ev b,
    CheckAllocated w (sample_net gone_404) sid1 8 0 2048 FTUnsealed
    = (ev, (b, None))
    ∧ (b = true
       ↔ ∃ info url, info ∈ [unsealed_peer] ∧ url ∈ URLs info
                     ∧ allocated_at (sample_net gone_404) 8 0 2048 url).
Proof.
  apply (CheckAllocated_remote_skips_failed_probes
           (sample_world None ([unsealed_peer], None) (λ _, None) all_404)
           (sample_net gone_404) sid1 8 0 2048 no_paths no_paths
           [unsealed_peer]).
  - reflexivity.
  - reflexivity.
  - reflexivity.
  - discriminate.
  - reflexivity.
Defined.

Lemma readRemote_ok n lim ctx_err arm url offset size l ev rd :
  readRemote n lim ctx_err arm url offset size = (l, ev, ReadReturned rd None) →
  ∃ body, rd = Some (RemoteBody url body).
Proof.
  unfold readRemote. destruct (select_limit lim ctx_err arm); [|done|done].
  destruct (NewRequest n "GET" url); [done|].
  destruct (Do n "GET" url _) as [e|resp]; [done|].
  destruct (negb (StatusCode resp =? 200) && negb (StatusCode resp =? 206));
    [done|].
  intros H. injection H as _ _ <-. eauto.
Qed.

Lemma read_urls_break n ctx_err arm spt offset size urls : ∀ lim l ev rd,
  read_urls n lim ctx_err arm spt offset size urls = (l, ev, LoopBreak rd) →
  ∃ url body, rd = Some (RemoteBody url body) ∧ url ∈ urls
              ∧ allocated_at n spt offset size url.
Proof.
  unfold allocated_at.
  induction urls as [|u rest IH]; intros lim l ev rd H; [done|].
  cbn [read_urls] in H.
  destruct (checkAllocated n u spt offset size) as [ev0 [ok [e|]]] eqn:E.
  - destruct (read_urls n lim ctx_err arm spt offset size rest)
      as [[l' ev'] r] eqn:Hr.
    injection H as _ _ ->.
    destruct (IH _ _ _ _ Hr) as (url & body & -> & Hin & Ha).
    exists url, body. split; [done|]. split; [by right|done].
  - destruct ok; simpl in H.
    + destruct (readRemote n lim ctx_err arm u offset size)
        as [[l1 ev1] res] eqn:Hrr.
      destruct res as [rd' [e|]|]; [| |done].
      * destruct (read_urls n l1 ctx_err arm spt offset size rest)
          as [[l' ev'] r] eqn:Hr.
        injection H as _ _ ->.
        destruct (IH _ _ _ _ Hr) as (url & body & -> & Hin & Ha).
        exists url, body. split; [done|]. split; [by right|done].
      * injection H as _ _ ->.
        destruct (readRemote_ok _ _ _ _ _ _ _ _ _ _ Hrr) as [body ->].
        exists u, body. split; [done|]. split; [by left|]. by rewrite E.
    + destruct (read_urls n lim ctx_err arm spt offset size rest)
        as [[l' ev'] r] eqn:Hr.
      injection H as _ _ ->.
      destruct (IH _ _ _ _ Hr) as (url & body & -> & Hin & Ha).
      exists url, body. split; [done|]. split; [by right|done].
Qed.

Lemma read_infos_break n ctx_err arm spt offset size si : ∀ lim l ev rd,
  read_infos n lim ctx_err arm spt offset size si = (l, ev, LoopBreak rd) →
  ∃ info url body, rd = Some (RemoteBody url body) ∧ info ∈ si
                   ∧ url ∈ URLs info ∧ allocated_at n spt offset size url.
Proof.
  induction si as [|info rest IH]; intros lim l ev rd H; [done|].
  cbn [read_infos] in H.
  destruct (read_urls n lim ctx_err arm spt offset size (URLs info))
    as [[l1 ev1] r] eqn:Hu.
  destruct r as [rd'| |].
  - injection H as _ _ ->.
    destruct (read_urls_break _ _ _ _ _ _ _ _ _ _ _ Hu) as (url & body & -> & Hin & Ha).
    exists info, url, body. split; [done|]. split; [by left|done].
  - destruct (read_infos n l1 ctx_err arm spt offset size rest)
      as [[l' ev'] r'] eqn:Hr.
    injection H as _ _ ->.
    destruct (IH _ _ _ _ Hr) as (i & url & body & -> & Hi & Hin & Ha).
    exists i, url, body. split; [done|]. split; [by right|done].
  - done.
Qed.

(** X23. For an unsealed file that the local store does not hold and the
    index knows at one location at least, [Reader] never returns an error;
    the reader it returns is nil, or the body of a response from one of the
    listed URLs whose probe said that the range is allocated. *)
Theorem Reader_remote_returns_no_error (w : world) (n : net) (lim l : limiter)
    (ctx_err : option error) (arm : select_arm) (s : SectorID)
    (spt offset size : Z) (paths stores : SectorPaths)
    (si : list SectorStorageInfo) (ev : list event) (rd : option reader)
    (err : option error) :
  local_AcquireSector w s FTUnsealed FTNone PathStorage AcquireMove
  = (paths, stores, None) →
  Unsealed paths = "" →
  index_StorageFindSector w s FTUnsealed = (si, None) →
  si ≠ [] →
  sort_Slice w si ≡ₚ si →
  Reader w n lim ctx_err arm s spt offset size FTUnsealed
  = (l, ev, ReadReturned rd err) →
  err = None
  ∧ (rd = None
     ∨ ∃ info url body, rd = Some (RemoteBody url body) ∧ info ∈ si
                        ∧ url ∈ URLs info ∧ allocated_at n spt offset size url).
Proof.
  intros Hl Hp Hi Hne Hperm. unfold Reader. simpl negb. cbv iota.
  rewrite Hl. unfold PathByType. simpl. rewrite Hp. simpl. rewrite Hi.
  destruct si as [|i0 si0]; [done|]. simpl length. simpl Nat.eqb. cbv iota.
  destruct (read_infos n lim ctx_err arm spt offset size (sort_Slice w (i0 :: si0)))
    as [[l' ev'] r] eqn:Hr.
  destruct r as [rd'| |]; intros H; [| |done].
  - injection H as _ _ <- <-. split; [done|]. right.
    destruct (read_infos_break _ _ _ _ _ _ _ _ _ _ _ Hr)
      as (i & url & body & -> & Hin & Hu & Ha).
    exists i, url, body. split; [done|]. split; [by rewrite <- Hperm|done].
  - injection H as _ _ <- <-. split; [done|]. by left.
Qed.

Definition ok_200 : string → response :=
  λ _, {| StatusCode := 200; ContentType := "application/octet-stream";
          Body := "piece" |}.

Lemma Reader_remote_returns_no_error_witness :
  let w := sample_world None ([unsealed_peer], None) (λ _, None) all_404 in
  @None error = None
  ∧ (Some (RemoteBody "http://peer-1:2345/remote/unsealed/s-t01000-1" "piece")
     = None
     ∨ ∃ info url body,
         Some (RemoteBody "http://peer-1:2345/remote/unsealed/s-t01000-1" "piece")
         = Some (RemoteBody url body)
         ∧ info ∈ [unsealed_peer] ∧ url ∈ URLs info
         ∧ allocated_at (sample_net ok_200) 8 0 2048 url).
Proof.
  apply (Reader_remote_returns_no_error
           (sample_world None ([unsealed_peer], None) (λ _, None) all_404)
           (sample_net ok_200) free2 free2 None ArmSend sid1 8 0 2048
           no_paths no_paths [unsealed_peer]
           [EvLocalAcquire sid1 FTUnsealed FTNone; EvFindSector sid1 FTUnsealed;
            EvDo "GET" "http://peer-1:2345/remote/unsealed/s-t01000-1/allocated" "";
            EvCloseBody; EvSend;
            EvDo "GET" "http://peer-1:2345/remote/unsealed/s-t01000-1" "bytes";
            EvRecv]).
  - reflexivity.
  - reflexivity.
  - reflexivity.
  - discriminate.
  - reflexivity.
  - reflexivity.
Defined.

End remote_io_properties.

(** ** extern/sector-storage/worker_local.go: restart, removal, resources,
    session *)

Module worker.

Import stores sectorstorage.

(** The error that the restart reports for every call it finds. *)
Definition restart_error : option (ErrorCode * error) :=
  Some (ErrTempWorkerRestart, New "worker restarted").

(** How far the restart has come: [newLocalWorker] returned before the
    [go] statement, the goroutine is still retrying the delivery of a call,
    or the goroutine has gone through all the calls. *)
Inductive replay_state : Type :=
| NotStarted
| Retrying (ci : CallID)
| Finished.

(** The goroutine that [newLocalWorker] starts over the unfinished calls:
    each one is returned to the manager with a nil result and the restart
    error, and marked returned only when [doReturn] answers true.
    [scripts ci] is how the deliveries of call [ci] go.  The goroutine
    passes [context.TODO()], which is never done: while the manager does
    not accept a call the goroutine stays in [doReturn] for it, and the
    calls behind it are not reached. *)
Fixpoint replay (calls : list (CallID * CallRecord))
    (scripts : CallID → list attempt) (st : gmap CallID CallRecord)
  : gmap CallID CallRecord * list event * replay_state :=
  match calls with
  | [] => (st, [], Finished)
  | (ci, call) :: rest =>
      let '(ev, ok) :=
        doReturn (scripts ci) (RetType call) ci ResNil restart_error in
      match ok with
      | None => (st, ev, Retrying ci)
      | Some b =>
          let st' := if b then onReturned ci st else st in
          let '(st'', ev', ps) := replay rest scripts st' in
          (st'', ev ++ ev', ps)
      end
  end.

(** The part of [newLocalWorker] on the call tracker.  [read_err] is the
    error of [w.ct.unfinished()]: when it is not nil the error is logged
    and the worker is returned with no call replayed. *)
Definition restart (st : gmap CallID CallRecord) (read_err : option error)
    (scripts : CallID → list attempt)
  : gmap CallID CallRecord * list event * replay_state :=
  match read_err with
  | Some _ => (st, [EvLogError "reading unfinished tasks"], NotStarted)
  | None => replay (unfinished st) scripts st
  end.

(** [LocalWorker.Remove]: the three removals, each attempted whatever the
    others gave, their errors collected.  [storage_Remove ft] is what
    [l.storage.Remove(ctx, sector, ft, true)] answers. *)
Definition Remove (storage_Remove : SectorFileType → option error)
  : list SectorFileType * option error :=
  let err := None in
  let err :=
    match storage_Remove FTSealed with
    | Some rerr => Append err (Errorf "removing sector (sealed)" (Some rerr))
    | None => err
    end in
  let err :=
    match storage_Remove FTCache with
    | Some rerr => Append err (Errorf "removing sector (cache)" (Some rerr))
    | None => err
    end in
  let err :=
    match storage_Remove FTUnsealed with
    | Some rerr => Append err (Errorf "removing sector (unsealed)" (Some rerr))
    | None => err
    end in
  ([FTSealed; FTCache; FTUnsealed], err).

(** [storiface.WorkerResources], the per-stage numbers of [Info]. *)
Record WorkerResources : Type := mkRes {
  AP : Z; P1r : Z; P2r : Z; C1 : Z; C2r : Z; FIN : Z
}.

Definition no_resources : WorkerResources :=
  {| AP := 0; P1r := 0; P2r := 0; C1 := 0; C2r := 0; FIN := 0 |}.

(** The body of the loop of [getWorkerResourceConfig] for one accepted
    task type [k]. *)
Definition resource_step (k : string) (res : WorkerResources) : WorkerResources :=
  let kk := default 0%Z (parallelConfig !! k) in
  if String.eqb k TTAddPiece then
    {| AP := kk; P1r := P1r res; P2r := P2r res; C1 := C1 res; C2r := C2r res;
       FIN := FIN res |}
  else if String.eqb k TTCommit1 then
    {| AP := AP res; P1r := P1r res; P2r := P2r res; C1 := kk; C2r := C2r res;
       FIN := FIN res |}
  else if String.eqb k TTCommit2 then
    {| AP := AP res; P1r := P1r res; P2r := P2r res; C1 := C1 res; C2r := kk;
       FIN := FIN res |}
  else if String.eqb k TTPreCommit1 then
    {| AP := AP res; P1r := kk; P2r := P2r res; C1 := C1 res; C2r := C2r res;
       FIN := FIN res |}
  else if String.eqb k TTPreCommit2 then
    {| AP := AP res; P1r := P1r res; P2r := kk; C1 := C1 res; C2r := C2r res;
       FIN := FIN res |}
  else if String.eqb k TTFinalize then
    {| AP := AP res; P1r := P1r res; P2r := P2r res; C1 := C1 res; C2r := C2r res;
       FIN := kk |}
  else res.

(** [getWorkerResourceConfig]: the loop runs over the keys of
    [acceptTasks], in the order the map yields them. *)
Definition getWorkerResourceConfig (acceptTasks : gset string) : WorkerResources :=
  foldr resource_step no_resources (elements acceptTasks).

Definition TaskEnable (tt : string) (acceptTasks : gset string) : gset string :=
  {[tt]} ∪ acceptTasks.

Definition TaskDisable (tt : string) (acceptTasks : gset string) : gset string :=
  acceptTasks ∖ {[tt]}.

(** The fields of [LocalWorker] behind [Session] and [Close]. *)
Record lifecycle : Type := mkLife {
  session : N;
  testDisable : Z;
  closing : consensus.chan;
  chanCacheClear : consensus.chan
}.

(** [Session]; [ClosedWorkerID] is a constant of another file of the
    package. *)
Definition Session (ClosedWorkerID : N) (l : lifecycle) : N * option error :=
  if (testDisable l =? 1)%Z then (0%N, Some (New "disabled"))
  else if consensus.closed (closing l) then (ClosedWorkerID, None)
  else (session l, None).

(** [wctx.Err]. *)
Definition wctx_Err (l : lifecycle) : option error :=
  if consensus.closed (closing l) then Some (Sentinel Canceled) else None.

(** [Close]: both channels are closed, one after the other. *)
Definition Close (l : lifecycle) : lifecycle * outcome (option error) :=
  match consensus.close (chanCacheClear l) with
  | Panic msg => (l, Panic msg)
  | Return c1 =>
      let l1 := {| session := session l; testDisable := testDisable l;
                   closing := closing l; chanCacheClear := c1 |} in
      match consensus.close (closing l1) with
      | Panic msg => (l1, Panic msg)
      | Return c2 =>
          ({| session := session l1; testDisable := testDisable l1;
              closing := c2; chanCacheClear := chanCacheClear l1 |},
           Return None)
      end
  end.

End worker.

Section worker_properties.

Import stores sectorstorage worker.

(** *** doReturn *)

(** X24. [doReturn] repeats the delivery with the same result and error until
    the manager accepts it or the context is done: after [k] deliveries
    that failed and were followed by the 5 s timer it has called the return
    function [k + 1] times, and its answer is [true] when the last call
    succeeded and [false] when the context was done after it failed. *)
Theorem doReturn_retries_until_delivered_or_done (k : nat) (last : attempt)
    (tail : list attempt) (rt : ReturnType) (ci : CallID) (res : work_result)
    (rerr : option (ErrorCode * error)) :
  last ≠ FailedThenTimer →
  snd (doReturn (replicate k FailedThenTimer ++ last :: tail) rt ci res rerr)
  = Some (match last with Delivered => true | _ => false end)
  ∧ List.filter (λ e, match e with EvReturn _ _ _ _ => true | _ => false end)
      (fst (doReturn (replicate k FailedThenTimer ++ last :: tail) rt ci res rerr))
    = replicate (S k) (EvReturn rt ci res rerr).
Proof.
  intros Hlast. induction k as [|k [IH1 IH2]].
  - destruct last; done.
  - cbn [replicate app doReturn].
    destruct (doReturn (replicate k FailedThenTimer ++ last :: tail) rt ci res rerr)
      as [ev b]. simpl in *. by rewrite IH1, IH2.
Qed.

Lemma doReturn_retries_until_delivered_or_done_witness :
  snd (doReturn (replicate 2 FailedThenTimer ++ FailedThenCtxDone :: [Delivered])
         Fetch call1 ResNil None)
  = Some (match FailedThenCtxDone with Delivered => true | _ => false end)
  ∧ List.filter (λ e, match e with EvReturn _ _ _ _ => true | _ => false end)
      (fst (doReturn (replicate 2 FailedThenTimer ++ FailedThenCtxDone :: [Delivered])
              Fetch call1 ResNil None))
    = replicate (S 2) (EvReturn Fetch call1 ResNil None).
Proof.
  apply (doReturn_retries_until_delivered_or_done 2 FailedThenCtxDone [Delivered]
           Fetch call1 ResNil None).
  discriminate.
Defined.

(** *** asyncCall *)

(** X25. When the result of a call has been delivered to the manager,
    [asyncCall] leaves the tracker without a record for the call, and with
    every other record as it was. *)
Theorem asyncCall_delivered_is_forgotten (st : gmap CallID CallRecord)
    (ci : CallID) (rt : ReturnType) (res : work_result)
    (err : option work_error) (script : list attempt) :
  snd (doReturn script rt ci res (toCallError err)) = Some true →
  fst (fst (asyncCall st ci rt res err script)) = delete ci st.
Proof.
  intros H. unfold asyncCall, asyncCall_go.
  destruct (doReturn script rt ci res (toCallError err)) as [ev ok].
  simpl in H. subst ok.
  destruct err as [e|]; [destruct (json_Marshal res) as [rb [m|]]|]; simpl;
    unfold onReturned, onDone, onStart;
    rewrite ?delete_alter_eq, delete_insert_eq; reflexivity.
Qed.

Lemma asyncCall_delivered_is_forgotten_witness :
  fst (fst (asyncCall ∅ call1 SealCommit1 (ResValue "[1,2,3]") None
              [FailedThenTimer; Delivered]))
  = delete call1 ∅.
Proof.
  apply (asyncCall_delivered_is_forgotten ∅ call1 SealCommit1
           (ResValue "[1,2,3]") None [FailedThenTimer; Delivered]).
  reflexivity.
Defined.

Lemma asyncCall_failed_work_is_marked_done_witness :
  fst (fst (asyncCall ∅ call1 SealPreCommit1 ResNil
              (Some (Plain (New "cleaning up sealed data"))) [FailedThenCtxDone]))
    !! call1
  = Some {| RetType := SealPreCommit1; Done := true; Result := Some "null" |}.
Proof.
  apply (asyncCall_failed_work_is_marked_done ∅ call1 SealPreCommit1 ResNil
           (Plain (New "cleaning up sealed data")) "null" [FailedThenCtxDone]);
    reflexivity.
Defined.

(** *** Restart *)

Lemma doReturn_events script rt ci res rerr : ∀ e,
  In e (fst (doReturn script rt ci res rerr)) →
  e = EvReturn rt ci res rerr ∨ ∃ msg, e = EvLogError msg.
Proof.
  induction script as [|a rest IH]; intros e; [done|].
  destruct a; cbn [doReturn].
  - intros [<-|[]]. by left.
  - destruct (doReturn rest rt ci res rerr) as [ev b]. simpl in *.
    intros [<-|[<-|H]]; [by left|right; eauto|by apply IH].
  - simpl. intros [<-|[<-|[<-|[]]]]; [by left|right; eauto..].
Qed.

Lemma doReturn_answer_returns script rt ci res rerr b :
  snd (doReturn script rt ci res rerr) = Some b →
  In (EvReturn rt ci res rerr) (fst (doReturn script rt ci res rerr)).
Proof.
  destruct script as [|a rest]; [done|]. destruct a; cbn [doReturn].
  - by left.
  - destruct (doReturn rest rt ci res rerr). by left.
  - by left.
Qed.

(** A record is as before the replay, or gone after a delivery that went
    through. *)
Lemma replay_lookup calls scripts : ∀ (st : gmap CallID CallRecord) (k : CallID),
  (replay calls scripts st).1.1 !! k = st !! k
  ∨ ((replay calls scripts st).1.1 !! k = None
     ∧ ∃ call, (k, call) ∈ calls
               ∧ snd (doReturn (scripts k) (RetType call) k ResNil restart_error)
                 = Some true).
Proof.
  induction calls as [|[ci call] rest IH]; intros st k; [by left|].
  cbn [replay].
  destruct (doReturn (scripts ci) (RetType call) ci ResNil restart_error)
    as [ev ok] eqn:Hd.
  destruct ok as [b|]; [|by left].
  specialize (IH (if b then onReturned ci st else st) k).
  destruct (replay rest scripts (if b then onReturned ci st else st))
    as [[st'' ev'] ps]. simpl in *.
  destruct IH as [IH|(IH & call' & Hin & Hok)].
  - destruct b; [|by left]. unfold onReturned in IH.
    destruct (decide (k = ci)) as [->|Hne].
    + right. rewrite lookup_delete_eq in IH. split; [done|].
      exists call. split; [by left|]. by rewrite Hd.
    + left. by rewrite lookup_delete_ne in IH.
  - right. split; [done|]. exists call'. split; [by right|done].
Qed.

(** Every return of the replay is for a call of the list, with its return
    type, a nil result and the restart error. *)
Lemma replay_events calls scripts : ∀ st rt ci res rerr,
  In (EvReturn rt ci res rerr) (replay calls scripts st).1.2 →
  res = ResNil ∧ rerr = restart_error
  ∧ ∃ call, (ci, call) ∈ calls ∧ rt = RetType call.
Proof.
  induction calls as [|[c0 call0] rest IH]; intros st rt ci res rerr; [done|].
  cbn [replay].
  pose proof (doReturn_events (scripts c0) (RetType call0) c0 ResNil
                restart_error) as Hev.
  destruct (doReturn (scripts c0) (RetType call0) c0 ResNil restart_error)
    as [ev ok].
  assert (In (EvReturn rt ci res rerr) ev →
          res = ResNil ∧ rerr = restart_error
          ∧ ∃ call, (ci, call) ∈ (c0, call0) :: rest ∧ rt = RetType call) as Hhd.
  { intros H. destruct (Hev _ H) as [Heq|[msg Heq]]; [|done].
    injection Heq as -> -> -> ->. split; [done|]. split; [done|].
    exists call0. split; [by left|done]. }
  destruct ok as [b|]; [|exact Hhd].
  specialize (IH (if b then onReturned c0 st else st) rt ci res rerr).
  destruct (replay rest scripts (if b then onReturned c0 st else st))
    as [[st'' ev'] ps]. simpl in *.
  intros H. apply in_app_or in H as [H|H]; [by apply Hhd|].
  destruct (IH H) as (-> & -> & call & Hin & ->).
  split; [done|]. split; [done|]. exists call. split; [by right|done].
Qed.

(** The replay is left retrying only at a call whose delivery has not been
    answered. *)
Lemma replay_retrying calls scripts : ∀ st ci,
  (replay calls scripts st).2 = Retrying ci →
  ∃ call, (ci, call) ∈ calls
          ∧ snd (doReturn (scripts ci) (RetType call) ci ResNil restart_error)
            = None.
Proof.
  induction calls as [|[c0 call0] rest IH]; intros st ci; [done|].
  cbn [replay].
  destruct (doReturn (scripts c0) (RetType call0) c0 ResNil restart_error)
    as [ev ok] eqn:Hd.
  destruct ok as [b|].
  - specialize (IH (if b then onReturned c0 st else st) ci).
    destruct (replay rest scripts (if b then onReturned c0 st else st))
      as [[st'' ev'] ps]. simpl in *.
    intros H. destruct (IH H) as (call & Hin & Hok).
    exists call. split; [by right|done].
  - simpl. intros [= <-]. exists call0. split; [by left|]. by rewrite Hd.
Qed.

(** A replay that came to its end has returned every call, and has removed
    the record of those whose delivery went through. *)
Lemma replay_finished calls scripts : ∀ st,
  (replay calls scripts st).2 = Finished →
  ∀ ci call, (ci, call) ∈ calls →
    In (EvReturn (RetType call) ci ResNil restart_error)
       (replay calls scripts st).1.2
    ∧ (snd (doReturn (scripts ci) (RetType call) ci ResNil restart_error)
       = Some true →
       (replay calls scripts st).1.1 !! ci = None).
Proof.
  induction calls as [|[c0 call0] rest IH]; intros st Hfin ci call Hin;
    [by apply elem_of_nil in Hin|].
  revert Hfin. cbn [replay].
  pose proof (doReturn_answer_returns (scripts c0) (RetType call0) c0 ResNil
                restart_error) as Hret.
  destruct (doReturn (scripts c0) (RetType call0) c0 ResNil restart_error)
    as [ev ok] eqn:Hd.
  destruct ok as [b|]; [|done].
  specialize (IH (if b then onReturned c0 st else st)).
  pose proof (replay_lookup rest scripts (if b then onReturned c0 st else st) ci)
    as Hl.
  destruct (replay rest scripts (if b then onReturned c0 st else st))
    as [[st'' ev'] ps]. simpl in *.
  intros ->. specialize (IH eq_refl).
  apply elem_of_cons in Hin as [Heq|Hin].
  - injection Heq as -> ->. split.
    + apply in_or_app. left. by apply (Hret b).
    + rewrite Hd. simpl. intros [= ->].
      destruct Hl as [Hl|[Hl _]]; [|done].
      rewrite Hl. apply lookup_delete_eq.
  - destruct (IH ci call Hin) as [H1 H2]. split; [|done].
    apply in_or_app. by right.
Qed.

Lemma replay_all_delivered calls scripts : ∀ st,
  (∀ ci call, (ci, call) ∈ calls →
     snd (doReturn (scripts ci) (RetType call) ci ResNil restart_error)
     = Some true) →
  (replay calls scripts st).2 = Finished.
Proof.
  induction calls as [|[c0 call0] rest IH]; intros st Hall; [done|].
  cbn [replay].
  pose proof (Hall c0 call0 ltac:(by left)) as Hd.
  destruct (doReturn (scripts c0) (RetType call0) c0 ResNil restart_error)
    as [ev ok]. simpl in Hd. subst ok.
  specialize (IH (onReturned c0 st)
                (λ ci call H, Hall ci call (list_elem_of_further _ _ _ H))).
  by destruct (replay rest scripts (onReturned c0 st)) as [[st'' ev'] ps].
Qed.

(** X26. The restart of the worker on its call tracker.  When the tracker
    cannot be read, the error is logged and no call is returned; the
    tracker is left as it was.  Otherwise the calls left in the tracker
    are returned to the manager one after the other, each with its return
    type, a nil result and the error [ErrTempWorkerRestart], whether or
    not the call had been marked done with a stored result.  No record is
    added or changed; a record is removed only when the delivery of its
    call went through; while a delivery is not answered the replay stays
    at that call, whose record is kept.  A replay that came to its end has
    returned every call and removed exactly the records of the calls
    delivered; when every delivery goes through, it comes to its end and
    leaves the tracker empty. *)
Theorem restart_returns_every_call_as_restart_error
    (st : gmap CallID CallRecord) (read_err : option error)
    (scripts : CallID → list attempt) :
  (∀ e, read_err = Some e →
     restart st read_err scripts
     = (st, [EvLogError "reading unfinished tasks"], NotStarted))
  ∧ (∀ rt ci res rerr,
       In (EvReturn rt ci res rerr) (restart st read_err scripts).1.2 →
       res = ResNil ∧ rerr = restart_error
       ∧ ∃ call, st !! ci = Some call ∧ rt = RetType call)
  ∧ (restart st read_err scripts).1.1 ⊆ st
  ∧ (∀ ci call, st !! ci = Some call →
       snd (doReturn (scripts ci) (RetType call) ci ResNil restart_error)
       ≠ Some true →
       (restart st read_err scripts).1.1 !! ci = Some call)
  ∧ (∀ ci, (restart st read_err scripts).2 = Retrying ci →
       ∃ call, st !! ci = Some call
               ∧ snd (doReturn (scripts ci) (RetType call) ci ResNil
                        restart_error) = None
               ∧ (restart st read_err scripts).1.1 !! ci = Some call)
  ∧ ((restart st read_err scripts).2 = Finished →
     ∀ ci call, st !! ci = Some call →
       In (EvReturn (RetType call) ci ResNil restart_error)
          (restart st read_err scripts).1.2
       ∧ (restart st read_err scripts).1.1 !! ci
         = (if decide (snd (doReturn (scripts ci) (RetType call) ci ResNil
                              restart_error) = Some true)
            then None else Some call))
  ∧ (read_err = None →
     (∀ ci call, st !! ci = Some call →
        snd (doReturn (scripts ci) (RetType call) ci ResNil restart_error)
        = Some true) →
     (restart st read_err scripts).1.1 = ∅
     ∧ (restart st read_err scripts).2 = Finished
     ∧ ∀ ci call, st !! ci = Some call →
         In (EvReturn (RetType call) ci ResNil restart_error)
            (restart st read_err scripts).1.2).
Proof.
  assert (Hkeep : ∀ ci call, st !! ci = Some call →
            snd (doReturn (scripts ci) (RetType call) ci ResNil restart_error)
            ≠ Some true →
            (restart st read_err scripts).1.1 !! ci = Some call).
  { intros ci call Hst Hno. destruct read_err as [e|]; [done|].
    unfold restart, unfinished.
    destruct (replay_lookup (map_to_list st) scripts st ci)
      as [->|(_ & call' & Hin & Hok)]; [done|].
    apply elem_of_map_to_list in Hin. by simplify_eq. }
  assert (Hfin : (restart st read_err scripts).2 = Finished →
            ∀ ci call, st !! ci = Some call →
              In (EvReturn (RetType call) ci ResNil restart_error)
                 (restart st read_err scripts).1.2
              ∧ (snd (doReturn (scripts ci) (RetType call) ci ResNil
                        restart_error) = Some true →
                 (restart st read_err scripts).1.1 !! ci = None)).
  { destruct read_err as [e|]; [done|]. unfold restart, unfinished.
    intros H ci call Hst. apply replay_finished; [done|].
    by apply elem_of_map_to_list. }
  split; [|split; [|split; [|split; [|split; [|split]]]]].
  - by intros e ->.
  - intros rt ci res rerr. destruct read_err as [e|]; simpl.
    { intros [H|[]]. discriminate H. }
    unfold unfinished. intros H.
    destruct (replay_events _ _ _ _ _ _ _ H) as (-> & -> & call & Hin & ->).
    split; [done|]. split; [done|]. exists call.
    split; [by apply elem_of_map_to_list|done].
  - destruct read_err as [e|]; [done|]. unfold restart, unfinished.
    apply map_subseteq_spec. intros k x Hk.
    destruct (replay_lookup (map_to_list st) scripts st k) as [H|[H _]];
      rewrite H in Hk; done.
  - exact Hkeep.
  - intros ci H. destruct read_err as [e|]; [done|].
    unfold restart, unfinished in H.
    destruct (replay_retrying _ _ _ _ H) as (call & Hin & Hok).
    apply elem_of_map_to_list in Hin. exists call.
    split; [done|]. split; [done|]. apply Hkeep; [done|]. by rewrite Hok.
  - intros H ci call Hst. destruct (Hfin H ci call Hst) as [H1 H2].
    split; [done|]. destruct (decide _) as [Hd|Hd]; [by apply H2|].
    by apply Hkeep.
  - intros -> Hall.
    assert ((restart st None scripts).2 = Finished) as Hf.
    { unfold restart, unfinished. apply replay_all_delivered.
      intros ci call Hin. apply Hall. by apply elem_of_map_to_list. }
    split; [|split; [done|]].
    + apply map_eq. intros k. rewrite lookup_empty.
      destruct (st !! k) as [call|] eqn:Hst.
      * destruct (Hfin Hf k call Hst) as [_ H2]. apply H2. by apply Hall.
      * unfold restart, unfinished.
        destruct (replay_lookup (map_to_list st) scripts st k) as [H|[H _]];
          [by rewrite H|done].
    + intros ci call Hst. by destruct (Hfin Hf ci call Hst).
Qed.

Definition call2 : CallID := ((1000%N, 2%N), 8%N).

Lemma restart_returns_every_call_as_restart_error_witness :
  let st : gmap CallID CallRecord :=
    <[call1 := {| RetType := SealPreCommit1; Done := false; Result := None |}]>
      (<[call2 := {| RetType := SealCommit2; Done := true;
                     Result := Some "[7]" |}]> ∅) in
  let scripts : CallID → list attempt := λ _, [FailedThenTimer; Delivered] in
  (restart st None scripts).1.1 = ∅
  ∧ (restart st None scripts).2 = Finished
  ∧ ∀ ci call, st !! ci = Some call →
      In (EvReturn (RetType call) ci ResNil restart_error)
         (restart st None scripts).1.2.
Proof.
  apply (restart_returns_every_call_as_restart_error
           (<[call1 := {| RetType := SealPreCommit1; Done := false;
                          Result := None |}]>
              (<[call2 := {| RetType := SealCommit2; Done := true;
                             Result := Some "[7]" |}]> ∅))
           None (λ _, [FailedThenTimer; Delivered])).
  - reflexivity.
  - intros ci call _. reflexivity.
Defined.

(** A run in which the manager does not answer: the replay stays at the
    one call of the tracker and keeps its record; and a run in which the
    tracker cannot be read. *)
Lemma restart_stuck_and_unread :
  let st : gmap CallID CallRecord :=
    <[call1 := {| RetType := SealPreCommit1; Done := false; Result := None |}]> ∅ in
  restart st None (λ _, [FailedThenTimer; FailedThenTimer])
  = (st, [EvReturn SealPreCommit1 call1 ResNil restart_error;
          EvLogError "return error, will retry in 5s";
          EvReturn SealPreCommit1 call1 ResNil restart_error;
          EvLogError "return error, will retry in 5s"], Retrying call1)
  ∧ restart st (Some (New "datastore closed")) (λ _, [Delivered])
    = (st, [EvLogError "reading unfinished tasks"], NotStarted).
Proof. split; reflexivity. Qed.

(** *** Remove *)

(** X27. [LocalWorker.Remove] asks the store to remove the sealed file, the
    cache and the unsealed file, in this order and whatever the earlier
    removals gave; it returns nil exactly when all three succeeded. *)
Theorem Remove_attempts_all_three (storage_Remove : SectorFileType → option error) :
  fst (Remove storage_Remove) = [FTSealed; FTCache; FTUnsealed]
  ∧ (snd (Remove storage_Remove) = None
     ↔ storage_Remove FTSealed = None ∧ storage_Remove FTCache = None
       ∧ storage_Remove FTUnsealed = None).
Proof.
  unfold Remove. split; [done|].
  destruct (storage_Remove FTSealed), (storage_Remove FTCache),
    (storage_Remove FTUnsealed); simpl; intuition discriminate.
Qed.

(** *** The stage mutexes and counters on every schedule *)

Definition two_p1_sched : list (nat * bool) :=
  [(0, true); (0, true); (0, true); (0, true); (0, true);
   (1, true); (1, true); (1, true)]%nat.

Definition two_p1_all_sched : list (nat * bool) :=
  two_p1_sched ++ [(0, true); (1, true); (1, true); (1, true)]%nat.

Definition after (sched : list (nat * bool)) (calls : list stage) : machine :=
  default (start calls) (run sched (start calls)).

Lemma at_most_one_sealing_witness :
  sealing P1 (after two_p1_sched [P1; P1]) ≤ 1.
Proof.
  apply (at_most_one_sealing [P1; P1] two_p1_sched
           (after two_p1_sched [P1; P1]) P1).
  reflexivity.
Defined.

Lemma all_exited_counters_zero_witness :
  running (task_of P1) (after two_p1_all_sched [P1; P1]) = 0%Z
  ∧ held P1 (worker (after two_p1_all_sched [P1; P1])) = false.
Proof.
  apply (all_exited_counters_zero [P1; P1] two_p1_all_sched
           (after two_p1_all_sched [P1; P1]) P1).
  - reflexivity.
  - repeat constructor.
Defined.

Definition only_stage_keys (σ : machine) : Prop :=
  ∀ tt, (∀ s, tt ≠ task_of s) → runningTasks (worker σ) !! tt = None.

Lemma fire_only_stage_keys i ok σ σ' :
  only_stage_keys σ → fire i ok σ = Some σ' → only_stage_keys σ'.
Proof.
  intros Hinv Hfire tt Htt. specialize (Hinv tt Htt). unfold fire in Hfire.
  destruct (tasks σ !! i) as [[s p]|]; [|done].
  destruct p; try done;
    try (destruct (held s (worker σ)); [done|]);
    injection Hfire as <-; cbn [worker];
    rewrite ?runningTasks_set_mutex; try done;
    unfold counterTask; cbn [runningTasks];
    destruct (runningTasks (worker σ) !! task_of s);
    rewrite lookup_insert_ne; try done; intros E; by apply (Htt s).
Qed.

Lemma run_only_stage_keys sched : ∀ σ σ',
  only_stage_keys σ → run sched σ = Some σ' → only_stage_keys σ'.
Proof.
  induction sched as [|[i ok] rest IH]; intros σ σ' Hinv Hrun; simpl in Hrun.
  - by injection Hrun as <-.
  - destruct (fire i ok σ) as [σ1|] eqn:Hf; [|done].
    eapply IH; [|exact Hrun]. by eapply fire_only_stage_keys.
Qed.

Lemma parallelConfig_stage s : parallelConfig !! task_of s = Some 1%Z.
Proof. by destruct s. Qed.

(** X28. On every schedule of PreCommit1, PreCommit2 and Commit2 calls on a
    fresh worker, [HasResourceForNewTask] answers [true] for one of these
    stages exactly when no goroutine of the stage stands between its
    increment and its decrement of the counter; for every other task type
    it always answers [true], since nothing ever counts those. *)
Theorem HasResourceForNewTask_on_every_schedule (calls : list stage)
    (sched : list (nat * bool)) (σ : machine) (s : stage) :
  run sched (start calls) = Some σ →
  (HasResourceForNewTask (task_of s) (worker σ) = true ↔ counted s σ = 0)
  ∧ ∀ tt, (∀ s', tt ≠ task_of s') →
          HasResourceForNewTask tt (worker σ) = true.
Proof.
  intros Hrun. split.
  - pose proof (run_counter_inv sched _ _ (start_counter_inv calls) Hrun s) as Hc.
    unfold running in Hc. unfold HasResourceForNewTask.
    rewrite parallelConfig_stage. simpl.
    destruct (runningTasks (worker σ) !! task_of s) as [count|]; simpl in Hc.
    + destruct (Z.ltb_spec count 1); split; intros; try done; lia.
    + split; [lia|done].
  - intros tt Htt.
    assert (only_stage_keys (start calls)) as H0.
    { intros t _. apply lookup_empty. }
    pose proof (run_only_stage_keys sched _ _ H0 Hrun tt Htt) as Hk.
    unfold HasResourceForNewTask. by rewrite Hk.
Qed.

Lemma HasResourceForNewTask_on_every_schedule_witness :
  (HasResourceForNewTask (task_of P1) (worker (after two_p1_sched [P1; P1])) = true
   ↔ counted P1 (after two_p1_sched [P1; P1]) = 0)
  ∧ ∀ tt, (∀ s', tt ≠ task_of s') →
          HasResourceForNewTask tt (worker (after two_p1_sched [P1; P1])) = true.
Proof.
  apply (HasResourceForNewTask_on_every_schedule [P1; P1] two_p1_sched
           (after two_p1_sched [P1; P1]) P1).
  reflexivity.
Defined.

(** *** What Info reports *)

Ltac step_field :=
  intros; unfold resource_step;
  repeat match goal with
         | |- context [String.eqb ?k ?c] =>
             let E := fresh "E" in destruct (String.eqb k c) eqn:E
         end;
  repeat match goal with
         | H : String.eqb _ _ = true |- _ => apply String.eqb_eq in H
         end;
  subst; try discriminate; reflexivity.

Lemma step_AP k r : AP (resource_step k r)
  = if String.eqb k TTAddPiece then 1%Z else AP r.
Proof. step_field. Qed.
Lemma step_P1 k r : P1r (resource_step k r)
  = if String.eqb k TTPreCommit1 then 1%Z else P1r r.
Proof. step_field. Qed.
Lemma step_P2 k r : P2r (resource_step k r)
  = if String.eqb k TTPreCommit2 then 1%Z else P2r r.
Proof. step_field. Qed.
Lemma step_C1 k r : C1 (resource_step k r)
  = if String.eqb k TTCommit1 then 8%Z else C1 r.
Proof. step_field. Qed.
Lemma step_C2 k r : C2r (resource_step k r)
  = if String.eqb k TTCommit2 then 1%Z else C2r r.
Proof. step_field. Qed.
Lemma step_FIN k r : FIN (resource_step k r)
  = if String.eqb k TTFinalize then 1%Z else FIN r.
Proof. step_field. Qed.

Lemma foldr_field (f : WorkerResources → Z) (c : string) (v : Z)
    (l : list string) :
  (∀ k r, f (resource_step k r) = if String.eqb k c then v else f r) →
  f (foldr resource_step no_resources l)
  = if bool_decide (c ∈ l) then v else f no_resources.
Proof.
  intros Hstep. induction l as [|k l IH]; [done|].
  cbn [foldr]. rewrite Hstep, IH.
  destruct (String.eqb_spec k c) as [->|Hne].
  - by rewrite (bool_decide_eq_true_2 (c ∈ c :: l)) by by left.
  - case_bool_decide as H1; case_bool_decide as H2; try done.
    + elim H2. by right.
    + apply elem_of_cons in H2 as [?|?]; done.
Qed.

(** X29. The resources that [Info] reports: for each of the six stages, the
    entry of the [parallelConfig] table when the worker accepts the task
    type, and 0 when it does not. *)
Theorem getWorkerResourceConfig_reports_accepted (acceptTasks : gset string) :
  getWorkerResourceConfig acceptTasks
  = {| AP := if bool_decide (TTAddPiece ∈ acceptTasks) then 1 else 0;
       P1r := if bool_decide (TTPreCommit1 ∈ acceptTasks) then 1 else 0;
       P2r := if bool_decide (TTPreCommit2 ∈ acceptTasks) then 1 else 0;
       C1 := if bool_decide (TTCommit1 ∈ acceptTasks) then 8 else 0;
       C2r := if bool_decide (TTCommit2 ∈ acceptTasks) then 1 else 0;
       FIN := if bool_decide (TTFinalize ∈ acceptTasks) then 1 else 0 |}%Z.
Proof.
  unfold getWorkerResourceConfig.
  assert (∀ c, bool_decide (c ∈ acceptTasks)
               = bool_decide (c ∈ elements acceptTasks)) as Hel.
  { intros c. apply bool_decide_ext. by rewrite elem_of_elements. }
  rewrite !Hel.
  pose proof (foldr_field AP _ _ (elements acceptTasks) step_AP) as H1.
  pose proof (foldr_field P1r _ _ (elements acceptTasks) step_P1) as H2.
  pose proof (foldr_field P2r _ _ (elements acceptTasks) step_P2) as H3.
  pose proof (foldr_field C1 _ _ (elements acceptTasks) step_C1) as H4.
  pose proof (foldr_field C2r _ _ (elements acceptTasks) step_C2) as H5.
  pose proof (foldr_field FIN _ _ (elements acceptTasks) step_FIN) as H6.
  destruct (foldr resource_step no_resources (elements acceptTasks)).
  simpl in *. by rewrite H1, H2, H3, H4, H5, H6.
Qed.

(** *** Session and Close *)

(** X30. Until [Close] a worker that is not disabled reports its own session;
    after [Close] it reports [ClosedWorkerID] and the context of its tasks
    is cancelled; a second [Close] panics on the closed channel. *)
Theorem Close_ends_the_session (cid : N) (l : lifecycle) :
  consensus.closed (closing l) = false →
  consensus.closed (chanCacheClear l) = false →
  testDisable l ≠ 1%Z →
  ∃ l1 l2,
    Session cid l = (session l, None)
    ∧ wctx_Err l = None
    ∧ Close l = (l1, Return None)
    ∧ Session cid l1 = (cid, None)
    ∧ wctx_Err l1 = Some (Sentinel Canceled)
    ∧ Close l1 = (l2, Panic "close of closed channel").
Proof.
  destruct l as [se td [b1 c1] [b2 c2]]. simpl. intros -> -> Htd.
  unfold Session, wctx_Err, Close, consensus.close. simpl.
  destruct (Z.eqb_spec td 1); [done|].
  eexists _, _.
  split; [reflexivity|]. split; [reflexivity|]. split; [reflexivity|].
  simpl. destruct (Z.eqb_spec td 1); [done|]. repeat split.
Qed.

Lemma Close_ends_the_session_witness :
  let l := {| session := 5%N; testDisable := 0%Z;
              closing := {| consensus.buffered := 0; consensus.closed := false |};
              chanCacheClear := {| consensus.buffered := 0;
                                   consensus.closed := false |} |} in
  ∃ l1 l2,
    Session 9%N l = (session l, None)
    ∧ wctx_Err l = None
    ∧ Close l = (l1, Return None)
    ∧ Session 9%N l1 = (9%N, None)
    ∧ wctx_Err l1 = Some (Sentinel Canceled)
    ∧ Close l1 = (l2, Panic "close of closed channel").
Proof.
  apply (Close_ends_the_session 9%N
           {| session := 5%N; testDisable := 0%Z;
              closing := {| consensus.buffered := 0; consensus.closed := false |};
              chanCacheClear := {| consensus.buffered := 0;
                                   consensus.closed := false |} |});
    [reflexivity|reflexivity|discriminate].
Defined.

End worker_properties.
